(** * Earliest-arrival reachability search over a transit schedule

    A shallow embedding of [jetlag.py] (path representation, push rule and
    main search loop) and of the parts of [gtfslib.py] the search consults
    (stop timetable construction, spatial queries).

    Conventions of the embedding:
    - a [timedelta] is its number of microseconds, an integer ([Z]);
    - a call that can raise is a computation in the [result] monad; a method
      that returns Python's [None] returns [Ok None];
    - a Python [dict] is a [gmap], a Python [set] a [gset];
    - a Python [float] (distances in metres, the walking speed) is the
      rational it stands for ([Q]); a product or a quotient of floats is
      rounded to the nearest double, ties to even, subnormals included
      ([round_double]); infinities and overflow are not modelled. *)

From Stdlib Require Import ZArith QArith Qround Qabs Qpower String List Lia Lqa
  Permutation Sorted.
From stdpp Require Import gmap strings list fin_maps pretty.

Local Open Scope string_scope.
Local Open Scope Z_scope.

(** ** Exceptions *)

Inductive exn : Set :=
| AttributeError
| KeyError
| ValueError
| TypeError
| IndexError.

Inductive result (A : Type) : Type :=
| Ok (a : A)
| Raise (e : exn).

Arguments Ok {A} a.
Arguments Raise {A} e.

#[export] Instance result_ret : MRet result := fun A a => Ok a.
#[export] Instance result_bind : MBind result := fun A B f m =>
  match m with
  | Ok a => f a
  | Raise e => Raise e
  end.

Definition raises {A} (m : result A) : Prop := exists e, m = Raise e.
Definition returns {A} (m : result A) : Prop := exists a, m = Ok a.

(** ** Path representation: [RouteSegmentCollection] *)

Definition timedelta := Z.
Definition StopId := string.
Definition TripId := string.

(** What a segment is named by: a string, or the float NaN that pandas puts
    where the feed gives a trip no headsign. *)
Inductive label : Set :=
| Str (s : string)
| NaN.

Coercion Str : string >-> label.

(** [name.startswith(prefix)]: a float has no such attribute. *)
Definition startswith (name : label) (prefix : string) : result bool :=
  match name with
  | Str s => Ok (String.prefix prefix s)
  | NaN => Raise AttributeError
  end.

Record RouteSegment : Set := mkRouteSegment {
  departure_td : timedelta;
  arrival_td : timedelta;
  route_name : label;
  arrival_stop_id : StopId
}.

Record RouteSegmentCollection : Set := mkRSC {
  day : Z;
  trips : list RouteSegment
}.

Definition STARTING_ROUTE_NAME : string := "__start__".

(** [self.trips[-1]] *)
Definition index_last {A} (l : list A) : result A :=
  match last l with
  | Some x => Ok x
  | None => Raise IndexError
  end.

Definition append_ (self : RouteSegmentCollection) (trip : RouteSegment)
  : result RouteSegmentCollection :=
  Ok (mkRSC (day self) (trips self ++ [trip])%list).

Definition append (self : RouteSegmentCollection)
    (departure arrival : timedelta) (name : label) (stop : StopId)
  : result RouteSegmentCollection :=
  append_ self (mkRouteSegment departure arrival name stop).

Definition get_last_trip (self : RouteSegmentCollection)
  : result (option RouteSegment) :=
  if (length (trips self) =? 0)%nat then Ok None
  else t ← index_last (trips self); Ok (Some t).

(** [cls(start_dt.date()).append(td, td, cls.STARTING_ROUTE_NAME, start_stop_id)];
    [start_day] is the date of [start_dt], [td] its time of day. *)
Definition starting_collection (start_day : Z) (td : timedelta) (start_stop_id : StopId)
  : result RouteSegmentCollection :=
  append (mkRSC start_day []) td td STARTING_ROUTE_NAME start_stop_id.

(** Attribute access on the value returned by [get_last_trip]: on [None] it
    raises [AttributeError]. *)
Definition attr {A B} (f : A -> B) (o : option A) : result B :=
  match o with
  | Some a => Ok (f a)
  | None => Raise AttributeError
  end.

Definition cmp_key : Set := (timedelta * nat)%type.

Definition __get_cmp_key (self : RouteSegmentCollection) : result cmp_key :=
  if (length (trips self) =? 0)%nat then Raise ValueError
  else
    last_trip ← get_last_trip self;
    a ← attr arrival_td last_trip;
    Ok (a, length (trips self)).

(** Python's ordering of 2-tuples. *)
Definition key_lt (k1 k2 : cmp_key) : bool :=
  if fst k1 =? fst k2 then (snd k1 <? snd k2)%nat else fst k1 <? fst k2.

Definition __lt__ (self other : RouteSegmentCollection) : result bool :=
  k1 ← __get_cmp_key self;
  k2 ← __get_cmp_key other;
  Ok (key_lt k1 k2).

Definition __gt__ (self other : RouteSegmentCollection) : result bool :=
  k1 ← __get_cmp_key self;
  k2 ← __get_cmp_key other;
  Ok (key_lt k2 k1).

(** [__eq__] compares the segment tuples only. *)
Definition __eq__ (self other : RouteSegmentCollection) : Prop :=
  trips self = trips other.

(** Time monotonicity of a segment sequence: every segment departs no
    earlier than its predecessor arrives. *)
Fixpoint time_monotonic (l : list RouteSegment) : bool :=
  match l with
  | a :: (b :: _) as tl => (arrival_td a <=? departure_td b) && time_monotonic tl
  | _ => true
  end.

(** ** The frontier: Python's [heapq] on a list

    [heapq.heappush], [heapq.heappop] and [heapq.heapify] with their helpers
    [_siftdown] and [_siftup], comparing items with [__lt__].  The [while]
    loops run on a fuel that bounds their iterations: [pos] strictly
    decreases in [_siftdown] and strictly increases in [_siftup]. *)

Definition getitem {A} (l : list A) (i : nat) : result A :=
  match l !! i with
  | Some x => Ok x
  | None => Raise IndexError
  end.

Definition setitem {A} (l : list A) (i : nat) (x : A) : result (list A) :=
  if (i <? length l)%nat then Ok (<[i := x]> l) else Raise IndexError.

Fixpoint _siftdown_loop (fuel : nat) (heap : list RouteSegmentCollection)
    (startpos pos : nat) (newitem : RouteSegmentCollection)
  : result (list RouteSegmentCollection) :=
  match fuel with
  | O => setitem heap pos newitem
  | S fuel' =>
      if (startpos <? pos)%nat then
        let parentpos := Nat.shiftr (pos - 1) 1 in
        parent ← getitem heap parentpos;
        b ← __lt__ newitem parent;
        if (b : bool) then
          heap' ← setitem heap pos parent;
          _siftdown_loop fuel' heap' startpos parentpos newitem
        else setitem heap pos newitem
      else setitem heap pos newitem
  end.

Definition _siftdown (heap : list RouteSegmentCollection) (startpos pos : nat)
  : result (list RouteSegmentCollection) :=
  newitem ← getitem heap pos;
  _siftdown_loop pos heap startpos pos newitem.

Fixpoint _siftup_loop (fuel : nat) (heap : list RouteSegmentCollection)
    (endpos pos childpos : nat)
  : result (list RouteSegmentCollection * nat) :=
  match fuel with
  | O => Ok (heap, pos)
  | S fuel' =>
      if (childpos <? endpos)%nat then
        let rightpos := (childpos + 1)%nat in
        childpos' ←
          (if (rightpos <? endpos)%nat then
             c ← getitem heap childpos;
             r ← getitem heap rightpos;
             b ← __lt__ c r;
             Ok (if negb b then rightpos else childpos)
           else Ok childpos);
        child ← getitem heap childpos';
        heap' ← setitem heap pos child;
        _siftup_loop fuel' heap' endpos childpos' (2 * childpos' + 1)%nat
      else Ok (heap, pos)
  end.

Definition _siftup (heap : list RouteSegmentCollection) (pos : nat)
  : result (list RouteSegmentCollection) :=
  let endpos := length heap in
  let startpos := pos in
  newitem ← getitem heap pos;
  '(heap', pos') ← _siftup_loop endpos heap endpos pos (2 * pos + 1)%nat;
  heap'' ← setitem heap' pos' newitem;
  _siftdown heap'' startpos pos'.

Definition heappush (heap : list RouteSegmentCollection) (item : RouteSegmentCollection)
  : result (list RouteSegmentCollection) :=
  let heap' := (heap ++ [item])%list in
  _siftdown heap' 0%nat (length heap' - 1)%nat.

Definition heappop (heap : list RouteSegmentCollection)
  : result (RouteSegmentCollection * list RouteSegmentCollection) :=
  lastelt ← index_last heap;
  let heap' := removelast heap in
  if (0 <? length heap')%nat then
    returnitem ← getitem heap' 0%nat;
    heap1 ← setitem heap' 0%nat lastelt;
    heap2 ← _siftup heap1 0%nat;
    Ok (returnitem, heap2)
  else Ok (lastelt, heap').

Fixpoint heapify_from (positions : list nat) (x : list RouteSegmentCollection)
  : result (list RouteSegmentCollection) :=
  match positions with
  | [] => Ok x
  | i :: rest => x' ← _siftup x i; heapify_from rest x'
  end.

(** [for i in reversed(range(n//2)): _siftup(x, i)] *)
Definition heapify (x : list RouteSegmentCollection)
  : result (list RouteSegmentCollection) :=
  heapify_from (rev (seq 0 (length x / 2)%nat)) x.

(** ** Numbers: floats and their rounding *)

(** CPython's [_divide_and_round a b] for [b > 0]: the integer nearest to
    [a / b], ties to even. *)
Definition divide_and_round (a b : Z) : Z :=
  let q := a / b in
  let r := a mod b in
  if (b <? 2 * r) || ((2 * r =? b) && Z.odd q) then q + 1 else q.

(** [round(x)] on a float. *)
Definition py_round (x : Q) : Z :=
  divide_and_round (Qnum x) (Z.pos (Qden x)).

(** The integer part of the binary logarithm of a positive rational. *)
Definition floor_log2 (x : Q) : Z :=
  let k := Z.log2 (Qnum x) - Z.log2 (Z.pos (Qden x)) in
  if Qle_bool (2 ^ k) x then k else k - 1.

(** The exponent of the unit in the last place of the doubles next to [x]:
    53 bits of precision, no exponent below -1074. *)
Definition ulp_exponent (x : Q) : Z :=
  Z.max (floor_log2 (Qabs x) - 52) (-1074).

(** The double nearest to [x], ties to the even mantissa (IEEE 754 binary64,
    the rounding of every float operation and of a float literal). *)
Definition round_double (x : Q) : Q :=
  if Qeq_bool x 0 then 0
  else
    let e := ulp_exponent x in
    Qred (inject_Z (py_round (x / 2 ^ e)) * 2 ^ e).

(** [x * y] and [x / y] on floats. *)
Definition float_mul (x y : Q) : Q := round_double (x * y).
Definition float_div (x y : Q) : Q := round_double (x / y).

Definition MICROSECONDS : Z := 1000000.

(** [x * timedelta(seconds=1)] for a float [x]: the nearest whole number of
    microseconds. *)
Definition float_mul_second (x : Q) : timedelta :=
  divide_and_round (Qnum x * MICROSECONDS) (Z.pos (Qden x)).

(** The [seconds] attribute of a [timedelta]: the seconds component, the
    days and the microseconds left out. *)
Definition seconds (t : timedelta) : Z := (t / MICROSECONDS) mod 86400.

(** Truth value of a [timedelta] in [if lower:]. *)
Definition truthy (t : timedelta) : bool := negb (t =? 0).

(** [str(n)] for an integer. *)
Definition str_of_Z (n : Z) : string :=
  pretty n.

(** ** The feed and the configuration *)

Definition RouteType := Z.

(** A row of [feed.trips]; a missing headsign is [NaN].  The table has the
    column: a table without it is not represented. *)
Record TripRow : Set := mkTripRow {
  t_trip_id : TripId;
  t_route_id : string;
  t_trip_headsign : label
}.

(** A row of [feed.stop_times]; a missing time is [None]. *)
Record StopTimeRow : Set := mkStopTimeRow {
  st_trip_id : TripId;
  st_stop_id : StopId;
  st_stop_sequence : Z;
  st_arrival_time : option timedelta;
  st_departure_time : option timedelta
}.

(** A row of [pd.merge(feed.trips, feed.stop_times)]. *)
Record TimetableRow : Set := mkTimetableRow {
  trip_id : TripId;
  route_id : string;
  trip_headsign : label;
  stop_id : StopId;
  stop_sequence : Z;
  arrival_time : option timedelta;
  departure_time : option timedelta
}.

(** What [build_stop_timetable] returns: [pd.DataFrame()] without columns,
    or a frame of merged rows. *)
Inductive DataFrame : Set :=
| NoColumns
| Rows (rows : list TimetableRow).

(** The loaded feed.  [trip_active] is the trip activity of the date
    searched, [dates_in_feed] whether [feed.subset_dates] keeps that date.
    [trip_route_types] is a property of [GTFS] that the search reads but
    whose definition is not part of the source at hand; it is taken as given.
    [stops] is the stop table and [distance] the planar distance between the
    geometries of two stops, the float that [shapely.distance] computes.
    [in_polygon stop radius target] tells whether the point of [target] lies
    in the polygon that geopandas builds as the buffer of the given radius
    around the point of [stop]: a polygon of 64 sides inscribed in the circle,
    whose vertices are not computed here. *)
Record GTFS : Type := mkGTFS {
  feed_trips : list TripRow;
  feed_stop_times : list StopTimeRow;
  dates_in_feed : bool;
  trip_active : TripId -> bool;
  trip_route_types : gmap TripId RouteType;
  stops : list StopId;
  distance : StopId -> StopId -> Q;
  in_polygon : StopId -> Q -> StopId -> bool
}.

(** The constants at the head of [jetlag.py].  [START_DAY] and
    [START_TIME_OF_DAY] are the date and the time of day of [START_TIME];
    [WALKING_SPEED] is the decimal literal of the source, which Python reads
    as the nearest float, [walking_speed]. *)
Record Config : Type := mkConfig {
  START_DAY : Z;
  START_TIME_OF_DAY : timedelta;
  HIDE_DURATION : timedelta;
  START_STOP : StopId;
  WALKING_SPEED : Q;
  ALLOWED_TRAVEL_MODES : list RouteType
}.

Definition walking_speed (cfg : Config) : Q := round_double (WALKING_SPEED cfg).

(** ** [gtfslib.GTFS] *)

Definition merge_row (t : TripRow) (st : StopTimeRow) : TimetableRow :=
  mkTimetableRow (t_trip_id t) (t_route_id t) (t_trip_headsign t)
    (st_stop_id st) (st_stop_sequence st) (st_arrival_time st) (st_departure_time st).

(** [pd.merge(self.feed.trips, self.feed.stop_times)]: the inner join on
    [trip_id], in the order of the left table. *)
Definition merged_trips_and_stoptimes (gtfs : GTFS) : list TimetableRow :=
  flat_map (fun t =>
    map (merge_row t)
      (List.filter (fun st => String.eqb (st_trip_id st) (t_trip_id t)) (feed_stop_times gtfs)))
    (feed_trips gtfs).

(** [groupby(...).get_group((key,))]: the rows of the group, [KeyError] when
    there is none. *)
Definition get_group {A} (key_of : A -> string) (key : string) (table : list A)
  : result (list A) :=
  match List.filter (fun r => String.eqb (key_of r) key) table with
  | [] => Raise KeyError
  | g => Ok g
  end.

(** Order of [sort_values] on [departure_time]: missing values last. *)
Definition departure_le (a b : TimetableRow) : bool :=
  match departure_time a, departure_time b with
  | Some x, Some y => x <=? y
  | Some _, None => true
  | None, Some _ => false
  | None, None => true
  end.

Fixpoint insert_by_departure (x : TimetableRow) (l : list TimetableRow)
  : list TimetableRow :=
  match l with
  | [] => [x]
  | y :: l' => if departure_le x y then x :: y :: l' else y :: insert_by_departure x l'
  end.

(** [f.sort_values(["date", "departure_time"])] for a single date: a stable
    sort on the departure time. *)
Fixpoint sort_values (l : list TimetableRow) : list TimetableRow :=
  match l with
  | [] => []
  | x :: l' => insert_by_departure x (sort_values l')
  end.

Definition build_stop_timetable (gtfs : GTFS) (stop : StopId) : result DataFrame :=
  if negb (dates_in_feed gtfs) then Ok NoColumns
  else
    t ← get_group stop_id stop (merged_trips_and_stoptimes gtfs);
    let f := List.filter (fun r => trip_active gtfs (trip_id r)) t in
    Ok (Rows (sort_values f)).

(** [self._stops_by_id.loc[[str(stop_id)]]] *)
Definition get_stop (gtfs : GTFS) (stop : StopId) : result StopId :=
  if existsb (String.eqb stop) (stops gtfs) then Ok stop else Raise KeyError.

(** [get_stops_in_area(buffer_points(radius, stop_df))]: the stops of the
    table whose point lies in the buffer of the given radius around the stop.
    The buffer of a point is empty when the radius is not positive; otherwise
    it is a polygon inscribed in the circle of that radius, so that it holds no
    point farther than the radius, and [in_polygon] tells which points of the
    disc it holds. *)
Definition get_stops_in_area (gtfs : GTFS) (stop : StopId) (radius : Q) : list StopId :=
  List.filter (fun s =>
    negb (Qle_bool radius 0) && Qle_bool (distance gtfs stop s) radius
    && in_polygon gtfs stop radius s) (stops gtfs).

(** ** [jetlag.py]: the search *)

(** [timedelta_coerce] on a time read from a frame: a [Timedelta] is
    returned as it is, the missing value [NaT] is neither a [timedelta] nor a
    [time] and makes [datetime.combine] raise. *)
Definition timedelta_coerce (t : option timedelta) : result timedelta :=
  match t with
  | Some t => Ok t
  | None => Raise TypeError
  end.

(** [df_time_bound]: rows without a missing time, within the bounds that
    are truthy. *)
Definition df_time_bound (df : list TimetableRow) (lower upper : timedelta)
  : list TimetableRow :=
  List.filter (fun r =>
    match departure_time r, arrival_time r with
    | Some d, Some a =>
        (if truthy lower then lower <=? d else true)
        && (if truthy upper then a <=? upper else true)
    | _, _ => false
    end) df.

(** [df.drop_duplicates('route_id', keep='first')], with the routes already
    seen. *)
Fixpoint drop_duplicates_from (seen : list string) (df : list TimetableRow)
  : list TimetableRow :=
  match df with
  | [] => []
  | r :: df' =>
      if existsb (String.eqb (route_id r)) seen then drop_duplicates_from seen df'
      else r :: drop_duplicates_from (route_id r :: seen) df'
  end.

Definition drop_duplicates (df : list TimetableRow) : list TimetableRow :=
  drop_duplicates_from [] df.

(** Ghost record of what an iteration did, kept beside the program state:
    [Boarded trip path] at [visited_trips.add(trip_id)], [Rode trip succ] at
    each successor built from that trip, [Walked succ] at each walking
    successor. *)
Inductive event : Set :=
| Boarded (trip : TripId) (path : RouteSegmentCollection)
| Rode (trip : TripId) (succ : RouteSegmentCollection)
| Walked (succ : RouteSegmentCollection).

(** The module-level variables of the search. *)
Record State : Type := mkState {
  visited_stops : gmap StopId RouteSegmentCollection;
  visited_trips : gset TripId;
  added_stops : gmap StopId timedelta;
  queue : list RouteSegmentCollection;
  trace : list event
}.

Definition set_queue (s : State) (q : list RouteSegmentCollection) : State :=
  mkState (visited_stops s) (visited_trips s) (added_stops s) q (trace s).

Definition log (e : event) (s : State) : State :=
  mkState (visited_stops s) (visited_trips s) (added_stops s) (queue s)
    (trace s ++ [e])%list.

Definition push_to_queue (s : State) (route_collection : RouteSegmentCollection)
  : result State :=
  last1 ← get_last_trip route_collection;
  stop ← attr arrival_stop_id last1;
  last2 ← get_last_trip route_collection;
  arrival ← attr arrival_td last2;
  let push :=
    q ← heappush (queue s) route_collection;
    Ok (mkState (visited_stops s) (visited_trips s)
          (<[stop := arrival]> (added_stops s)) q (trace s)) in
  match added_stops s !! stop with
  | Some known => if known <? arrival then Ok s else push
  | None => push
  end.

Section Search.

Context (cfg : Config) (gtfs : GTFS).

Definition end_timedelta : timedelta :=
  START_TIME_OF_DAY cfg + HIDE_DURATION cfg.

Definition get_stop_timetable (stop : StopId) : result (list TimetableRow) :=
  tt ← build_stop_timetable gtfs stop;
  match tt with
  | NoColumns => Raise KeyError
  | Rows rows => Ok rows
  end.

Definition trips_between_for_stop (stop : StopId) (t1 t2 : timedelta)
  : result (list TimetableRow) :=
  tt ← get_stop_timetable stop;
  Ok (df_time_bound tt t1 t2).

Definition get_future_stops_on_trip (trip : TripId) (stop_seq : Z)
  : result (list StopTimeRow) :=
  st ← get_group st_trip_id trip (feed_stop_times gtfs);
  Ok (List.filter (fun r => stop_seq <? st_stop_sequence r) st).

(** The loop over the stops of a boarded trip. *)
Fixpoint ride_trip (s : State) (route_collection : RouteSegmentCollection)
    (trip : TripId) (departure : timedelta) (trip_name : label)
    (future_stops : list StopTimeRow) : result State :=
  match future_stops with
  | [] => Ok s
  | future_stop :: rest =>
      arrival ← timedelta_coerce (st_arrival_time future_stop);
      if end_timedelta <? arrival then
        ride_trip s route_collection trip departure trip_name rest
      else
        succ ← append route_collection departure arrival trip_name
                 (st_stop_id future_stop);
        s' ← push_to_queue (log (Rode trip succ) s) succ;
        ride_trip s' route_collection trip departure trip_name rest
  end.

(** The loop over [first_available_routes]. *)
Fixpoint board_routes (s : State) (route_collection : RouteSegmentCollection)
    (rows : list TimetableRow) : result State :=
  match rows with
  | [] => Ok s
  | row :: rest =>
      departure ← timedelta_coerce (departure_time row);
      match trip_route_types gtfs !! trip_id row with
      | None => Raise KeyError
      | Some mode =>
          if negb (existsb (Z.eqb mode) (ALLOWED_TRAVEL_MODES cfg)) then
            board_routes s route_collection rest
          else if bool_decide (trip_id row ∈ visited_trips s) then
            board_routes s route_collection rest
          else
            let s1 :=
              log (Boarded (trip_id row) route_collection)
                (mkState (visited_stops s) ({[trip_id row]} ∪ visited_trips s)
                   (added_stops s) (queue s) (trace s)) in
            future_stops ← get_future_stops_on_trip (trip_id row) (stop_sequence row);
            s2 ← ride_trip s1 route_collection (trip_id row) departure
                   (trip_headsign row) future_stops;
            board_routes s2 route_collection rest
      end
  end.

Definition walk_label (distance_to_stop : Q) : string :=
  "Walk " ++ str_of_Z (py_round distance_to_stop) ++ " meters".

(** The loop over [stops_in_area]. *)
Fixpoint walk_to (s : State) (route_collection : RouteSegmentCollection)
    (td : timedelta) (stop : StopId) (stops_in_area : list StopId) : result State :=
  match stops_in_area with
  | [] => Ok s
  | row :: rest =>
      let distance_to_stop := distance gtfs stop row in
      let arrival :=
        td + float_mul_second (float_div distance_to_stop (walking_speed cfg)) in
      succ ← append route_collection td arrival (walk_label distance_to_stop) row;
      s' ← push_to_queue (log (Walked succ) s) succ;
      walk_to s' route_collection td stop rest
  end.

(** The part of an iteration after the transit expansion. *)
Definition walking_expansion (s : State) (route_collection : RouteSegmentCollection)
    (td : timedelta) (stop : StopId) : result State :=
  last ← get_last_trip route_collection;
  name ← attr route_name last;
  walked ← startswith name "Walk ";
  if walked : bool then Ok s
  else if Qle_bool (walking_speed cfg) 0 then Ok s
  else
    let remaining_time := end_timedelta - td in
    let walking_distance :=
      float_mul (walking_speed cfg) (inject_Z (seconds remaining_time)) in
    _ ← get_stop gtfs stop;
    let stops_in_area := get_stops_in_area gtfs stop walking_distance in
    walk_to s route_collection td stop stops_in_area.

Definition first_available_routes (stop : StopId) (td : timedelta)
  : result (list TimetableRow) :=
  stop_timetable ← trips_between_for_stop stop td end_timedelta;
  Ok (drop_duplicates stop_timetable).

(** One iteration of [while len(queue)], entered with a non-empty queue. *)
Definition loop_body (s : State) : result State :=
  '(route_collection, q) ← heappop (queue s);
  let s0 := set_queue s q in
  last1 ← get_last_trip route_collection;
  td ← attr arrival_td last1;
  last2 ← get_last_trip route_collection;
  stop ← attr arrival_stop_id last2;
  if bool_decide (is_Some (visited_stops s0 !! stop)) then Ok s0
  else if end_timedelta <? td then Ok s0
  else
    let s1 :=
      mkState (<[stop := route_collection]> (visited_stops s0)) (visited_trips s0)
        (added_stops s0) (queue s0) (trace s0) in
    routes ← first_available_routes stop td;
    s2 ← board_routes s1 route_collection routes;
    walking_expansion s2 route_collection td stop.

(** The state before the loop: the queue holds the starting collection. *)
Definition initial_state : result State :=
  start ← starting_collection (START_DAY cfg) (START_TIME_OF_DAY cfg) (START_STOP cfg);
  q ← heapify [start];
  Ok (mkState ∅ ∅ ∅ q []).

(** [while len(queue): ...], at most [fuel] iterations of it. *)
Fixpoint search_loop (fuel : nat) (s : State) : result State :=
  match fuel with
  | O => Ok s
  | S fuel' =>
      if (0 <? length (queue s))%nat then
        s' ← loop_body s;
        search_loop fuel' s'
      else Ok s
  end.

(** The states the search goes through. *)
Inductive reachable : State -> Prop :=
| reachable_initial s :
    initial_state = Ok s -> reachable s
| reachable_step s s' :
    reachable s -> queue s <> [] -> loop_body s = Ok s' -> reachable s'.

(** The search is over in [s]: the loop condition fails. *)
Definition terminated (s : State) : Prop := queue s = [].

End Search.

(** What the trace says about a path: it was built by riding [trip]. *)
Definition rides (s : State) (trip : TripId) (p : RouteSegmentCollection) : Prop :=
  In (Rode trip p) (trace s).

Definition boardings (s : State) : list TripId :=
  flat_map (fun e => match e with Boarded t _ => [t] | _ => [] end) (trace s).

(** ** Concrete feeds and configurations

    The stops of these feeds lie on a line through a vertex of the buffer
    polygon, which therefore holds every stop within the radius. *)

Definition sec (n : Z) : timedelta := n * MICROSECONDS.

(** Stops on a line, at the given abscissa in metres. *)
Definition line_distance (position : StopId -> Z) (a b : StopId) : Q :=
  inject_Z (Z.abs (position a - position b)).

(** The constants of [jetlag.py]: 2024-12-16 (day 739236 of the proleptic
    calendar) at 09:00:00, 90 minutes, stop 22750, 1.06 m/s.  The route types
    allowed are those of [RouteType.all()], here the basic GTFS codes. *)
Definition shipped_config : Config :=
  mkConfig 739236 (sec 32400) (sec 5400) "22750" (106 # 100) [0; 1; 2; 3; 4; 5; 6; 7; 11; 12].

(** One trip T1 of route R1 calling at A (10 s), B (20 s), C (30 s); the
    stops are 100 km apart.  The search starts at A at 10 s. *)
Definition linear_feed : GTFS :=
  mkGTFS
    [mkTripRow "T1" "R1" "Line 1"]
    [mkStopTimeRow "T1" "A" 1 (Some (sec 10)) (Some (sec 10));
     mkStopTimeRow "T1" "B" 2 (Some (sec 20)) (Some (sec 20));
     mkStopTimeRow "T1" "C" 3 (Some (sec 30)) (Some (sec 30))]
    true
    (fun _ => true)
    {["T1" := 3]}
    ["A"; "B"; "C"]
    (line_distance (fun s =>
       if String.eqb s "A" then 0 else if String.eqb s "B" then 100000 else 200000))
    (fun _ _ _ => true).

(** Horizon at 35 s: B and C are both within it. *)
Definition linear_config : Config :=
  mkConfig 0 (sec 10) (sec 25) "A" (1 # 1) [3].

(** Horizon at 25 s: C is beyond it. *)
Definition short_config : Config :=
  mkConfig 0 (sec 10) (sec 15) "A" (1 # 1) [3].

(** Two stops 50 m apart; the only trip has called at both before the
    search starts.  Walking at 1 m/s, horizon at 110 s. *)
Definition walking_feed : GTFS :=
  mkGTFS
    [mkTripRow "T1" "R1" "Line 1"]
    [mkStopTimeRow "T1" "A" 1 (Some (sec 5)) (Some (sec 5));
     mkStopTimeRow "T1" "D" 2 (Some (sec 6)) (Some (sec 6))]
    true
    (fun _ => true)
    {["T1" := 3]}
    ["A"; "D"]
    (line_distance (fun s => if String.eqb s "A" then 0 else 50))
    (fun _ _ _ => true).

Definition walking_config : Config :=
  mkConfig 0 (sec 10) (sec 100) "A" (1 # 1) [3].

(** The shipped constants with the budget raised to 25 hours, and a feed
    with the start stop and a stop E 5 km from it. *)
Definition long_config : Config :=
  mkConfig 739236 (sec 32400) (sec 90000) "22750" (106 # 100)
    [0; 1; 2; 3; 4; 5; 6; 7; 11; 12].

Definition far_feed : GTFS :=
  mkGTFS
    [mkTripRow "T1" "R1" "Line 1"]
    [mkStopTimeRow "T1" "22750" 1 (Some (sec 5)) (Some (sec 5));
     mkStopTimeRow "T1" "E" 2 (Some (sec 6)) (Some (sec 6))]
    true
    (fun _ => true)
    {["T1" := 0]}
    ["22750"; "E"]
    (line_distance (fun s => if String.eqb s "22750" then 0 else 5000))
    (fun _ _ _ => true).

(** The outcome of a run: the finalized stops with the arrival time and the
    number of segments of their path, in the order of the stop ids given. *)
Definition summary (stop_ids : list StopId) (r : result State)
  : result (list (StopId * option (timedelta * nat))) :=
  s ← r;
  Ok (map (fun stop =>
        (stop,
         match visited_stops s !! stop with
         | Some p =>
             match last (trips p) with
             | Some seg => Some (arrival_td seg, length (trips p))
             | None => None
             end
         | None => None
         end)) stop_ids).

Definition run (cfg : Config) (gtfs : GTFS) (fuel : nat) : result State :=
  s ← initial_state cfg; search_loop cfg gtfs fuel s.

(** The key the comparison is specified on: arrival offset of the last
    segment, then number of segments. *)
Definition spec_key (p : RouteSegmentCollection) : cmp_key :=
  (match last (trips p) with Some seg => arrival_td seg | None => 0 end,
   length (trips p)).

(** Ascending lexicographic order on keys. *)
Definition lex_lt (k1 k2 : cmp_key) : Prop :=
  fst k1 < fst k2 \/ (fst k1 = fst k2 /\ (snd k1 < snd k2)%nat).

Definition nonempty (p : RouteSegmentCollection) : Prop := trips p <> [].

Definition start_at_A : RouteSegmentCollection :=
  mkRSC 0 [mkRouteSegment (sec 10) (sec 10) STARTING_ROUTE_NAME "A"].

Definition ride_to_B : RouteSegmentCollection :=
  mkRSC 0 [mkRouteSegment (sec 10) (sec 10) STARTING_ROUTE_NAME "A";
           mkRouteSegment (sec 10) (sec 20) "Line 1" "B"].

Definition ride_to_C : RouteSegmentCollection :=
  mkRSC 0 [mkRouteSegment (sec 10) (sec 10) STARTING_ROUTE_NAME "A";
           mkRouteSegment (sec 10) (sec 30) "Line 1" "C"].

Definition other_ride_to_B : RouteSegmentCollection :=
  mkRSC 0 [mkRouteSegment (sec 10) (sec 10) STARTING_ROUTE_NAME "A";
           mkRouteSegment (sec 12) (sec 20) "Line 2" "B"].

(** Zero or more iterations of the loop. *)
Inductive steps (cfg : Config) (gtfs : GTFS) : State -> State -> Prop :=
| steps_refl s : steps cfg gtfs s s
| steps_next s s' s'' :
    steps cfg gtfs s s' -> queue s' <> [] -> loop_body cfg gtfs s' = Ok s'' ->
    steps cfg gtfs s s''.

(** A state in which B is known to be reachable at 20 s. *)
Definition tie_state : State :=
  mkState ∅ ∅ {["B" := sec 20]} [] [].

(** The same, with a path through another stop waiting in the frontier. *)
Definition later_state : State :=
  mkState ∅ ∅ {["B" := sec 20]} [ride_to_C] [].

(** The state a run ends in, the empty state when it raises. *)
Definition state_of (r : result State) : State :=
  match r with
  | Ok s => s
  | Raise _ => mkState ∅ ∅ ∅ [] []
  end.

Definition linear_final : State := state_of (run linear_config linear_feed 10).

Definition short_final : State := state_of (run short_config linear_feed 10).

(** The arrival recorded for a finalized stop is within the horizon. *)
Definition within_horizon (cfg : Config) (s : State) : Prop :=
  forall stop p,
    visited_stops s !! stop = Some p ->
    exists seg, last (trips p) = Some seg /\ arrival_stop_id seg = stop /\
                arrival_td seg <= end_timedelta cfg.

(** Every boarding recorded names a trip of its own, marked as visited. *)
Definition boarded_once (s : State) : Prop :=
  NoDup (boardings s) /\ forall trip, In trip (boardings s) -> trip ∈ visited_trips s.

(** The state of the linear run after its first iteration. *)
Definition linear_mid : State := state_of (run linear_config linear_feed 1).

(** A row departs no earlier than [lower] and arrives no later than
    [upper]. *)
Definition in_window (lower upper : timedelta) (r : TimetableRow) : Prop :=
  exists d a, departure_time r = Some d /\ arrival_time r = Some a /\
              lower <= d /\ a <= upper.

(** The scheduled departures from [stop] on the day searched, within the
    window. *)
Definition scheduled_departure (gtfs : GTFS) (stop : StopId)
    (lower upper : timedelta) (r : TimetableRow) : Prop :=
  In r (merged_trips_and_stoptimes gtfs) /\ stop_id r = stop /\
  trip_active gtfs (trip_id r) = true /\ in_window lower upper r.

(** [a] departs no later than [b], both departure times being known. *)
Definition departs_no_later (a b : TimetableRow) : Prop :=
  exists da db, departure_time a = Some da /\ departure_time b = Some db /\ da <= db.

(** Three trips calling at A and then B: T1 and T2 of route R1, leaving A at
    30 s and 20 s, and T3 of route R2, leaving A at 25 s. *)
Definition busy_feed : GTFS :=
  mkGTFS
    [mkTripRow "T1" "R1" "Line 1"; mkTripRow "T2" "R1" "Line 1";
     mkTripRow "T3" "R2" "Line 2"]
    [mkStopTimeRow "T1" "A" 1 (Some (sec 30)) (Some (sec 30));
     mkStopTimeRow "T1" "B" 2 (Some (sec 40)) (Some (sec 40));
     mkStopTimeRow "T2" "A" 1 (Some (sec 20)) (Some (sec 20));
     mkStopTimeRow "T2" "B" 2 (Some (sec 28)) (Some (sec 28));
     mkStopTimeRow "T3" "A" 1 (Some (sec 25)) (Some (sec 25));
     mkStopTimeRow "T3" "B" 2 (Some (sec 31)) (Some (sec 31))]
    true
    (fun _ => true)
    {["T1" := 3; "T2" := 3; "T3" := 3]}
    ["A"; "B"]
    (line_distance (fun s => if String.eqb s "A" then 0 else 100000))
    (fun _ _ _ => true).

(** Start at A at 10 s, horizon at 60 s. *)
Definition busy_config : Config :=
  mkConfig 0 (sec 10) (sec 50) "A" (1 # 1) [3].

(** The walking successor of [rc] towards [target], from [stop] at [td]. *)
Definition walk_successor (cfg : Config) (gtfs : GTFS) (rc : RouteSegmentCollection)
    (td : timedelta) (stop target : StopId) : RouteSegmentCollection :=
  let d := distance gtfs stop target in
  mkRSC (day rc)
    (trips rc ++
       [mkRouteSegment td
          (td + float_mul_second (float_div d (walking_speed cfg)))
          (walk_label d) target])%list.

(** [target] lies within the distance walked at the configured speed in the
    time left from [td] to the horizon, the time being counted in seconds. *)
Definition in_reach (cfg : Config) (gtfs : GTFS) (td : timedelta)
    (stop target : StopId) : Prop :=
  (distance gtfs stop target <=
   WALKING_SPEED cfg * (inject_Z (end_timedelta cfg - td) / inject_Z MICROSECONDS))%Q.

(** The state in which the start of the walking run is expanded. *)
Definition empty_state : State := mkState ∅ ∅ ∅ [] [].

(** The start stop of the shipped configuration and a stop D 50 m from it;
    the only trip has called at both before the search starts. *)
Definition akard_feed : GTFS :=
  mkGTFS
    [mkTripRow "T1" "R1" "Line 1"]
    [mkStopTimeRow "T1" "22750" 1 (Some (sec 5)) (Some (sec 5));
     mkStopTimeRow "T1" "D" 2 (Some (sec 6)) (Some (sec 6))]
    true
    (fun _ => true)
    {["T1" := 0]}
    ["22750"; "D"]
    (line_distance (fun s => if String.eqb s "22750" then 0 else 50))
    (fun _ _ _ => true).

Definition start_at_akard : RouteSegmentCollection :=
  mkRSC 739236 [mkRouteSegment (sec 32400) (sec 32400) STARTING_ROUTE_NAME "22750"].

(** ** More of [RouteSegmentCollection] *)

Definition WAIT_ROUTE_NAME : string := "Wait at stop".

(** [itertools.pairwise] *)
Fixpoint pairwise {A} (l : list A) : list (A * A) :=
  match l with
  | a :: (b :: _) as tl => (a, b) :: pairwise tl
  | _ => []
  end.

(** The body of the loop of [populate_waiting]: what one pair appends to
    [segments]. *)
Definition waiting_step (segments : list RouteSegment) (pair : RouteSegment * RouteSegment)
  : list RouteSegment :=
  let (a, b) := pair in
  let segments :=
    if negb (arrival_td a =? departure_td b)
    then (segments ++ [mkRouteSegment (arrival_td a) (departure_td b) WAIT_ROUTE_NAME
                         (arrival_stop_id a)])%list
    else segments in
  (segments ++ [b])%list.

Definition populate_waiting (self : RouteSegmentCollection)
  : result RouteSegmentCollection :=
  first ← getitem (trips self) 0%nat;
  Ok (mkRSC (day self) (fold_left waiting_step (pairwise (trips self)) [first])).

(** [__len__] *)
Definition __len__ (self : RouteSegmentCollection) : nat := length (trips self).

(** Every segment departs exactly when its predecessor arrives. *)
Fixpoint contiguous (l : list RouteSegment) : bool :=
  match l with
  | a :: (b :: _) as tl => (arrival_td a =? departure_td b) && contiguous tl
  | _ => true
  end.

Definition is_wait (seg : RouteSegment) : bool :=
  match route_name seg with
  | Str s => String.eqb s WAIT_ROUTE_NAME
  | NaN => false
  end.

(** ** Times of day and their display *)

Module Timeish.

(** A [datetime.time] without time zone. *)
Record time : Set := mkTime {
  hour : Z;
  minute : Z;
  second : Z;
  microsecond : Z
}.


(** [Timeish = time | timedelta] *)
Inductive t : Set :=
| OfTime (x : time)
| OfTimedelta (d : timedelta).

(** [timedelta_coerce] on a [Timeish]: a [timedelta] is returned as it is,
    a time of day becomes the time elapsed since midnight. *)
Definition timedelta_coerce (x : t) : timedelta :=
  match x with
  | OfTimedelta d => d
  | OfTime x =>
      ((hour x * 3600 + minute x * 60 + second x) * MICROSECONDS + microsecond x)
  end.

End Timeish.

(** [f'{n:02d}'] *)
Definition format_02d (n : Z) : string :=
  let digits := str_of_Z n in
  if (String.length digits <? 2)%nat then "0" ++ digits else digits.

Definition timeish_hms_colon_str (x : Timeish.t) : string :=
  let td_sec := seconds (Timeish.timedelta_coerce x) in
  let h := td_sec / 3600 in
  let m := (td_sec mod 3600) / 60 in
  let s := td_sec mod 60 in
  format_02d h ++ ":" ++ format_02d m ++ ":" ++ format_02d s.

Definition timeish_minsec_str (x : Timeish.t) : string :=
  let td_sec := seconds (Timeish.timedelta_coerce x) in
  let m := td_sec / 60 in
  let s := td_sec mod 60 in
  str_of_Z m ++ "m" ++ format_02d s ++ "s".

(** One day, in microseconds. *)
Definition DAY : timedelta := 86400 * MICROSECONDS.

(** The segments of a path with the waits filled in, by recursion on the
    segments: what [populate_waiting] builds with its loop. *)
Fixpoint with_waits (l : list RouteSegment) : list RouteSegment :=
  match l with
  | a :: (b :: _) as tl =>
      if arrival_td a =? departure_td b then a :: with_waits tl
      else a :: mkRouteSegment (arrival_td a) (departure_td b) WAIT_ROUTE_NAME
                  (arrival_stop_id a) :: with_waits tl
  | _ => l
  end.

(** A path that waits 5 s at B before riding on to C. *)
Definition ride_with_gap : RouteSegmentCollection :=
  mkRSC 0 [mkRouteSegment (sec 10) (sec 10) STARTING_ROUTE_NAME "A";
           mkRouteSegment (sec 10) (sec 20) "Line 1" "B";
           mkRouteSegment (sec 25) (sec 30) "Line 2" "C"].

(** [x] is not after [y] in the order of paths: [y < x] is false. *)
Definition not_after (x y : RouteSegmentCollection) : Prop :=
  key_lt (spec_key y) (spec_key x) = false.

(** The invariant of [heapq]: no item is before its parent, the children
    of position [i] being at [2 * i + 1] and [2 * i + 2]. *)
Definition is_heap (heap : list RouteSegmentCollection) : Prop :=
  forall i j x y,
    (j = 2 * i + 1 \/ j = 2 * i + 2)%nat ->
    heap !! i = Some x -> heap !! j = Some y -> not_after x y.

(** The successor built by riding: [rc] extended by a segment that leaves at
    [d] and reaches the stop of [future] at [arrival], under the headsign of
    [row]. *)
Definition ride_successor (rc : RouteSegmentCollection) (row : TimetableRow)
    (future : StopTimeRow) (d arrival : timedelta) : RouteSegmentCollection :=
  mkRSC (day rc)
    (trips rc ++ [mkRouteSegment d arrival (trip_headsign row) (st_stop_id future)])%list.

(** The path the search starts from. *)
Definition start_path (cfg : Config) : RouteSegmentCollection :=
  mkRSC (START_DAY cfg)
    [mkRouteSegment (START_TIME_OF_DAY cfg) (START_TIME_OF_DAY cfg)
       STARTING_ROUTE_NAME (START_STOP cfg)].

(** The path begins with the start segment of the configured search and
    carries its day. *)
Definition starts_at_origin (cfg : Config) (p : RouteSegmentCollection) : Prop :=
  day p = START_DAY cfg /\
  exists rest,
    trips p =
      mkRouteSegment (START_TIME_OF_DAY cfg) (START_TIME_OF_DAY cfg)
        STARTING_ROUTE_NAME (START_STOP cfg) :: rest.

(** No stop time of the feed has a negative departure. *)
Definition departures_nonnegative (gtfs : GTFS) : Prop :=
  forall st d, In st (feed_stop_times gtfs) -> st_departure_time st = Some d -> 0 <= d.

(** A property holds of every path the search holds: those of the frontier
    and those recorded for a stop. *)
Definition all_paths (G : RouteSegmentCollection -> Prop) (s : State) : Prop :=
  (forall p, In p (queue s) -> G p) /\
  (forall stop p, visited_stops s !! stop = Some p -> G p).

(** The path is the start path or arrives within the horizon. *)
Definition arrives_by_horizon (cfg : Config) (p : RouteSegmentCollection) : Prop :=
  p = start_path cfg \/
  exists seg, last (trips p) = Some seg /\ arrival_td seg <= end_timedelta cfg.

(** The stop ids a path of the search can end at: the start stop, the stops
    of the stop times and the stops of the stop table. *)
Definition universe (cfg : Config) (gtfs : GTFS) : list StopId :=
  START_STOP cfg :: (map st_stop_id (feed_stop_times gtfs) ++ stops gtfs)%list.

Definition ends_in_universe (cfg : Config) (gtfs : GTFS) (p : RouteSegmentCollection)
  : Prop :=
  exists seg, last (trips p) = Some seg /\ In (arrival_stop_id seg) (universe cfg gtfs).

(** The stop times of the trips not boarded yet. *)
Definition unboarded_rows (gtfs : GTFS) (boarded : gset TripId) : nat :=
  length (List.filter (fun st => negb (bool_decide (st_trip_id st ∈ boarded)))
            (feed_stop_times gtfs)).

(** The stop ids not finalized yet. *)
Definition unreached (cfg : Config) (gtfs : GTFS)
    (finalized : gmap StopId RouteSegmentCollection) : nat :=
  length (List.filter (fun stop => negb (bool_decide (is_Some (finalized !! stop))))
            (universe cfg gtfs)).

(** What is left to do in a state: the paths to pop, the stop times that a
    boarding can still turn into paths, and a walk to every stop of the table
    for each stop still to finalize.  Every iteration lowers it. *)
Definition potential (cfg : Config) (gtfs : GTFS) (s : State) : nat :=
  length (queue s) + unboarded_rows gtfs (visited_trips s) +
  length (stops gtfs) * unreached cfg gtfs (visited_stops s).

(** A number of iterations no search exceeds. *)
Definition search_bound (cfg : Config) (gtfs : GTFS) : nat :=
  1 + length (feed_stop_times gtfs) +
  length (stops gtfs) * length (universe cfg gtfs).

(** The bound known for a stop is no later than the arrival of any queued
    path to it, the start path apart (it is queued without a record). *)
Definition added_stops_bound_queue (cfg : Config) (s : State) : Prop :=
  forall p seg,
    In p (queue s) -> last (trips p) = Some seg ->
    p = start_path cfg \/
    exists known,
      added_stops s !! arrival_stop_id seg = Some known /\ known <= arrival_td seg.

(** ** Feeds the search runs on *)

(** The name reads as a walk. *)
Definition reads_as_walk (name : label) : bool :=
  match name with
  | Str s => String.prefix "Walk " s
  | NaN => false
  end.

(** The segment is, by its name, a walk. *)
Definition is_walk (seg : RouteSegment) : bool :=
  reads_as_walk (route_name seg).

(** No segment named as a walk directly follows another one. *)
Fixpoint no_double_walk (l : list RouteSegment) : bool :=
  match l with
  | a :: (b :: _) as tl => negb (is_walk a && is_walk b) && no_double_walk tl
  | _ => true
  end.

(** No trip of the feed has a headsign that reads as a walk. *)
Definition headsigns_not_walks (gtfs : GTFS) : bool :=
  forallb (fun t => negb (reads_as_walk (t_trip_headsign t))) (feed_trips gtfs).

(** Some stop time of a trip of the trip table calls at [stop]. *)
Definition served (gtfs : GTFS) (stop : StopId) : bool :=
  existsb (fun row => String.eqb (stop_id row) stop) (merged_trips_and_stoptimes gtfs).

(** What the search reads without checking that it is there: the date is in
    the feed; every stop a path can end at is served and is in the stop table;
    every trip has a route type and a headsign; every stop time has an arrival
    time.  The walking speed is moreover small enough for its product with a
    number of seconds to be a float, overflow not being modelled. *)
Definition well_formed (cfg : Config) (gtfs : GTFS) : bool :=
  Qle_bool (walking_speed cfg) (2 ^ 1000)
  && dates_in_feed gtfs
  && forallb (fun stop => served gtfs stop && existsb (String.eqb stop) (stops gtfs))
       (universe cfg gtfs)
  && forallb (fun t => bool_decide (is_Some (trip_route_types gtfs !! t_trip_id t)))
       (feed_trips gtfs)
  && forallb (fun t => match t_trip_headsign t with Str _ => true | NaN => false end)
       (feed_trips gtfs)
  && forallb (fun st => bool_decide (is_Some (st_arrival_time st))) (feed_stop_times gtfs).

(** The linear feed searched from a stop Z that no trip calls at. *)
Definition stranded_config : Config :=
  mkConfig 0 (sec 10) (sec 25) "Z" (1 # 1) [3].

Definition walking_final : State := state_of (run walking_config walking_feed 13).

(** The trip is one of the trip table with a stop time, is active on the
    date searched, and its route type is one of the allowed ones. *)
Definition may_board (cfg : Config) (gtfs : GTFS) (trip : TripId) : Prop :=
  (exists row, In row (merged_trips_and_stoptimes gtfs) /\ trip_id row = trip) /\
  trip_active gtfs trip = true /\
  exists mode, trip_route_types gtfs !! trip = Some mode /\
               In mode (ALLOWED_TRAVEL_MODES cfg).

(** The shipped constants with the start at midnight and no time to spend:
    the horizon is the zero offset. *)
Definition midnight_config : Config :=
  mkConfig 739236 0 0 "22750" (106 # 100) [0; 1; 2; 3; 4; 5; 6; 7; 11; 12].

(** The radius of the buffer that the walking expansion builds at a path
    arriving at [td]: the speed times the seconds of the time left. *)
Definition buffer_radius (cfg : Config) (td : timedelta) : Q :=
  float_mul (walking_speed cfg) (inject_Z (seconds (end_timedelta cfg - td))).

(** [target] lies in that buffer around [stop]. *)
Definition in_buffer (cfg : Config) (gtfs : GTFS) (td : timedelta)
    (stop target : StopId) : Prop :=
  (0 < buffer_radius cfg td)%Q /\
  (distance gtfs stop target <= buffer_radius cfg td)%Q /\
  in_polygon gtfs stop (buffer_radius cfg td) target = true.

(** The last segment of the path has a name. *)
Definition ends_named (p : RouteSegmentCollection) : Prop :=
  exists seg name, last (trips p) = Some seg /\ route_name seg = Str name.

(** * Properties of the path representation *)

Lemma last_app_one {A} (l : list A) (x : A) : last (l ++ [x]) = Some x.
Proof. apply last_snoc. Qed.

Lemma time_monotonic_app (l : list RouteSegment) (x : RouteSegment) :
  time_monotonic (l ++ [x]) =
  time_monotonic l &&
  match last l with
  | Some seg => arrival_td seg <=? departure_td x
  | None => true
  end.
Proof.
  induction l as [|a l IH]; [reflexivity|].
  destruct l as [|b l].
  - simpl. rewrite andb_true_r. reflexivity.
  - change (time_monotonic ((a :: b :: l) ++ [x]))
      with ((arrival_td a <=? departure_td b) && time_monotonic ((b :: l) ++ [x])).
    rewrite IH.
    change (time_monotonic (a :: b :: l))
      with ((arrival_td a <=? departure_td b) && time_monotonic (b :: l)).
    change (last (a :: b :: l)) with (last (b :: l)).
    rewrite andb_assoc. reflexivity.
Qed.

Lemma get_last_trip_last (p : RouteSegmentCollection) :
  get_last_trip p = Ok (last (trips p)).
Proof.
  unfold get_last_trip, index_last. destruct (trips p) as [|a l] eqn:E; [reflexivity|].
  simpl length. simpl Nat.eqb. cbv iota.
  destruct (last (a :: l)) eqn:El; [reflexivity|].
  apply last_None in El. discriminate.
Qed.

Lemma nonempty_last (p : RouteSegmentCollection) :
  nonempty p -> exists seg, last (trips p) = Some seg.
Proof.
  unfold nonempty. intros H. destruct (last (trips p)) eqn:E; [eauto|].
  apply last_None in E. contradiction.
Qed.

Lemma get_cmp_key_nonempty (p : RouteSegmentCollection) :
  nonempty p -> __get_cmp_key p = Ok (spec_key p).
Proof.
  intros H. destruct (nonempty_last p H) as [seg Hseg].
  unfold __get_cmp_key, spec_key. rewrite get_last_trip_last, Hseg.
  unfold nonempty in H. destruct (trips p); [contradiction|]. reflexivity.
Qed.

Lemma lt_nonempty (p q : RouteSegmentCollection) :
  nonempty p -> nonempty q -> __lt__ p q = Ok (key_lt (spec_key p) (spec_key q)).
Proof.
  intros Hp Hq. unfold __lt__. rewrite !get_cmp_key_nonempty by assumption. reflexivity.
Qed.

Lemma key_lt_spec (k1 k2 : cmp_key) : key_lt k1 k2 = true <-> lex_lt k1 k2.
Proof.
  unfold key_lt, lex_lt. destruct (Z.eqb_spec (fst k1) (fst k2)) as [E|E].
  - rewrite Nat.ltb_lt. split; [intros; right; split; assumption|].
    intros [H|[_ H]]; [lia|assumption].
  - rewrite Z.ltb_lt. split; [intros; left; assumption|].
    intros [H|[H _]]; [assumption|contradiction].
Qed.

(** C1, as the code has it: [append] has no check.  It returns, for every
    receiver (the empty one too) and every segment, the path made of the
    receiver's segments followed by the new one; the result is time-monotonic
    exactly when the receiver is and the new segment departs no earlier than
    the receiver's last arrival. *)
Theorem append_always_returns (p : RouteSegmentCollection)
    (departure arrival : timedelta) (name : label) (stop : StopId) :
  let seg := mkRouteSegment departure arrival name stop in
  append p departure arrival name stop = Ok (mkRSC (day p) (trips p ++ [seg])) /\
  time_monotonic (trips p ++ [seg]) =
    time_monotonic (trips p) &&
    match last (trips p) with
    | Some prev => arrival_td prev <=? departure
    | None => true
    end.
Proof.
  split; [reflexivity|]. apply time_monotonic_app.
Qed.

(** C1 fails on the code: appending to the path that arrived at A at 10 s a
    segment that departs at 5 s does not fail; it returns a path that is not
    time-monotonic. *)
Lemma append_accepts_earlier_departure :
  sec 5 < sec 10 /\
  get_last_trip start_at_A
    = Ok (Some (mkRouteSegment (sec 10) (sec 10) STARTING_ROUTE_NAME "A")) /\
  ~ raises (append start_at_A (sec 5) (sec 20) "Line 1" "B") /\
  exists p, append start_at_A (sec 5) (sec 20) "Line 1" "B" = Ok p /\
            time_monotonic (trips p) = false.
Proof.
  split; [reflexivity|]. split; [reflexivity|]. split.
  - intros [e He]. discriminate He.
  - eexists. split; reflexivity.
Qed.

(** C9, as the code has it: [get_last_trip] never raises.  On a path
    without segments it returns [None]; on a path with segments it returns
    the last one, which after an [append_] is the segment appended. *)
Theorem get_last_trip_returns (p : RouteSegmentCollection) (seg : RouteSegment) :
  get_last_trip (mkRSC (day p) []) = Ok None /\
  get_last_trip p = Ok (last (trips p)) /\
  (forall p', append_ p seg = Ok p' -> get_last_trip p' = Ok (Some seg)).
Proof.
  split; [reflexivity|]. split; [apply get_last_trip_last|].
  intros p' H. injection H as <-. rewrite get_last_trip_last. simpl.
  rewrite last_app_one. reflexivity.
Qed.

(** C9 fails on the code: on the path without segments [get_last_trip]
    does not fail, it returns [None]. *)
Lemma get_last_trip_empty_returns_None :
  trips (mkRSC 0 []) = [] /\
  get_last_trip (mkRSC 0 []) = Ok None /\
  ~ raises (get_last_trip (mkRSC 0 [])).
Proof.
  split; [reflexivity|]. split; [reflexivity|]. intros [e He]. discriminate He.
Qed.

(** C5, as the code has it: on paths with segments [__lt__] is the
    ascending lexicographic order on (arrival offset of the last segment,
    number of segments), and [__gt__] its converse.  It is irreflexive and
    transitive, and two paths are unordered exactly when their keys are
    equal: a strict weak order, total on keys, not on paths. *)
Theorem lt_is_lexicographic_on_keys (p q r : RouteSegmentCollection) :
  nonempty p -> nonempty q -> nonempty r ->
  (exists b, __lt__ p q = Ok b /\ (b = true <-> lex_lt (spec_key p) (spec_key q))) /\
  __gt__ p q = __lt__ q p /\
  __lt__ p p = Ok false /\
  (__lt__ p q = Ok true -> __lt__ q r = Ok true -> __lt__ p r = Ok true) /\
  (__lt__ p q = Ok false /\ __lt__ q p = Ok false <-> spec_key p = spec_key q).
Proof.
  intros Hp Hq Hr.
  rewrite !lt_nonempty by assumption.
  split; [eexists; split; [reflexivity|apply key_lt_spec]|].
  split.
  { unfold __gt__, __lt__. rewrite !get_cmp_key_nonempty by assumption. reflexivity. }
  split.
  { f_equal. apply not_true_is_false. rewrite key_lt_spec. unfold lex_lt. lia. }
  split.
  { intros H1 H2. injection H1 as H1. injection H2 as H2. f_equal.
    rewrite key_lt_spec in *. unfold lex_lt in *. lia. }
  split.
  - intros [H1 H2]. injection H1 as H1. injection H2 as H2.
    apply not_true_iff_false in H1, H2. rewrite key_lt_spec in H1, H2.
    unfold lex_lt in *. destruct (spec_key p), (spec_key q). simpl in *.
    f_equal; lia.
  - intros ->. split; f_equal; apply not_true_is_false; rewrite key_lt_spec;
      unfold lex_lt; lia.
Qed.

Lemma lt_is_lexicographic_on_keys_witness :
  (exists b, __lt__ ride_to_B ride_to_C = Ok b /\
     (b = true <-> lex_lt (spec_key ride_to_B) (spec_key ride_to_C))) /\
  __lt__ ride_to_B ride_to_C = Ok true.
Proof.
  split; [|reflexivity].
  apply (lt_is_lexicographic_on_keys ride_to_B ride_to_C start_at_A);
    unfold nonempty; simpl; discriminate.
Defined.

(** C5 fails on the code as a total order on paths: two different paths
    to B with the same arrival offset and the same number of segments are
    not ordered either way. *)
Lemma lt_not_total_on_paths :
  nonempty ride_to_B /\ nonempty other_ride_to_B /\
  ride_to_B <> other_ride_to_B /\ ~ __eq__ ride_to_B other_ride_to_B /\
  __lt__ ride_to_B other_ride_to_B = Ok false /\
  __lt__ other_ride_to_B ride_to_B = Ok false.
Proof.
  repeat split; try discriminate; try reflexivity.
Qed.

(** * Properties of the frontier *)

Lemma getitem_lookup {A} (l : list A) (i : nat) (x : A) :
  l !! i = Some x -> getitem l i = Ok x.
Proof. unfold getitem. intros ->. reflexivity. Qed.

Lemma getitem_lt {A} (l : list A) (i : nat) :
  (i < length l)%nat -> exists x, l !! i = Some x /\ getitem l i = Ok x.
Proof.
  intros H. destruct (lookup_lt_is_Some_2 l i H) as [x Hx].
  exists x. split; [assumption|]. apply getitem_lookup, Hx.
Qed.

Lemma setitem_lt {A} (l : list A) (i : nat) (x : A) :
  (i < length l)%nat -> setitem l i x = Ok (<[i := x]> l).
Proof.
  intros H. unfold setitem. apply Nat.ltb_lt in H. rewrite H. reflexivity.
Qed.

(** Moving the hole of a sift from [pos] to [pos'] keeps the items. *)
Lemma hole_move {A} (heap : list A) (pos pos' : nat) (x y : A) :
  pos <> pos' -> (pos < length heap)%nat -> heap !! pos' = Some y ->
  <[pos' := x]> (<[pos := y]> heap) ≡ₚ <[pos := x]> heap.
Proof.
  intros Hne Hlt Hy.
  rewrite <- (list_insert_insert_eq heap pos y x).
  apply Permutation_insert_swap.
  - apply list_lookup_insert_eq, Hlt.
  - rewrite list_lookup_insert_ne by assumption. exact Hy.
Qed.

Lemma parent_lt (pos : nat) : (0 < pos)%nat -> (Nat.shiftr (pos - 1) 1 < pos)%nat.
Proof.
  intros H. rewrite Nat.shiftr_div_pow2. change (2 ^ 1)%nat with 2%nat.
  assert ((pos - 1) / 2 <= pos - 1)%nat by (apply Nat.Div0.div_le_upper_bound; lia).
  lia.
Qed.

(** Reduction of a bind on a returned value. *)
Ltac ok_step := cbn [mbind result_bind mret result_ret].
Ltac ok_step_in H := cbn [mbind result_bind mret result_ret] in H.

Lemma siftdown_loop_permutation (fuel : nat) :
  forall (heap : list RouteSegmentCollection) (startpos pos : nat)
         (newitem : RouteSegmentCollection),
    (pos < length heap)%nat -> Forall nonempty heap -> nonempty newitem ->
    exists heap', _siftdown_loop fuel heap startpos pos newitem = Ok heap' /\
                  heap' ≡ₚ <[pos := newitem]> heap.
Proof.
  induction fuel as [|fuel IH]; intros heap startpos pos newitem Hpos Hall Hnew;
    cbn [_siftdown_loop].
  - rewrite setitem_lt by assumption. eauto.
  - destruct (Nat.ltb_spec startpos pos) as [Hlt|Hge];
      [|rewrite setitem_lt by assumption; eauto].
    assert (Hpar : (Nat.shiftr (pos - 1) 1 < pos)%nat) by (apply parent_lt; lia).
    destruct (getitem_lt heap (Nat.shiftr (pos - 1) 1)) as (parent & Hlook & ->); [lia|].
    ok_step. rewrite lt_nonempty; [|assumption|eapply Forall_lookup_1; eassumption].
    ok_step. destruct (key_lt _ _); [|rewrite setitem_lt by assumption; eauto].
    rewrite setitem_lt by assumption. ok_step.
    destruct (IH (<[pos := parent]> heap) startpos (Nat.shiftr (pos - 1) 1) newitem)
      as (heap' & -> & Hperm).
    + rewrite length_insert. lia.
    + apply Forall_insert; [assumption|]. eapply Forall_lookup_1; eassumption.
    + assumption.
    + exists heap'. split; [reflexivity|]. rewrite Hperm.
      apply hole_move; [lia|assumption|assumption].
Qed.

Lemma siftdown_permutation (heap : list RouteSegmentCollection) (startpos pos : nat) :
  (pos < length heap)%nat -> Forall nonempty heap ->
  exists heap', _siftdown heap startpos pos = Ok heap' /\ heap' ≡ₚ heap.
Proof.
  intros Hpos Hall. unfold _siftdown.
  destruct (getitem_lt heap pos Hpos) as (newitem & Hlook & ->). ok_step.
  destruct (siftdown_loop_permutation pos heap startpos pos newitem)
    as (heap' & -> & Hperm); [assumption|assumption| |].
  - eapply Forall_lookup_1; eassumption.
  - exists heap'. split; [reflexivity|]. rewrite Hperm, list_insert_id by assumption.
    reflexivity.
Qed.

Lemma siftup_loop_permutation (fuel : nat) :
  forall (heap : list RouteSegmentCollection) (endpos pos childpos : nat)
         (newitem : RouteSegmentCollection),
    length heap = endpos -> (pos < endpos)%nat -> (pos < childpos)%nat ->
    Forall nonempty heap -> nonempty newitem ->
    exists heap' pos',
      _siftup_loop fuel heap endpos pos childpos = Ok (heap', pos') /\
      (pos' < endpos)%nat /\ length heap' = endpos /\
      <[pos' := newitem]> heap' ≡ₚ <[pos := newitem]> heap.
Proof.
  induction fuel as [|fuel IH];
    intros heap endpos pos childpos newitem Hlen Hpos Hchild Hall Hnew;
    cbn [_siftup_loop].
  - exists heap, pos. auto.
  - destruct (Nat.ltb_spec childpos endpos) as [Hlt|Hge]; [|exists heap, pos; auto].
    assert (Hsel : exists childpos',
      (if (childpos + 1 <? endpos)%nat
       then c ← getitem heap childpos; r ← getitem heap (childpos + 1)%nat;
            b ← __lt__ c r; Ok (if negb b then (childpos + 1)%nat else childpos)
       else Ok childpos) = Ok childpos' /\
      (pos < childpos')%nat /\ (childpos' < endpos)%nat).
    { destruct (Nat.ltb_spec (childpos + 1) endpos) as [Hr|Hr];
        [|exists childpos; auto].
      destruct (getitem_lt heap childpos) as (c & Hc & ->); [lia|].
      destruct (getitem_lt heap (childpos + 1)%nat) as (r & Hr' & ->); [lia|].
      ok_step. rewrite lt_nonempty by (eapply Forall_lookup_1; eassumption). ok_step.
      destruct (key_lt _ _); cbn [negb]; eexists; (split; [reflexivity|lia]). }
    destruct Hsel as (childpos' & -> & Hc1 & Hc2). ok_step.
    destruct (getitem_lt heap childpos') as (child & Hlook & ->); [lia|]. ok_step.
    rewrite setitem_lt by lia. ok_step.
    destruct (IH (<[pos := child]> heap) endpos childpos' (2 * childpos' + 1)%nat newitem)
      as (heap' & pos' & Heq & Hp' & Hlen' & Hperm).
    + rewrite length_insert. assumption.
    + assumption.
    + lia.
    + apply Forall_insert; [assumption|]. eapply Forall_lookup_1; eassumption.
    + assumption.
    + exists heap', pos'. split; [exact Heq|]. split; [assumption|].
      split; [assumption|]. rewrite Hperm.
      apply hole_move; [lia|lia|assumption].
Qed.

Lemma siftup_permutation (heap : list RouteSegmentCollection) (pos : nat) :
  (pos < length heap)%nat -> Forall nonempty heap ->
  exists heap', _siftup heap pos = Ok heap' /\ heap' ≡ₚ heap.
Proof.
  intros Hpos Hall. unfold _siftup.
  destruct (getitem_lt heap pos Hpos) as (newitem & Hlook & ->). ok_step.
  assert (Hnew : nonempty newitem) by (eapply Forall_lookup_1; eassumption).
  destruct (siftup_loop_permutation (length heap) heap (length heap) pos
              (2 * pos + 1)%nat newitem)
    as (heap' & pos' & -> & Hp' & Hlen' & Hperm); [reflexivity|assumption|lia|assumption|assumption|].
  ok_step. rewrite setitem_lt by lia. ok_step.
  assert (Hperm' : <[pos' := newitem]> heap' ≡ₚ heap).
  { rewrite Hperm, list_insert_id by assumption. reflexivity. }
  destruct (siftdown_permutation (<[pos' := newitem]> heap') pos pos')
    as (heap'' & -> & Hperm'').
  - rewrite length_insert. lia.
  - rewrite Hperm'. assumption.
  - exists heap''. split; [reflexivity|]. rewrite Hperm''. exact Hperm'.
Qed.

(** [heappush] on a frontier of paths with segments returns, and the
    frontier it returns holds the item pushed and the items it held. *)
Lemma heappush_permutation (heap : list RouteSegmentCollection)
    (item : RouteSegmentCollection) :
  Forall nonempty heap -> nonempty item ->
  exists heap', heappush heap item = Ok heap' /\ heap' ≡ₚ item :: heap.
Proof.
  intros Hall Hitem. unfold heappush.
  destruct (siftdown_permutation (heap ++ [item]) 0 (length (heap ++ [item]) - 1))
    as (heap' & -> & Hperm).
  - rewrite length_app. simpl. lia.
  - apply Forall_app. split; [assumption|]. constructor; [assumption|constructor].
  - exists heap'. split; [reflexivity|]. rewrite Hperm.
    symmetry. apply Permutation_cons_append.
Qed.

(** [heappop] on a non-empty frontier of paths with segments returns one
    of its items and a frontier of the others. *)
Lemma heappop_permutation (heap : list RouteSegmentCollection) :
  heap <> [] -> Forall nonempty heap ->
  exists item rest, heappop heap = Ok (item, rest) /\ item :: rest ≡ₚ heap.
Proof.
  intros Hne Hall. unfold heappop, index_last.
  destruct (exists_last Hne) as (l & lastelt & ->).
  rewrite last_snoc, removelast_last. simpl.
  destruct l as [|first l]; simpl.
  - exists lastelt, []. split; reflexivity.
  - apply Forall_app in Hall as [Hall Hlast].
    destruct (siftup_permutation (lastelt :: l) 0) as (heap' & Heq & Hperm).
    + simpl. lia.
    + constructor; [apply (Forall_inv Hlast)|apply (Forall_inv_tail Hall)].
    + change (setitem (first :: l) 0 lastelt) with (Ok (lastelt :: l)). simpl.
      rewrite Heq. simpl. exists first, heap'. split; [reflexivity|].
      rewrite Hperm, <- (Permutation_cons_append (first :: l) lastelt).
      apply perm_swap.
Qed.

(** * Properties of the push rule *)

Lemma push_to_queue_unfold (s : State) (rc : RouteSegmentCollection) (seg : RouteSegment) :
  last (trips rc) = Some seg ->
  push_to_queue s rc =
  match added_stops s !! arrival_stop_id seg with
  | Some known =>
      if known <? arrival_td seg then Ok s
      else
        q ← heappush (queue s) rc;
        Ok (mkState (visited_stops s) (visited_trips s)
              (<[arrival_stop_id seg := arrival_td seg]> (added_stops s)) q (trace s))
  | None =>
      q ← heappush (queue s) rc;
      Ok (mkState (visited_stops s) (visited_trips s)
            (<[arrival_stop_id seg := arrival_td seg]> (added_stops s)) q (trace s))
  end.
Proof.
  intros H. unfold push_to_queue. rewrite get_last_trip_last, H. reflexivity.
Qed.

(** What a call of [push_to_queue] that returns has done. *)
Lemma push_to_queue_inv (s s' : State) (rc : RouteSegmentCollection) :
  push_to_queue s rc = Ok s' ->
  exists seg, last (trips rc) = Some seg /\
    ((s' = s /\ exists known,
        added_stops s !! arrival_stop_id seg = Some known /\ known < arrival_td seg) \/
     (exists q, heappush (queue s) rc = Ok q /\
        s' = mkState (visited_stops s) (visited_trips s)
               (<[arrival_stop_id seg := arrival_td seg]> (added_stops s)) q (trace s) /\
        forall known, added_stops s !! arrival_stop_id seg = Some known ->
                      arrival_td seg <= known)).
Proof.
  intros H. destruct (last (trips rc)) as [seg|] eqn:Hlast.
  - exists seg. split; [reflexivity|].
    rewrite (push_to_queue_unfold s rc seg Hlast) in H.
    destruct (added_stops s !! arrival_stop_id seg) as [known|] eqn:Hk.
    + destruct (Z.ltb_spec known (arrival_td seg)) as [Hlt|Hge].
      * left. injection H as <-. eauto.
      * right. destruct (heappush (queue s) rc) as [q|e]; [|discriminate H].
        injection H as <-. exists q. split; [reflexivity|]. split; [reflexivity|].
        intros known' [= <-]. assumption.
    + right. destruct (heappush (queue s) rc) as [q|e]; [|discriminate H].
      injection H as <-. exists q. split; [reflexivity|]. split; [reflexivity|].
      intros known' [=].
  - unfold push_to_queue in H. rewrite get_last_trip_last, Hlast in H. discriminate H.
Qed.

(** C2, as the code has it: a successor is discarded when the stop has a
    recorded arrival strictly earlier than the successor's; otherwise (no
    record, or a record equal or later) its arrival is recorded for the stop
    and the path is inserted into the frontier. *)
Theorem push_rule (s : State) (rc : RouteSegmentCollection) (seg : RouteSegment) :
  last (trips rc) = Some seg ->
  Forall nonempty (queue s) ->
  (forall known,
     added_stops s !! arrival_stop_id seg = Some known -> known < arrival_td seg ->
     push_to_queue s rc = Ok s) /\
  ((forall known,
      added_stops s !! arrival_stop_id seg = Some known -> arrival_td seg <= known) ->
   exists s',
     push_to_queue s rc = Ok s' /\
     added_stops s' = <[arrival_stop_id seg := arrival_td seg]> (added_stops s) /\
     queue s' ≡ₚ rc :: queue s /\
     visited_stops s' = visited_stops s /\
     visited_trips s' = visited_trips s /\
     trace s' = trace s).
Proof.
  intros Hlast Hq. rewrite (push_to_queue_unfold s rc seg Hlast). split.
  - intros known -> Hlt. apply Z.ltb_lt in Hlt. rewrite Hlt. reflexivity.
  - intros Hle.
    assert (Hrc : nonempty rc).
    { unfold nonempty. intros E. rewrite E in Hlast. discriminate Hlast. }
    destruct (heappush_permutation (queue s) rc Hq Hrc) as (q & Hpush & Hperm).
    rewrite Hpush. ok_step.
    destruct (added_stops s !! arrival_stop_id seg) as [known|] eqn:Hk.
    + specialize (Hle known eq_refl).
      destruct (Z.ltb_spec known (arrival_td seg)); [lia|].
      eexists. split; [reflexivity|]. simpl. auto.
    + eexists. split; [reflexivity|]. simpl. auto.
Qed.

Lemma push_rule_witness :
  exists s',
    push_to_queue later_state ride_to_B = Ok s' /\
    added_stops s' = <[ "B" := sec 20 ]> (added_stops later_state) /\
    queue s' ≡ₚ ride_to_B :: queue later_state /\
    visited_stops s' = visited_stops later_state /\
    visited_trips s' = visited_trips later_state /\
    trace s' = trace later_state.
Proof.
  apply (push_rule later_state ride_to_B (mkRouteSegment (sec 10) (sec 20) "Line 1" "B")).
  - reflexivity.
  - repeat constructor; discriminate.
  - intros known H. vm_compute in H. injection H as <-. vm_compute. discriminate.
Defined.

(** C2 fails on the code at equality: B has the recorded arrival 20 s, a
    path that reaches B at 20 s is offered, and it is inserted into the
    frontier instead of being discarded. *)
Lemma push_keeps_equal_arrival :
  last (trips ride_to_B) = Some (mkRouteSegment (sec 10) (sec 20) "Line 1" "B") /\
  added_stops tie_state !! "B" = Some (sec 20) /\
  sec 20 <= sec 20 /\
  queue tie_state = [] /\
  exists s', push_to_queue tie_state ride_to_B = Ok s' /\ queue s' = [ride_to_B].
Proof.
  split; [reflexivity|]. split; [reflexivity|]. split; [reflexivity|].
  split; [reflexivity|]. eexists. split; reflexivity.
Qed.

(** C10: a call of [push_to_queue] never raises the arrival recorded for a
    stop.  The record of every stop is either left as it was, which is the
    case whenever the successor arrives strictly later, or overwritten with
    the successor's arrival, which is then no later than the record. *)
Theorem added_stops_never_increases (s s' : State) (rc : RouteSegmentCollection)
    (stop : StopId) (known : timedelta) :
  push_to_queue s rc = Ok s' ->
  added_stops s !! stop = Some known ->
  exists known',
    added_stops s' !! stop = Some known' /\
    known' <= known /\
    (known' = known \/
     exists seg, last (trips rc) = Some seg /\ arrival_stop_id seg = stop /\
                 arrival_td seg = known') /\
    (forall seg, last (trips rc) = Some seg -> arrival_stop_id seg = stop ->
                 known < arrival_td seg -> known' = known).
Proof.
  intros Hpush Hknown.
  destruct (push_to_queue_inv s s' rc Hpush) as (seg & Hlast & [[-> _]|(q & _ & -> & Hle)]).
  - exists known. split; [assumption|]. split; [lia|]. split; [left; reflexivity|].
    reflexivity.
  - simpl. destruct (decide (arrival_stop_id seg = stop)) as [<-|Hne].
    + exists (arrival_td seg). rewrite lookup_insert_eq. split; [reflexivity|].
      specialize (Hle known Hknown). split; [assumption|].
      split; [right; eauto|]. intros seg' Hseg' _ Hlt.
      rewrite Hlast in Hseg'. injection Hseg' as <-. lia.
    + exists known. rewrite lookup_insert_ne by assumption.
      split; [assumption|]. split; [lia|]. split; [left; reflexivity|]. reflexivity.
Qed.

Lemma added_stops_never_increases_witness :
  exists known',
    added_stops
      (mkState ∅ ∅ (<[ "B" := sec 20 ]> (added_stops tie_state)) [ride_to_B] [])
      !! "B" = Some known' /\
    known' <= sec 20 /\
    (known' = sec 20 \/
     exists seg, last (trips ride_to_B) = Some seg /\ arrival_stop_id seg = "B" /\
                 arrival_td seg = known') /\
    (forall seg, last (trips ride_to_B) = Some seg -> arrival_stop_id seg = "B" ->
                 sec 20 < arrival_td seg -> known' = sec 20).
Proof.
  apply (added_stops_never_increases tie_state _ ride_to_B "B" (sec 20));
    reflexivity.
Defined.

(** * Invariants of the search loop *)

(** A property of the state that every statement of the loop body keeps is
    kept by the loops of an iteration, by the iteration, and holds in every
    state of the search. *)
Section Preservation.

Context (cfg : Config) (gtfs : GTFS).
Variable P : State -> Prop.

Hypothesis P_push : forall s rc s', P s -> push_to_queue s rc = Ok s' -> P s'.
Hypothesis P_rode : forall s trip succ, P s -> P (log (Rode trip succ) s).
Hypothesis P_walked : forall s succ, P s -> P (log (Walked succ) s).
Hypothesis P_board : forall s trip rc,
  P s -> trip ∉ visited_trips s ->
  P (log (Boarded trip rc)
       (mkState (visited_stops s) ({[trip]} ∪ visited_trips s) (added_stops s)
          (queue s) (trace s))).
Hypothesis P_pop : forall s item rest,
  P s -> heappop (queue s) = Ok (item, rest) -> P (set_queue s rest).
Hypothesis P_finalize : forall s rc seg,
  P s -> last (trips rc) = Some seg ->
  visited_stops s !! arrival_stop_id seg = None ->
  arrival_td seg <= end_timedelta cfg ->
  P (mkState (<[arrival_stop_id seg := rc]> (visited_stops s)) (visited_trips s)
       (added_stops s) (queue s) (trace s)).

Lemma ride_trip_preserves (rc : RouteSegmentCollection) (trip : TripId)
    (departure : timedelta) (name : label) (future_stops : list StopTimeRow) :
  forall s s', P s -> ride_trip cfg s rc trip departure name future_stops = Ok s' -> P s'.
Proof.
  induction future_stops as [|row rest IH]; intros s s' Hs H; cbn [ride_trip] in H.
  - injection H as <-. assumption.
  - destruct (timedelta_coerce (st_arrival_time row)) as [arrival|e]; [|discriminate H].
    ok_step_in H. destruct (end_timedelta cfg <? arrival); [eauto|].
    unfold append, append_ in H. ok_step_in H.
    destruct (push_to_queue _ _) as [s1|e] eqn:Hpush; [|discriminate H].
    ok_step_in H. eapply IH; [|exact H]. eapply P_push; [|exact Hpush].
    apply P_rode, Hs.
Qed.

Lemma board_routes_preserves (rc : RouteSegmentCollection) (rows : list TimetableRow) :
  forall s s', P s -> board_routes cfg gtfs s rc rows = Ok s' -> P s'.
Proof.
  induction rows as [|row rest IH]; intros s s' Hs H; cbn [board_routes] in H.
  - injection H as <-. assumption.
  - destruct (timedelta_coerce (departure_time row)) as [departure|e]; [|discriminate H].
    ok_step_in H.
    destruct (trip_route_types gtfs !! trip_id row) as [mode|]; [|discriminate H].
    destruct (negb _); [eauto|].
    destruct (bool_decide (trip_id row ∈ visited_trips s)) eqn:Hin; [eauto|].
    apply bool_decide_eq_false in Hin.
    destruct (get_future_stops_on_trip gtfs _ _) as [future|e]; [|discriminate H].
    ok_step_in H.
    destruct (ride_trip _ _ _ _ _ _ _) as [s2|e] eqn:Hride; [|discriminate H].
    ok_step_in H. eapply IH; [|exact H].
    eapply ride_trip_preserves; [|exact Hride]. apply P_board; assumption.
Qed.

Lemma walk_to_preserves (rc : RouteSegmentCollection) (td : timedelta) (stop : StopId)
    (targets : list StopId) :
  forall s s', P s -> walk_to cfg gtfs s rc td stop targets = Ok s' -> P s'.
Proof.
  induction targets as [|row rest IH]; intros s s' Hs H; cbn [walk_to] in H.
  - injection H as <-. assumption.
  - unfold append, append_ in H. ok_step_in H.
    destruct (push_to_queue _ _) as [s1|e] eqn:Hpush; [|discriminate H].
    ok_step_in H. eapply IH; [|exact H]. eapply P_push; [|exact Hpush].
    apply P_walked, Hs.
Qed.

Lemma walking_expansion_preserves (rc : RouteSegmentCollection) (td : timedelta)
    (stop : StopId) (s s' : State) :
  P s -> walking_expansion cfg gtfs s rc td stop = Ok s' -> P s'.
Proof.
  intros Hs H. unfold walking_expansion in H. rewrite get_last_trip_last in H.
  ok_step_in H. destruct (attr route_name _) as [name|e]; [|discriminate H].
  ok_step_in H. destruct (startswith _ _) as [walked|e]; [|discriminate H].
  ok_step_in H. destruct walked; [injection H as <-; assumption|].
  destruct (Qle_bool _ _); [injection H as <-; assumption|].
  destruct (get_stop gtfs stop); [|discriminate H]. ok_step_in H.
  eapply walk_to_preserves; eassumption.
Qed.

Lemma loop_body_preserves (s s' : State) :
  P s -> loop_body cfg gtfs s = Ok s' -> P s'.
Proof.
  intros Hs H. unfold loop_body in H.
  destruct (heappop (queue s)) as [[rc rest]|e] eqn:Hpop; [|discriminate H].
  ok_step_in H. rewrite get_last_trip_last in H. ok_step_in H.
  destruct (last (trips rc)) as [seg|] eqn:Hlast; [|discriminate H].
  unfold attr in H. ok_step_in H.
  assert (Hs0 : P (set_queue s rest)) by (eapply P_pop; eassumption).
  destruct (bool_decide _) eqn:Hvis; [injection H as <-; assumption|].
  apply bool_decide_eq_false in Hvis.
  destruct (Z.ltb_spec (end_timedelta cfg) (arrival_td seg)) as [Hlate|Hin];
    [injection H as <-; assumption|].
  destruct (first_available_routes cfg gtfs _ _) as [routes|e]; [|discriminate H].
  ok_step_in H.
  destruct (board_routes _ _ _ _ _) as [s2|e] eqn:Hboard; [|discriminate H].
  ok_step_in H.
  eapply walking_expansion_preserves; [|exact H].
  eapply board_routes_preserves; [|exact Hboard].
  apply P_finalize; [assumption|assumption| |assumption].
  apply eq_None_not_Some. exact Hvis.
Qed.

Lemma steps_preserve (s s' : State) : P s -> steps cfg gtfs s s' -> P s'.
Proof.
  intros Hs H. induction H as [|s s' s'' _ IH _ Hbody]; [assumption|].
  eapply loop_body_preserves; [apply IH, Hs|exact Hbody].
Qed.

Hypothesis P_initial : forall s, initial_state cfg = Ok s -> P s.

Lemma reachable_preserves (s : State) : reachable cfg gtfs s -> P s.
Proof.
  induction 1 as [s H|s s' _ IH _ Hbody]; [apply P_initial, H|].
  eapply loop_body_preserves; eassumption.
Qed.

End Preservation.

Lemma push_keeps_fields (s s' : State) (rc : RouteSegmentCollection) :
  push_to_queue s rc = Ok s' ->
  visited_stops s' = visited_stops s /\ visited_trips s' = visited_trips s /\
  trace s' = trace s.
Proof.
  intros H. destruct (push_to_queue_inv s s' rc H) as (seg & _ & [[-> _]|(q & _ & -> & _)]);
    auto.
Qed.

Lemma push_keeps_nonempty (s s' : State) (rc : RouteSegmentCollection) :
  Forall nonempty (queue s) -> push_to_queue s rc = Ok s' -> Forall nonempty (queue s').
Proof.
  intros Hq H.
  destruct (push_to_queue_inv s s' rc H) as (seg & Hlast & [[-> _]|(q & Hpush & -> & _)]);
    [assumption|].
  assert (Hrc : nonempty rc).
  { unfold nonempty. intros E. rewrite E in Hlast. discriminate Hlast. }
  destruct (heappush_permutation (queue s) rc Hq Hrc) as (q' & Hpush' & Hperm).
  rewrite Hpush in Hpush'. injection Hpush' as <-. simpl.
  rewrite Hperm. constructor; assumption.
Qed.

Lemma search_loop_reachable (cfg : Config) (gtfs : GTFS) (fuel : nat) :
  forall s s', reachable cfg gtfs s -> search_loop cfg gtfs fuel s = Ok s' ->
               reachable cfg gtfs s'.
Proof.
  induction fuel as [|fuel IH]; intros s s' Hs H; cbn [search_loop] in H.
  - injection H as <-. assumption.
  - destruct (Nat.ltb_spec 0 (length (queue s))) as [Hlen|Hlen];
      [|injection H as <-; assumption].
    destruct (loop_body cfg gtfs s) as [s1|e] eqn:Hbody; [|discriminate H].
    ok_step_in H. apply (IH s1); [|exact H].
    apply (reachable_step cfg gtfs s s1); [assumption| |assumption].
    intros E. rewrite E in Hlen. simpl in Hlen. lia.
Qed.

Lemma search_loop_steps (cfg : Config) (gtfs : GTFS) (fuel : nat) :
  forall s0 s s', steps cfg gtfs s0 s -> search_loop cfg gtfs fuel s = Ok s' ->
                  steps cfg gtfs s0 s'.
Proof.
  induction fuel as [|fuel IH]; intros s0 s s' Hs H; cbn [search_loop] in H.
  - injection H as <-. assumption.
  - destruct (Nat.ltb_spec 0 (length (queue s))) as [Hlen|Hlen];
      [|injection H as <-; assumption].
    destruct (loop_body cfg gtfs s) as [s1|e] eqn:Hbody; [|discriminate H].
    ok_step_in H. apply (IH s0 s1); [|exact H].
    apply (steps_next cfg gtfs s0 s s1); [assumption| |assumption].
    intros E. rewrite E in Hlen. simpl in Hlen. lia.
Qed.

Lemma run_reachable (cfg : Config) (gtfs : GTFS) (fuel : nat) (s : State) :
  run cfg gtfs fuel = Ok s -> reachable cfg gtfs s.
Proof.
  unfold run. intros H. destruct (initial_state cfg) as [s0|e] eqn:Hinit; [|discriminate H].
  ok_step_in H. eapply search_loop_reachable; [|exact H].
  apply reachable_initial, Hinit.
Qed.

Lemma initial_state_inv (cfg : Config) (s : State) :
  initial_state cfg = Ok s ->
  visited_stops s = ∅ /\ visited_trips s = ∅ /\ added_stops s = ∅ /\ trace s = [] /\
  queue s = [mkRSC (START_DAY cfg)
               [mkRouteSegment (START_TIME_OF_DAY cfg) (START_TIME_OF_DAY cfg)
                  STARTING_ROUTE_NAME (START_STOP cfg)]].
Proof.
  unfold initial_state. cbn. intros [= <-]. simpl. auto.
Qed.

(** The frontier only ever holds paths with segments, so the comparisons of
    the heap operations never raise. *)
Lemma reachable_queue_nonempty (cfg : Config) (gtfs : GTFS) (s : State) :
  reachable cfg gtfs s -> Forall nonempty (queue s).
Proof.
  apply (reachable_preserves cfg gtfs (fun s => Forall nonempty (queue s))).
  - intros s0 rc s' Hq H. eapply push_keeps_nonempty; eassumption.
  - intros s0 trip succ H. exact H.
  - intros s0 succ H. exact H.
  - intros s0 trip rc H _. exact H.
  - intros s0 item rest Hq Hpop. simpl.
    destruct (queue s0) as [|x q] eqn:E; [discriminate Hpop|].
    destruct (heappop_permutation (x :: q)) as (item' & rest' & Hpop' & Hperm);
      [discriminate|assumption|].
    rewrite Hpop in Hpop'. injection Hpop' as <- <-.
    rewrite <- Hperm in Hq. apply (Forall_inv_tail Hq).
  - intros s0 rc seg H _ _ _. exact H.
  - intros s0 H. destruct (initial_state_inv cfg s0 H) as (_ & _ & _ & _ & ->).
    repeat constructor. discriminate.
Qed.

(** In a state of the search with a non-empty frontier the pop returns. *)
Lemma reachable_pop_returns (cfg : Config) (gtfs : GTFS) (s : State) :
  reachable cfg gtfs s -> queue s <> [] ->
  exists rc rest seg,
    heappop (queue s) = Ok (rc, rest) /\ rc :: rest ≡ₚ queue s /\
    last (trips rc) = Some seg.
Proof.
  intros Hs Hne. pose proof (reachable_queue_nonempty cfg gtfs s Hs) as Hq.
  destruct (heappop_permutation (queue s) Hne Hq) as (rc & rest & Hpop & Hperm).
  assert (Hrc : nonempty rc).
  { rewrite <- Hperm in Hq. apply (Forall_inv Hq). }
  destruct (nonempty_last rc Hrc) as [seg Hseg]. eauto 10.
Qed.

(** What an iteration does with a popped path that it does not finalize. *)
Lemma loop_body_discards (cfg : Config) (gtfs : GTFS) (s : State)
    (rc : RouteSegmentCollection) (rest : list RouteSegmentCollection)
    (seg : RouteSegment) :
  heappop (queue s) = Ok (rc, rest) -> last (trips rc) = Some seg ->
  is_Some (visited_stops s !! arrival_stop_id seg) \/
    end_timedelta cfg < arrival_td seg ->
  loop_body cfg gtfs s = Ok (set_queue s rest).
Proof.
  intros Hpop Hlast Hcase. unfold loop_body. rewrite Hpop. ok_step.
  rewrite get_last_trip_last, Hlast. unfold attr. ok_step.
  cbn [set_queue visited_stops].
  destruct (bool_decide _) eqn:Hvis; [reflexivity|].
  apply bool_decide_eq_false in Hvis.
  destruct Hcase as [Hcase|Hcase]; [contradiction|].
  apply Z.ltb_lt in Hcase. rewrite Hcase. reflexivity.
Qed.

Lemma steps_keep_finalized (cfg : Config) (gtfs : GTFS) (s s' : State) :
  steps cfg gtfs s s' ->
  forall stop p, visited_stops s !! stop = Some p -> visited_stops s' !! stop = Some p.
Proof.
  intros H.
  apply (steps_preserve cfg gtfs
           (fun s1 => forall stop p, visited_stops s !! stop = Some p ->
                                     visited_stops s1 !! stop = Some p)) with (s := s);
    [..|auto|exact H].
  - intros s0 rc s1 Hs0 Hpush stop p Hp.
    destruct (push_keeps_fields s0 s1 rc Hpush) as (-> & _). auto.
  - intros s0 trip succ Hs0. exact Hs0.
  - intros s0 succ Hs0. exact Hs0.
  - intros s0 trip rc Hs0 _. exact Hs0.
  - intros s0 item rest Hs0 _. exact Hs0.
  - intros s0 rc seg Hs0 _ Hnone _ stop p Hp. simpl.
    rewrite lookup_insert_ne; [auto|].
    intros E. rewrite E, (Hs0 stop p Hp) in Hnone. discriminate Hnone.
Qed.

(** C3: over any number of iterations an entry of [visited_stops] stays
    what it was when it was set ([visited_stops] is a dictionary, so a stop
    has at most one entry); and when the popped path ends at a stop that has
    an entry, the iteration does nothing but drop that path from the frontier:
    [visited_stops], [visited_trips], [added_stops] are unchanged and the
    frontier is what the pop left. *)
Theorem finalized_never_overwritten (cfg : Config) (gtfs : GTFS) (s s' : State) :
  steps cfg gtfs s s' ->
  (forall stop p, visited_stops s !! stop = Some p -> visited_stops s' !! stop = Some p) /\
  (forall rc rest seg,
     heappop (queue s') = Ok (rc, rest) -> last (trips rc) = Some seg ->
     is_Some (visited_stops s' !! arrival_stop_id seg) ->
     exists s'', loop_body cfg gtfs s' = Ok s'' /\
                 visited_stops s'' = visited_stops s' /\
                 visited_trips s'' = visited_trips s' /\
                 added_stops s'' = added_stops s' /\
                 trace s'' = trace s' /\
                 queue s'' = rest).
Proof.
  intros H. split; [apply (steps_keep_finalized cfg gtfs s s' H)|].
  intros rc rest seg Hpop Hlast Hvis. exists (set_queue s' rest).
  split; [|simpl; auto 10].
  eapply loop_body_discards; eauto.
Qed.

(** C4: in every state of the search, the final one included, the path
    recorded for a stop ends at that stop with an arrival offset within the
    horizon; and an iteration that pops a path arriving after the horizon only
    drops it from the frontier. *)
Theorem finalized_within_horizon (cfg : Config) (gtfs : GTFS) (s : State) :
  reachable cfg gtfs s ->
  within_horizon cfg s /\
  (forall rc rest seg,
     heappop (queue s) = Ok (rc, rest) -> last (trips rc) = Some seg ->
     end_timedelta cfg < arrival_td seg ->
     exists s', loop_body cfg gtfs s = Ok s' /\
                visited_stops s' = visited_stops s /\ queue s' = rest).
Proof.
  intros H. split.
  - revert s H. apply (reachable_preserves cfg gtfs (within_horizon cfg)).
    + intros s0 rc s1 Hs0 Hpush.
      destruct (push_keeps_fields s0 s1 rc Hpush) as (E & _).
      unfold within_horizon. rewrite E. exact Hs0.
    + intros s0 trip succ Hs0. exact Hs0.
    + intros s0 succ Hs0. exact Hs0.
    + intros s0 trip rc Hs0 _. exact Hs0.
    + intros s0 item rest Hs0 _. exact Hs0.
    + intros s0 rc seg Hs0 Hlast _ Hle stop p. simpl.
      destruct (decide (arrival_stop_id seg = stop)) as [<-|Hne].
      * rewrite lookup_insert_eq. intros [= <-]. eauto.
      * rewrite lookup_insert_ne by assumption. apply Hs0.
    + intros s0 Hinit stop p.
      destruct (initial_state_inv cfg s0 Hinit) as (-> & _).
      rewrite lookup_empty. discriminate.
  - intros rc rest seg Hpop Hlast Hlate. exists (set_queue s rest).
    split; [|simpl; auto]. eapply loop_body_discards; eauto.
Qed.

Lemma boardings_log (s : State) (e : event) :
  boardings (log e s) =
  (boardings s ++ match e with Boarded t _ => [t] | _ => [] end)%list.
Proof.
  unfold boardings, log. simpl. rewrite flat_map_app. simpl.
  rewrite app_nil_r. reflexivity.
Qed.

(** C8, as the code has it: a trip is boarded at most once over the whole
    search.  In every state of the search the boardings done so far name
    pairwise distinct trips, all of them in [visited_trips], so that no later
    iteration boards one of them again. *)
Theorem trip_boarded_at_most_once (cfg : Config) (gtfs : GTFS) (s : State) :
  reachable cfg gtfs s ->
  NoDup (boardings s) /\
  (forall trip, In trip (boardings s) -> trip ∈ visited_trips s).
Proof.
  revert s. apply (reachable_preserves cfg gtfs boarded_once).
  - intros s0 rc s1 Hs0 Hpush.
    destruct (push_keeps_fields s0 s1 rc Hpush) as (_ & E1 & E2).
    unfold boarded_once, boardings. rewrite E1, E2. exact Hs0.
  - intros s0 trip succ Hs0. unfold boarded_once.
    rewrite boardings_log, app_nil_r. exact Hs0.
  - intros s0 succ Hs0. unfold boarded_once.
    rewrite boardings_log, app_nil_r. exact Hs0.
  - intros s0 trip rc [Hnd Hin] Hfresh. unfold boarded_once.
    rewrite boardings_log. unfold boardings in *. cbn [trace]. split.
    + apply NoDup_app. split; [exact Hnd|]. split; [|apply NoDup_singleton].
      intros t Ht ->%list_elem_of_singleton. apply Hfresh, Hin, list_elem_of_In, Ht.
    + intros t [Ht|[<-|[]]]%in_app_or; simpl.
      * apply elem_of_union_r, Hin, Ht.
      * apply elem_of_union_l, elem_of_singleton. reflexivity.
  - intros s0 item rest Hs0 _. exact Hs0.
  - intros s0 rc seg Hs0 _ _ _. exact Hs0.
  - intros s0 Hinit. destruct (initial_state_inv cfg s0 Hinit) as (_ & _ & _ & Ht & _).
    unfold boarded_once, boardings. rewrite Ht. split; [constructor|intros t []].
Qed.

Lemma linear_final_reachable : reachable linear_config linear_feed linear_final.
Proof. apply (run_reachable linear_config linear_feed 10). vm_compute. reflexivity. Qed.

Lemma short_final_reachable : reachable short_config linear_feed short_final.
Proof. apply (run_reachable short_config linear_feed 10). vm_compute. reflexivity. Qed.

Lemma linear_mid_steps : steps linear_config linear_feed linear_mid linear_final.
Proof.
  apply (search_loop_steps linear_config linear_feed 9 linear_mid linear_mid);
    [apply steps_refl|]. vm_compute. reflexivity.
Qed.

Lemma finalized_never_overwritten_witness :
  steps linear_config linear_feed linear_mid linear_final /\
  visited_stops linear_mid !! "A" = Some start_at_A /\
  visited_stops linear_final !! "A" = Some start_at_A.
Proof.
  split; [exact linear_mid_steps|]. split; [vm_compute; reflexivity|].
  apply (finalized_never_overwritten linear_config linear_feed linear_mid linear_final
           linear_mid_steps).
  vm_compute. reflexivity.
Defined.

Lemma finalized_within_horizon_witness :
  reachable short_config linear_feed short_final /\
  terminated short_final /\
  within_horizon short_config short_final.
Proof.
  split; [exact short_final_reachable|]. split; [vm_compute; reflexivity|].
  apply (finalized_within_horizon short_config linear_feed short_final
           short_final_reachable).
Defined.

Lemma trip_boarded_at_most_once_witness :
  reachable linear_config linear_feed linear_final /\
  boardings linear_final = ["T1"] /\
  NoDup (boardings linear_final) /\
  (forall trip, In trip (boardings linear_final) -> trip ∈ visited_trips linear_final).
Proof.
  split; [exact linear_final_reachable|]. split; [vm_compute; reflexivity|].
  apply (trip_boarded_at_most_once linear_config linear_feed linear_final
           linear_final_reachable).
Defined.

(** C8 fails on the code in its last part: in the run on the line A, B, C
    the trip T1 is boarded once, at A, and that boarding is the last edge of
    two finalized paths, the one of B and the one of C. *)
Lemma one_boarding_in_two_finalized_paths :
  reachable linear_config linear_feed linear_final /\
  terminated linear_final /\
  boardings linear_final = ["T1"] /\
  visited_stops linear_final !! "B" = Some ride_to_B /\
  visited_stops linear_final !! "C" = Some ride_to_C /\
  rides linear_final "T1" ride_to_B /\
  rides linear_final "T1" ride_to_C /\
  ride_to_B <> ride_to_C.
Proof.
  split; [exact linear_final_reachable|].
  split; [vm_compute; reflexivity|]. split; [vm_compute; reflexivity|].
  split; [vm_compute; reflexivity|]. split; [vm_compute; reflexivity|].
  split; [vm_compute; right; left; reflexivity|].
  split; [vm_compute; right; right; left; reflexivity|].
  discriminate.
Qed.

(** * Properties of the transit expansion *)

Lemma departure_le_total (a b : TimetableRow) :
  departure_le a b = false -> departure_le b a = true.
Proof.
  unfold departure_le. destruct (departure_time a), (departure_time b);
    try discriminate; try reflexivity.
  intros H. apply Z.leb_gt in H. apply Z.leb_le. lia.
Qed.

Lemma departure_le_trans (a b c : TimetableRow) :
  departure_le a b = true -> departure_le b c = true -> departure_le a c = true.
Proof.
  unfold departure_le.
  destruct (departure_time a), (departure_time b), (departure_time c);
    try discriminate; try reflexivity.
  rewrite !Z.leb_le. lia.
Qed.

Lemma departure_le_refl (a : TimetableRow) : departure_le a a = true.
Proof.
  unfold departure_le. destruct (departure_time a); [apply Z.leb_refl|reflexivity].
Qed.

(** Sorted by departure: every row is [departure_le] all the rows after it. *)
Local Abbreviation sorted := (StronglySorted (fun a b => departure_le a b = true)).

Lemma insert_by_departure_In (x r : TimetableRow) (l : list TimetableRow) :
  In r (insert_by_departure x l) <-> r = x \/ In r l.
Proof.
  induction l as [|y l IH]; simpl.
  - intuition congruence.
  - destruct (departure_le x y); simpl; [intuition congruence|].
    rewrite IH. intuition congruence.
Qed.

Lemma insert_by_departure_sorted (x : TimetableRow) (l : list TimetableRow) :
  sorted l -> sorted (insert_by_departure x l).
Proof.
  induction 1 as [|y l Hl IH Hy]; simpl.
  - constructor; constructor.
  - destruct (departure_le x y) eqn:E.
    + constructor; [constructor; assumption|].
      constructor; [assumption|].
      eapply List.Forall_impl; [|exact Hy]. intros z Hz. simpl in Hz.
      eapply departure_le_trans; eassumption.
    + constructor; [assumption|].
      apply List.Forall_forall. intros z Hz. apply insert_by_departure_In in Hz.
      destruct Hz as [->|Hz]; [apply departure_le_total, E|].
      rewrite List.Forall_forall in Hy. apply Hy, Hz.
Qed.

Lemma sort_values_In (r : TimetableRow) (l : list TimetableRow) :
  In r (sort_values l) <-> In r l.
Proof.
  induction l as [|x l IH]; simpl; [tauto|].
  rewrite insert_by_departure_In, IH. intuition congruence.
Qed.

Lemma sort_values_sorted (l : list TimetableRow) : sorted (sort_values l).
Proof.
  induction l as [|x l IH]; simpl; [constructor|].
  apply insert_by_departure_sorted, IH.
Qed.

Lemma filter_sorted (f : TimetableRow -> bool) (l : list TimetableRow) :
  sorted l -> sorted (List.filter f l).
Proof.
  induction 1 as [|y l Hl IH Hy]; simpl; [constructor|].
  destruct (f y); [|assumption]. constructor; [assumption|].
  rewrite List.Forall_forall in *. intros z Hz. apply filter_In in Hz. apply Hy, Hz.
Qed.

Lemma existsb_eqb_In (x : string) (l : list string) :
  existsb (String.eqb x) l = true <-> In x l.
Proof.
  rewrite existsb_exists. split.
  - intros (y & Hy & E). apply String.eqb_eq in E. subst. assumption.
  - intros H. exists x. split; [assumption|apply String.eqb_refl].
Qed.

(** A row kept by [drop_duplicates_from] is the first of its route, and
    its route was not seen before. *)
Lemma drop_duplicates_from_first (c : TimetableRow) (df : list TimetableRow) :
  forall seen,
    In c (drop_duplicates_from seen df) ->
    ~ In (route_id c) seen /\
    exists l1 l2, df = (l1 ++ c :: l2)%list /\
                  forall r, In r l1 -> route_id r <> route_id c.
Proof.
  induction df as [|r df IH]; intros seen H; cbn [drop_duplicates_from] in H; [destruct H|].
  destruct (existsb (String.eqb (route_id r)) seen) eqn:E.
  - destruct (IH seen H) as (Hseen & l1 & l2 & -> & Hl1). split; [assumption|].
    exists (r :: l1), l2. split; [reflexivity|].
    intros r' [<-|Hr']; [|apply Hl1, Hr'].
    intros Heq. apply Hseen. rewrite <- Heq. apply existsb_eqb_In, E.
  - apply not_true_iff_false in E. rewrite existsb_eqb_In in E.
    destruct H as [<-|H].
    + split; [assumption|]. exists [], df. split; [reflexivity|]. intros r' [].
    + destruct (IH (route_id r :: seen) H) as (Hseen & l1 & l2 & -> & Hl1).
      split; [intros Hin; apply Hseen; right; assumption|].
      exists (r :: l1), l2. split; [reflexivity|].
      intros r' [<-|Hr']; [|apply Hl1, Hr'].
      intros Heq. apply Hseen. left. assumption.
Qed.

Lemma drop_duplicates_from_covers (df : list TimetableRow) :
  forall seen r,
    In r df -> ~ In (route_id r) seen ->
    exists c, In c (drop_duplicates_from seen df) /\ route_id c = route_id r.
Proof.
  induction df as [|x df IH]; intros seen r Hr Hseen; [destruct Hr|].
  cbn [drop_duplicates_from].
  destruct (existsb (String.eqb (route_id x)) seen) eqn:E.
  - destruct Hr as [->|Hr]; [apply existsb_eqb_In in E; contradiction|].
    apply IH; assumption.
  - destruct Hr as [->|Hr]; [exists r; split; [left|]; reflexivity|].
    destruct (String.eqb_spec (route_id x) (route_id r)) as [Heq|Hne].
    + exists x. split; [left; reflexivity|assumption].
    + destruct (IH (route_id x :: seen) r Hr) as (c & Hc & Hcr).
      * intros [Hin|Hin]; [contradiction|contradiction].
      * exists c. split; [right; assumption|assumption].
Qed.

Lemma drop_duplicates_from_NoDup (df : list TimetableRow) :
  forall seen, List.NoDup (map route_id (drop_duplicates_from seen df)).
Proof.
  induction df as [|x df IH]; intros seen; cbn [drop_duplicates_from]; [constructor|].
  destruct (existsb (String.eqb (route_id x)) seen); [apply IH|].
  simpl. constructor; [|apply IH].
  intros Hin. apply in_map_iff in Hin as (c & Hc & Hin).
  apply drop_duplicates_from_first in Hin as (Hseen & _).
  apply Hseen. left. symmetry. assumption.
Qed.

Lemma sorted_app_r (l1 l2 : list TimetableRow) : sorted (l1 ++ l2) -> sorted l2.
Proof.
  induction l1 as [|x l1 IH]; simpl; [trivial|].
  intros H. apply StronglySorted_inv in H as [H _]. apply IH, H.
Qed.

(** In a sorted frame, the row kept for a route departs no later than any
    row of that route. *)
Lemma drop_duplicates_earliest (df : list TimetableRow) (c r : TimetableRow) :
  sorted df -> In c (drop_duplicates df) -> In r df -> route_id r = route_id c ->
  departure_le c r = true.
Proof.
  intros Hs Hc Hr Heq.
  apply drop_duplicates_from_first in Hc as (_ & l1 & l2 & -> & Hl1).
  apply in_app_or in Hr as [Hr|[<-|Hr]].
  - exfalso. apply (Hl1 r Hr Heq).
  - apply departure_le_refl.
  - apply sorted_app_r in Hs. apply StronglySorted_inv in Hs as [_ Hs].
    rewrite List.Forall_forall in Hs. apply Hs, Hr.
Qed.

Lemma get_stop_timetable_spec (gtfs : GTFS) (stop : StopId) (tt : list TimetableRow) :
  get_stop_timetable gtfs stop = Ok tt ->
  sorted tt /\
  forall r, In r tt <->
            In r (merged_trips_and_stoptimes gtfs) /\ stop_id r = stop /\
            trip_active gtfs (trip_id r) = true.
Proof.
  unfold get_stop_timetable, build_stop_timetable, get_group. intros H.
  destruct (dates_in_feed gtfs); [|discriminate H]. cbn [negb] in H.
  remember (List.filter (fun r => String.eqb (stop_id r) stop)
              (merged_trips_and_stoptimes gtfs)) as g eqn:Hg.
  assert (Htt : tt = sort_values (List.filter (fun r => trip_active gtfs (trip_id r)) g)).
  { destruct g; [discriminate H|]. ok_step_in H. injection H as <-. reflexivity. }
  subst tt. split; [apply sort_values_sorted|].
  intros r. rewrite sort_values_In, filter_In, Hg, filter_In, String.eqb_eq. tauto.
Qed.

Lemma df_time_bound_spec (df : list TimetableRow) (lower upper : timedelta)
    (r : TimetableRow) :
  (lower <> 0 \/ forall r d, In r df -> departure_time r = Some d -> 0 <= d) ->
  upper <> 0 ->
  In r (df_time_bound df lower upper) <-> In r df /\ in_window lower upper r.
Proof.
  intros Hlower Hupper. unfold df_time_bound, in_window, truthy.
  rewrite filter_In.
  apply Z.eqb_neq in Hupper. rewrite Hupper. cbn [negb].
  split.
  - intros [Hin H]. split; [assumption|].
    destruct (departure_time r) as [d|] eqn:Hd; [|discriminate H].
    destruct (arrival_time r) as [a|]; [|discriminate H].
    apply andb_true_iff in H as [H1 H2]. apply Z.leb_le in H2.
    exists d, a. repeat split; try assumption.
    destruct (Z.eqb_spec lower 0) as [->|Hne]; cbn [negb] in H1.
    + destruct Hlower as [Hl|Hl]; [contradiction|]. eapply Hl; eassumption.
    + apply Z.leb_le, H1.
  - intros [Hin (d & a & -> & -> & Hd & Ha)]. split; [assumption|].
    apply andb_true_iff. split; [|apply Z.leb_le, Ha].
    destruct (negb (lower =? 0)); [apply Z.leb_le, Hd|reflexivity].
Qed.

Lemma df_time_bound_sorted (df : list TimetableRow) (lower upper : timedelta) :
  sorted df -> sorted (df_time_bound df lower upper).
Proof. apply filter_sorted. Qed.

(** The candidates of the transit expansion at (stop, td), away from the
    zero offset.  Among the
    scheduled departures from the stop with departure >= td and arrival <=
    horizon, the candidates hold exactly one row per route that has such a
    departure, and that row departs no later than any other such departure of
    its route; a route without a departure in the window has no candidate,
    every candidate being itself a departure in the window.  The lower bound
    is stated for a search that is not at offset zero or a feed without
    negative times, the upper bound for a horizon offset other than zero:
    [df_time_bound] tests the bounds for truth before it applies them. *)
Theorem first_available_routes_earliest_per_route (cfg : Config) (gtfs : GTFS)
    (stop : StopId) (td : timedelta) :
  returns (get_stop_timetable gtfs stop) ->
  (td <> 0 \/
   forall r d, In r (merged_trips_and_stoptimes gtfs) -> departure_time r = Some d ->
               0 <= d) ->
  end_timedelta cfg <> 0 ->
  exists routes,
    first_available_routes cfg gtfs stop td = Ok routes /\
    List.NoDup (map route_id routes) /\
    (forall c, In c routes ->
       scheduled_departure gtfs stop td (end_timedelta cfg) c /\
       forall r, scheduled_departure gtfs stop td (end_timedelta cfg) r ->
                 route_id r = route_id c -> departs_no_later c r) /\
    (forall r, scheduled_departure gtfs stop td (end_timedelta cfg) r ->
               exists c, In c routes /\ route_id c = route_id r).
Proof.
  intros [tt Htt] Hlower Hupper.
  destruct (get_stop_timetable_spec gtfs stop tt Htt) as [Hsorted Hrows].
  assert (Hbound : forall r,
    In r (df_time_bound tt td (end_timedelta cfg)) <->
    scheduled_departure gtfs stop td (end_timedelta cfg) r).
  { intros r. rewrite df_time_bound_spec; [|
      destruct Hlower as [H|H]; [left; exact H|right; intros r' d Hr';
        apply H; apply Hrows, Hr']|exact Hupper].
    unfold scheduled_departure. rewrite Hrows. tauto. }
  exists (drop_duplicates (df_time_bound tt td (end_timedelta cfg))).
  split.
  { unfold first_available_routes, trips_between_for_stop. rewrite Htt. reflexivity. }
  split; [apply drop_duplicates_from_NoDup|]. split.
  - intros c Hc.
    assert (Hcw : In c (df_time_bound tt td (end_timedelta cfg))).
    { apply drop_duplicates_from_first in Hc as (_ & l1 & l2 & -> & _).
      apply in_or_app. right. left. reflexivity. }
    split; [apply Hbound, Hcw|].
    intros r Hr Heq. apply Hbound in Hr.
    pose proof (drop_duplicates_earliest _ c r
                  (df_time_bound_sorted tt td (end_timedelta cfg) Hsorted) Hc Hr Heq)
      as Hle.
    apply Hbound in Hcw as (_ & _ & _ & dc & ac & Hdc & _).
    apply Hbound in Hr as (_ & _ & _ & dr & ar & Hdr & _).
    unfold departure_le in Hle. rewrite Hdc, Hdr in Hle. apply Z.leb_le in Hle.
    exists dc, dr. auto.
  - intros r Hr. apply Hbound in Hr.
    apply (drop_duplicates_from_covers _ [] r Hr). intros [].
Qed.

Lemma first_available_routes_earliest_per_route_witness :
  first_available_routes busy_config busy_feed "A" (sec 10)
    = Ok [mkTimetableRow "T2" "R1" "Line 1" "A" 1 (Some (sec 20)) (Some (sec 20));
          mkTimetableRow "T3" "R2" "Line 2" "A" 1 (Some (sec 25)) (Some (sec 25))] /\
  exists routes,
    first_available_routes busy_config busy_feed "A" (sec 10) = Ok routes /\
    List.NoDup (map route_id routes) /\
    (forall c, In c routes ->
       scheduled_departure busy_feed "A" (sec 10) (end_timedelta busy_config) c /\
       forall r, scheduled_departure busy_feed "A" (sec 10) (end_timedelta busy_config) r ->
                 route_id r = route_id c -> departs_no_later c r) /\
    (forall r, scheduled_departure busy_feed "A" (sec 10) (end_timedelta busy_config) r ->
               exists c, In c routes /\ route_id c = route_id r).
Proof.
  split; [vm_compute; reflexivity|].
  apply (first_available_routes_earliest_per_route busy_config busy_feed "A" (sec 10)).
  - eexists. vm_compute. reflexivity.
  - left. vm_compute. discriminate.
  - vm_compute. discriminate.
Defined.

(** C6 fails on the code when the horizon is the zero offset.
    [df_time_bound] tests its bounds with [if lower:] and [if upper:], and a
    zero [timedelta] is false, so a bound of zero is not applied.  Searching
    from midnight with no time to spend, the window is departure >= 0 and
    arrival <= 0 and no scheduled departure is in it; yet the trip that calls
    at the start stop at 5 s is a candidate, and the run boards it. *)
Lemma zero_horizon_is_not_applied :
  end_timedelta midnight_config = 0 /\
  truthy (end_timedelta midnight_config) = false /\
  (forall r, ~ scheduled_departure akard_feed "22750" 0 (end_timedelta midnight_config) r) /\
  first_available_routes midnight_config akard_feed "22750" 0
    = Ok [mkTimetableRow "T1" "R1" "Line 1" "22750" 1 (Some (sec 5)) (Some (sec 5))] /\
  (s ← run midnight_config akard_feed 10; Ok (elements (visited_trips s))) = Ok ["T1"].
Proof.
  split; [reflexivity|]. split; [reflexivity|]. split.
  - intros r (Hin & Hstop & _ & d & a & Hd & Ha & _ & Hle).
    simpl in Hin. destruct Hin as [<-|[<-|[]]].
    + injection Ha as <-. vm_compute in Hle. apply Hle. reflexivity.
    + discriminate Hstop.
  - split; vm_compute; reflexivity.
Qed.

(** * Properties of the walking expansion *)

Lemma push_to_queue_total (s : State) (rc : RouteSegmentCollection) (seg : RouteSegment) :
  last (trips rc) = Some seg -> Forall nonempty (queue s) ->
  exists s', push_to_queue s rc = Ok s' /\ trace s' = trace s /\
             Forall nonempty (queue s').
Proof.
  intros Hlast Hq.
  assert (Hrc : nonempty rc).
  { unfold nonempty. intros E. rewrite E in Hlast. discriminate Hlast. }
  destruct (heappush_permutation (queue s) rc Hq Hrc) as (q & Hpush & Hperm).
  assert (Hq' : Forall nonempty q) by (rewrite Hperm; constructor; assumption).
  rewrite (push_to_queue_unfold s rc seg Hlast), Hpush. ok_step.
  destruct (added_stops s !! arrival_stop_id seg) as [known|];
    [destruct (known <? arrival_td seg)|]; eexists; (split; [reflexivity|]); auto.
Qed.

Lemma walk_to_trace (cfg : Config) (gtfs : GTFS) (rc : RouteSegmentCollection)
    (td : timedelta) (stop : StopId) (targets : list StopId) :
  forall s, Forall nonempty (queue s) ->
  exists s',
    walk_to cfg gtfs s rc td stop targets = Ok s' /\
    trace s' =
      (trace s ++ map (fun row => Walked (walk_successor cfg gtfs rc td stop row)) targets)%list.
Proof.
  induction targets as [|row rest IH]; intros s Hq; cbn [walk_to map].
  - exists s. rewrite app_nil_r. auto.
  - unfold append, append_. ok_step.
    fold (walk_successor cfg gtfs rc td stop row).
    destruct (push_to_queue_total (log (Walked (walk_successor cfg gtfs rc td stop row)) s)
                (walk_successor cfg gtfs rc td stop row)
                (mkRouteSegment td
                   (td + float_mul_second
                           (float_div (distance gtfs stop row) (walking_speed cfg)))
                   (walk_label (distance gtfs stop row)) row))
      as (s1 & Hpush & Htrace & Hq1); [apply last_snoc|exact Hq|].
    rewrite Hpush. ok_step. destruct (IH s1 Hq1) as (s' & Hwalk & Htrace').
    exists s'. split; [exact Hwalk|]. rewrite Htrace', Htrace. cbn [log trace].
    rewrite <- app_assoc. reflexivity.
Qed.

Lemma prefix_append (a b : string) : String.prefix a (a ++ b) = true.
Proof.
  induction a as [|c a IH]; [destruct b; reflexivity|]. simpl.
  destruct (Ascii.ascii_dec c c); [exact IH|contradiction].
Qed.

(** X17: the walking expansion at a popped path ending at (stop, td).  It
    raises [AttributeError] when the last segment has no name (a trip without
    headsign), and it does nothing when the name starts with "Walk " or when
    the walking speed is not positive.  Otherwise it builds one successor for
    each stop of the table that lies in the buffer of the stop, and for no other
    stop; the radius of the buffer is the float product of the speed and the
    seconds of the time left, and the buffer is empty when the radius is zero.
    The successor appends to the path a segment that departs at td, arrives at
    td plus the walking time (the float quotient of the distance and the
    speed, to the microsecond), carries the walking label with the distance in
    metres, and ends at that stop; each successor is offered to the
    frontier. *)
Theorem walking_expansion_successors (cfg : Config) (gtfs : GTFS) (s : State)
    (rc : RouteSegmentCollection) (td : timedelta) (stop : StopId) (seg : RouteSegment) :
  last (trips rc) = Some seg ->
  (route_name seg = NaN ->
   walking_expansion cfg gtfs s rc td stop = Raise AttributeError) /\
  (reads_as_walk (route_name seg) = true \/
   (route_name seg <> NaN /\ (walking_speed cfg <= 0)%Q) ->
   walking_expansion cfg gtfs s rc td stop = Ok s) /\
  (route_name seg <> NaN -> reads_as_walk (route_name seg) = false ->
   (0 < walking_speed cfg)%Q ->
   In stop (stops gtfs) -> List.NoDup (stops gtfs) ->
   Forall nonempty (queue s) ->
   exists targets s',
     walking_expansion cfg gtfs s rc td stop = Ok s' /\
     trace s' =
       (trace s ++ map (fun t => Walked (walk_successor cfg gtfs rc td stop t)) targets)%list /\
     List.NoDup targets /\
     (forall target, In target targets <->
                     In target (stops gtfs) /\ in_buffer cfg gtfs td stop target) /\
     (forall target,
        let d := distance gtfs stop target in
        trips (walk_successor cfg gtfs rc td stop target) =
          (trips rc ++
             [mkRouteSegment td
                (td + float_mul_second (float_div d (walking_speed cfg)))
                (walk_label d) target])%list /\
        String.prefix "Walk " (walk_label d) = true)).
Proof.
  intros Hlast. unfold walking_expansion. rewrite get_last_trip_last, Hlast.
  unfold attr. ok_step. split; [intros ->; reflexivity|].
  destruct (route_name seg) as [name|]; cbn [startswith reads_as_walk]; ok_step.
  2:{ split; [intros [H|[H _]]; [discriminate H|destruct H; reflexivity]|].
      intros H. destruct H. reflexivity. }
  split.
  - intros [Hwalk|[_ Hspeed]]; [rewrite Hwalk; reflexivity|].
    destruct (String.prefix _ _); [reflexivity|].
    apply Qle_bool_iff in Hspeed. rewrite Hspeed. reflexivity.
  - intros _ Hwalk Hspeed Hstop Hnodup Hq.
    rewrite Hwalk.
    destruct (Qle_bool (walking_speed cfg) 0) eqn:E.
    { apply Qle_bool_iff in E. exfalso. apply (Qlt_not_le _ _ Hspeed E). }
    assert (Hget : get_stop gtfs stop = Ok stop).
    { unfold get_stop. replace (existsb (String.eqb stop) (stops gtfs)) with true;
        [reflexivity|]. symmetry. apply existsb_eqb_In, Hstop. }
    rewrite Hget. ok_step.
    fold (buffer_radius cfg td).
    set (targets := get_stops_in_area gtfs stop _).
    destruct (walk_to_trace cfg gtfs rc td stop targets s Hq) as (s' & Hwalk' & Htrace).
    exists targets, s'. split; [exact Hwalk'|]. split; [exact Htrace|].
    split; [apply List.NoDup_filter, Hnodup|]. split.
    + intros target. unfold targets, get_stops_in_area, in_buffer.
      rewrite filter_In, !andb_true_iff, negb_true_iff, Qle_bool_iff.
      assert (Hpos : Qle_bool (buffer_radius cfg td) 0 = false <->
                     (0 < buffer_radius cfg td)%Q).
      { split.
        - intros Hf. apply Qnot_le_lt. intros Hle. apply Qle_bool_iff in Hle. congruence.
        - intros Hlt. apply not_true_is_false. intros Hle. apply Qle_bool_iff in Hle.
          apply (Qlt_not_le _ _ Hlt Hle). }
      rewrite Hpos. tauto.
    + intros target. cbv zeta. split; [reflexivity|apply prefix_append].
Qed.

Lemma walking_expansion_successors_witness :
  (exists s',
     walking_expansion shipped_config akard_feed empty_state start_at_akard
       (sec 32400) "22750" = Ok s' /\
     trace s' =
       [Walked (mkRSC 739236
                  [mkRouteSegment (sec 32400) (sec 32400) STARTING_ROUTE_NAME "22750";
                   mkRouteSegment (sec 32400) (sec 32400) "Walk 0 meters" "22750"]);
        Walked (mkRSC 739236
                  [mkRouteSegment (sec 32400) (sec 32400) STARTING_ROUTE_NAME "22750";
                   mkRouteSegment (sec 32400) 32447169811 "Walk 50 meters" "D"])]) /\
  exists targets s',
    walking_expansion shipped_config akard_feed empty_state start_at_akard
      (sec 32400) "22750" = Ok s' /\
    trace s' =
      (trace empty_state ++
       map (fun t => Walked (walk_successor shipped_config akard_feed start_at_akard
                               (sec 32400) "22750" t)) targets)%list /\
    List.NoDup targets /\
    (forall target, In target targets <->
                    In target (stops akard_feed) /\
                    in_buffer shipped_config akard_feed (sec 32400) "22750" target) /\
    (forall target,
       let d := distance akard_feed "22750" target in
       trips (walk_successor shipped_config akard_feed start_at_akard (sec 32400)
                "22750" target) =
         (trips start_at_akard ++
            [mkRouteSegment (sec 32400)
               (sec 32400 + float_mul_second (float_div d (walking_speed shipped_config)))
               (walk_label d) target])%list /\
       String.prefix "Walk " (walk_label d) = true).
Proof.
  split.
  - eexists. split; vm_compute; reflexivity.
  - apply (walking_expansion_successors shipped_config akard_feed empty_state
             start_at_akard (sec 32400) "22750"
             (mkRouteSegment (sec 32400) (sec 32400) STARTING_ROUTE_NAME "22750")
             eq_refl).
    + discriminate.
    + reflexivity.
    + vm_compute. reflexivity.
    + left. reflexivity.
    + repeat constructor; simpl; intuition discriminate.
    + constructor.
Defined.

(** C7 fails on the code for a budget of a day or more:
    [remaining_time.seconds] is the
    seconds component of the time left, so the whole days of it are dropped
    from the walking radius.  With 25 hours left the radius is the distance
    walked in one hour, 3816 m: the stop E, 5 km away and well within the
    95.4 km walked in 25 hours, gets no successor, and the run ends without
    it. *)
Lemma walking_radius_drops_whole_days :
  end_timedelta long_config - sec 32400 = sec 90000 /\
  seconds (sec 90000) = 3600 /\
  startswith (route_name
     (mkRouteSegment (sec 32400) (sec 32400) STARTING_ROUTE_NAME "22750")) "Walk "
    = Ok false /\
  In "E" (stops far_feed) /\
  in_reach long_config far_feed (sec 32400) "22750" "E" /\
  (exists s',
     walking_expansion long_config far_feed empty_state start_at_akard
       (sec 32400) "22750" = Ok s' /\
     trace s' =
       [Walked (mkRSC 739236
                  [mkRouteSegment (sec 32400) (sec 32400) STARTING_ROUTE_NAME "22750";
                   mkRouteSegment (sec 32400) (sec 32400) "Walk 0 meters" "22750"])]) /\
  summary ["22750"; "E"] (run long_config far_feed 10)
    = Ok [("22750", Some (sec 32400, 1%nat)); ("E", None)].
Proof.
  split; [reflexivity|]. split; [reflexivity|]. split; [reflexivity|].
  split; [right; left; reflexivity|].
  split; [unfold in_reach; vm_compute; discriminate|].
  split; [eexists; split; vm_compute; reflexivity|].
  vm_compute. reflexivity.
Qed.

(** * The scenarios of the specification, run on the model *)

(** A line A, B, C served at 10 s, 20 s, 30 s and a horizon at 25 s: A and B
    are finalized, C is not. *)
Example scenario_linear_horizon :
  summary ["A"; "B"; "C"] (run short_config linear_feed 10)
    = Ok [("A", Some (sec 10, 1%nat)); ("B", Some (sec 20, 2%nat)); ("C", None)] /\
  terminated short_final.
Proof. split; vm_compute; reflexivity. Qed.

(** Two stops 50 m apart, walking at 1 m/s from 10 s: D is finalized at
    60 s by a walking segment of 50 meters. *)
Example scenario_walking_only :
  summary ["A"; "D"] (run walking_config walking_feed 10)
    = Ok [("A", Some (sec 10, 1%nat)); ("D", Some (sec 60, 2%nat))] /\
  (s ← run walking_config walking_feed 10;
   Ok (option_map (fun p => last (trips p)) (visited_stops s !! "D")))
    = Ok (Some (Some (mkRouteSegment (sec 10) (sec 60) "Walk 50 meters" "D"))).
Proof. split; vm_compute; reflexivity. Qed.

(** * Properties of the waiting segments *)

Lemma fold_waiting_step (pairs : list (RouteSegment * RouteSegment)) :
  forall acc,
    fold_left waiting_step pairs acc =
    (acc ++ flat_map (waiting_step []) pairs)%list.
Proof.
  induction pairs as [|[a b] pairs IH]; intros acc; simpl.
  - rewrite app_nil_r. reflexivity.
  - rewrite IH. unfold waiting_step.
    destruct (negb (arrival_td a =? departure_td b)); simpl;
      rewrite <- !app_assoc; reflexivity.
Qed.

Lemma with_waits_cons (a b : RouteSegment) (l : list RouteSegment) :
  with_waits (a :: b :: l) =
  if arrival_td a =? departure_td b then a :: with_waits (b :: l)
  else a :: mkRouteSegment (arrival_td a) (departure_td b) WAIT_ROUTE_NAME
              (arrival_stop_id a) :: with_waits (b :: l).
Proof. reflexivity. Qed.

Lemma with_waits_pairwise (a : RouteSegment) (l : list RouteSegment) :
  with_waits (a :: l) = a :: flat_map (waiting_step []) (pairwise (a :: l)).
Proof.
  revert a. induction l as [|b l IH]; intros a; [reflexivity|].
  rewrite with_waits_cons, IH.
  change (pairwise (a :: b :: l)) with ((a, b) :: pairwise (b :: l)).
  cbn [flat_map].
  destruct (arrival_td a =? departure_td b) eqn:E; unfold waiting_step; rewrite E;
    reflexivity.
Qed.

Lemma populate_waiting_with_waits (p : RouteSegmentCollection) :
  nonempty p -> populate_waiting p = Ok (mkRSC (day p) (with_waits (trips p))).
Proof.
  unfold nonempty, populate_waiting. destruct (trips p) as [|a l] eqn:E; [contradiction|].
  intros _. change (getitem (a :: l) 0) with (Ok a). ok_step.
  rewrite fold_waiting_step, with_waits_pairwise. reflexivity.
Qed.

Lemma contiguous_cons (a b : RouteSegment) (l : list RouteSegment) :
  contiguous (a :: b :: l) = (arrival_td a =? departure_td b) && contiguous (b :: l).
Proof. reflexivity. Qed.

Lemma with_waits_contiguous (l : list RouteSegment) : contiguous (with_waits l) = true.
Proof.
  induction l as [|a l IH]; [reflexivity|]. destruct l as [|b l]; [reflexivity|].
  change (with_waits (a :: b :: l))
    with (if arrival_td a =? departure_td b then a :: with_waits (b :: l)
          else a :: mkRouteSegment (arrival_td a) (departure_td b) WAIT_ROUTE_NAME
                      (arrival_stop_id a) :: with_waits (b :: l)).
  assert (Hhead : exists tl, with_waits (b :: l) = b :: tl).
  { destruct l as [|c l]; [exists []; reflexivity|]. cbn [with_waits].
    destruct (arrival_td b =? departure_td c); eauto. }
  destruct Hhead as [tl Htl]. rewrite Htl in *.
  destruct (Z.eqb_spec (arrival_td a) (departure_td b)) as [Heq|Hne].
  - rewrite contiguous_cons, IH, andb_true_r. apply Z.eqb_eq, Heq.
  - rewrite !contiguous_cons, IH. cbn [arrival_td departure_td].
    rewrite !Z.eqb_refl. reflexivity.
Qed.

Lemma with_waits_last (l : list RouteSegment) : last (with_waits l) = last l.
Proof.
  induction l as [|a l IH]; [reflexivity|]. destruct l as [|b l]; [reflexivity|].
  change (with_waits (a :: b :: l))
    with (if arrival_td a =? departure_td b then a :: with_waits (b :: l)
          else a :: mkRouteSegment (arrival_td a) (departure_td b) WAIT_ROUTE_NAME
                      (arrival_stop_id a) :: with_waits (b :: l)).
  assert (Hhead : exists tl, with_waits (b :: l) = b :: tl).
  { destruct l as [|c l]; [exists []; reflexivity|]. cbn [with_waits].
    destruct (arrival_td b =? departure_td c); eauto. }
  destruct Hhead as [tl Htl].
  destruct (arrival_td a =? departure_td b); rewrite Htl in *;
    change (last (a :: b :: l)) with (last (b :: l)); rewrite <- IH; reflexivity.
Qed.

Lemma with_waits_head (a : RouteSegment) (l : list RouteSegment) :
  head (with_waits (a :: l)) = Some a.
Proof.
  destruct l as [|b l]; [reflexivity|]. cbn [with_waits].
  destruct (arrival_td a =? departure_td b); reflexivity.
Qed.

Lemma with_waits_fixed (l : list RouteSegment) :
  contiguous l = true -> with_waits l = l.
Proof.
  induction l as [|a l IH]; [reflexivity|]. destruct l as [|b l]; [reflexivity|].
  rewrite contiguous_cons. intros [H1 H2]%andb_true_iff. rewrite with_waits_cons, H1.
  f_equal. apply IH, H2.
Qed.

Lemma with_waits_drop_waits (l : list RouteSegment) :
  Forall (fun seg => is_wait seg = false) l ->
  List.filter (fun seg => negb (is_wait seg)) (with_waits l) = l.
Proof.
  induction l as [|a l IH]; [reflexivity|]. intros H.
  pose proof (Forall_inv H) as Ha. pose proof (Forall_inv_tail H) as Hl.
  destruct l as [|b l]; [simpl; rewrite Ha; reflexivity|].
  rewrite with_waits_cons.
  destruct (arrival_td a =? departure_td b); cbn [List.filter]; rewrite Ha; cbn [negb];
    [|change (is_wait (mkRouteSegment _ _ WAIT_ROUTE_NAME _)) with true; cbn [negb]];
    f_equal; apply IH, Hl.
Qed.

Lemma with_waits_length (l : list RouteSegment) :
  (length l <= length (with_waits l) <= 2 * length l - 1)%nat.
Proof.
  induction l as [|a l IH]; [simpl; lia|]. destruct l as [|b l]; [simpl; lia|].
  rewrite with_waits_cons.
  destruct (arrival_td a =? departure_td b); cbn [length] in *; lia.
Qed.

(** X1: [populate_waiting] raises [IndexError] on a path without segments.
    On any other path it returns a path of the same day with the same first
    and last segment, in which every segment departs exactly when the one
    before it arrives, and which has at most one added segment per original
    pair of neighbours. *)
Theorem populate_waiting_fills_gaps (p : RouteSegmentCollection) :
  (trips p = [] -> populate_waiting p = Raise IndexError) /\
  (trips p <> [] ->
   exists q,
     populate_waiting p = Ok q /\ day q = day p /\
     contiguous (trips q) = true /\
     head (trips q) = head (trips p) /\ last (trips q) = last (trips p) /\
     (__len__ p <= __len__ q <= 2 * __len__ p - 1)%nat).
Proof.
  split.
  - intros E. unfold populate_waiting. rewrite E. reflexivity.
  - intros Hne. exists (mkRSC (day p) (with_waits (trips p))).
    split; [apply populate_waiting_with_waits, Hne|]. split; [reflexivity|].
    split; [apply with_waits_contiguous|]. cbn [trips].
    split; [destruct (trips p); [contradiction|apply with_waits_head]|].
    split; [apply with_waits_last|apply with_waits_length].
Qed.

(** X2: the segments that [populate_waiting] adds are exactly the ones
    labelled "Wait at stop": when no segment of the path carries that label,
    dropping the segments so labelled from the result gives back the segments
    of the path, in their order. *)
Theorem populate_waiting_keeps_segments (p q : RouteSegmentCollection) :
  Forall (fun seg => is_wait seg = false) (trips p) ->
  populate_waiting p = Ok q ->
  List.filter (fun seg => negb (is_wait seg)) (trips q) = trips p.
Proof.
  intros Hp H. destruct (trips p) as [|a l] eqn:E.
  - unfold populate_waiting in H. rewrite E in H. discriminate H.
  - rewrite populate_waiting_with_waits in H by (unfold nonempty; rewrite E; discriminate).
    injection H as <-. cbn [trips]. rewrite E. apply with_waits_drop_waits. exact Hp.
Qed.

Lemma populate_waiting_keeps_segments_witness :
  populate_waiting ride_with_gap
    = Ok (mkRSC 0 [mkRouteSegment (sec 10) (sec 10) STARTING_ROUTE_NAME "A";
                   mkRouteSegment (sec 10) (sec 20) "Line 1" "B";
                   mkRouteSegment (sec 20) (sec 25) WAIT_ROUTE_NAME "B";
                   mkRouteSegment (sec 25) (sec 30) "Line 2" "C"]) /\
  List.filter (fun seg => negb (is_wait seg))
    [mkRouteSegment (sec 10) (sec 10) STARTING_ROUTE_NAME "A";
     mkRouteSegment (sec 10) (sec 20) "Line 1" "B";
     mkRouteSegment (sec 20) (sec 25) WAIT_ROUTE_NAME "B";
     mkRouteSegment (sec 25) (sec 30) "Line 2" "C"] = trips ride_with_gap.
Proof.
  split; [reflexivity|].
  apply (populate_waiting_keeps_segments ride_with_gap
           (mkRSC 0 [mkRouteSegment (sec 10) (sec 10) STARTING_ROUTE_NAME "A";
                     mkRouteSegment (sec 10) (sec 20) "Line 1" "B";
                     mkRouteSegment (sec 20) (sec 25) WAIT_ROUTE_NAME "B";
                     mkRouteSegment (sec 25) (sec 30) "Line 2" "C"])).
  - repeat constructor.
  - reflexivity.
Defined.

(** X3: [populate_waiting] is idempotent: applied to a path it has
    returned, it returns that path again. *)
Theorem populate_waiting_idempotent (p q : RouteSegmentCollection) :
  populate_waiting p = Ok q -> populate_waiting q = Ok q.
Proof.
  intros H. destruct (trips p) as [|a l] eqn:E.
  - unfold populate_waiting in H. rewrite E in H. discriminate H.
  - assert (Hp : nonempty p) by (unfold nonempty; rewrite E; discriminate).
    rewrite populate_waiting_with_waits in H by exact Hp. injection H as <-.
    rewrite populate_waiting_with_waits.
    + cbn [day trips]. rewrite (with_waits_fixed (with_waits (trips p)));
        [reflexivity|apply with_waits_contiguous].
    + unfold nonempty. cbn [trips]. rewrite E.
      pose proof (with_waits_head a l) as Hh. intros Hnil. rewrite Hnil in Hh.
      discriminate Hh.
Qed.

Lemma populate_waiting_idempotent_witness :
  populate_waiting
    (mkRSC 0 [mkRouteSegment (sec 10) (sec 10) STARTING_ROUTE_NAME "A";
              mkRouteSegment (sec 10) (sec 20) "Line 1" "B";
              mkRouteSegment (sec 20) (sec 25) WAIT_ROUTE_NAME "B";
              mkRouteSegment (sec 25) (sec 30) "Line 2" "C"])
  = Ok (mkRSC 0 [mkRouteSegment (sec 10) (sec 10) STARTING_ROUTE_NAME "A";
                 mkRouteSegment (sec 10) (sec 20) "Line 1" "B";
                 mkRouteSegment (sec 20) (sec 25) WAIT_ROUTE_NAME "B";
                 mkRouteSegment (sec 25) (sec 30) "Line 2" "C"]).
Proof.
  apply (populate_waiting_idempotent ride_with_gap). reflexivity.
Defined.

(** * Properties of the display of times *)


Lemma seconds_add_days (d k : Z) : seconds (d + k * DAY) = seconds d.
Proof.
  unfold seconds, DAY, MICROSECONDS.
  replace (d + k * (86400 * 1000000)) with (d + (k * 86400) * 1000000) by lia.
  rewrite Z.div_add by discriminate. apply Z_mod_plus_full.
Qed.

Lemma seconds_range (d : Z) : 0 <= seconds d < 86400.
Proof. unfold seconds. apply Z.mod_pos_bound. reflexivity. Qed.





(** X5: both displays read the seconds component of the duration only.
    Whole days do not show: a duration and the same duration plus or minus any
    number of days are displayed alike, so that 25:10:00 reads 01:10:00, and a
    duration of minus one second reads 23:59:59 and 1439m59s. *)
Theorem displays_drop_whole_days (d k : Z) :
  timeish_hms_colon_str (Timeish.OfTimedelta (d + k * DAY))
    = timeish_hms_colon_str (Timeish.OfTimedelta d) /\
  timeish_minsec_str (Timeish.OfTimedelta (d + k * DAY))
    = timeish_minsec_str (Timeish.OfTimedelta d) /\
  timeish_hms_colon_str (Timeish.OfTimedelta (sec 90600)) = "01:10:00" /\
  timeish_hms_colon_str (Timeish.OfTimedelta (sec (-1))) = "23:59:59" /\
  timeish_minsec_str (Timeish.OfTimedelta (sec (-1))) = "1439m59s".
Proof.
  unfold timeish_hms_colon_str, timeish_minsec_str. cbn [Timeish.timedelta_coerce].
  rewrite seconds_add_days.
  split; [reflexivity|]. split; [reflexivity|].
  split; [vm_compute; reflexivity|]. split; vm_compute; reflexivity.
Qed.

(** * The order of the frontier *)

Lemma not_after_refl (x : RouteSegmentCollection) : not_after x x.
Proof.
  unfold not_after. apply not_true_is_false. rewrite key_lt_spec. unfold lex_lt. lia.
Qed.

Lemma not_after_trans (x y z : RouteSegmentCollection) :
  not_after x y -> not_after y z -> not_after x z.
Proof.
  unfold not_after. intros H1 H2.
  apply not_true_iff_false in H1, H2. apply not_true_is_false.
  rewrite key_lt_spec in *. unfold lex_lt in *. lia.
Qed.

Lemma before_not_after (x y : RouteSegmentCollection) :
  key_lt (spec_key x) (spec_key y) = true -> not_after x y.
Proof.
  unfold not_after. intros H. apply not_true_is_false.
  rewrite key_lt_spec in *. unfold lex_lt in *. lia.
Qed.

Lemma not_before_not_after (x y : RouteSegmentCollection) :
  key_lt (spec_key x) (spec_key y) = false -> not_after y x.
Proof. trivial. Qed.

Lemma parent_child (pos : nat) :
  (0 < pos)%nat ->
  (pos = 2 * Nat.shiftr (pos - 1) 1 + 1 \/ pos = 2 * Nat.shiftr (pos - 1) 1 + 2)%nat.
Proof.
  intros H. rewrite Nat.shiftr_div_pow2. change (2 ^ 1)%nat with 2%nat.
  pose proof (Nat.div_mod_eq (pos - 1) 2) as E.
  pose proof (Nat.mod_upper_bound (pos - 1) 2 ltac:(lia)) as B.
  lia.
Qed.

Lemma child_parent (i j : nat) :
  (j = 2 * i + 1 \/ j = 2 * i + 2)%nat -> Nat.shiftr (j - 1) 1 = i.
Proof.
  intros H. rewrite Nat.shiftr_div_pow2. change (2 ^ 1)%nat with 2%nat.
  pose proof (Nat.div_mod_eq (j - 1) 2) as E.
  pose proof (Nat.mod_upper_bound (j - 1) 2 ltac:(lia)) as B.
  lia.
Qed.

(** [_siftdown] from the root: the heap has a hole at [pos] waiting for
    [newitem]; the items elsewhere are in order, the children of the hole are
    not before its parent, and [newitem] is not after the children. *)
Lemma siftdown_loop_heap (fuel : nat) :
  forall (heap : list RouteSegmentCollection) (pos : nat)
         (newitem : RouteSegmentCollection),
    (pos <= fuel)%nat -> (pos < length heap)%nat ->
    Forall nonempty heap -> nonempty newitem ->
    (forall i j x y, (j = 2 * i + 1 \/ j = 2 * i + 2)%nat -> j <> pos ->
                     heap !! i = Some x -> heap !! j = Some y -> not_after x y) ->
    (forall c p y, (c = 2 * pos + 1 \/ c = 2 * pos + 2)%nat -> (0 < pos)%nat ->
                   heap !! Nat.shiftr (pos - 1) 1 = Some p -> heap !! c = Some y ->
                   not_after p y) ->
    (forall c y, (c = 2 * pos + 1 \/ c = 2 * pos + 2)%nat -> heap !! c = Some y ->
                 not_after newitem y) ->
    exists heap', _siftdown_loop fuel heap 0 pos newitem = Ok heap' /\ is_heap heap'.
Proof.
  induction fuel as [|fuel IH];
    intros heap pos newitem Hfuel Hpos Hall Hnew Hedges Hgrand Hkids;
    cbn [_siftdown_loop].
  - assert (pos = 0)%nat by lia. subst pos.
    rewrite setitem_lt by assumption. eexists. split; [reflexivity|].
    intros i j x y Hij Hx Hy.
    destruct (decide (i = 0%nat)) as [->|Hi].
    + rewrite list_lookup_insert_eq in Hx by assumption. injection Hx as <-.
      rewrite list_lookup_insert_ne in Hy by lia. eapply Hkids; eassumption.
    + rewrite list_lookup_insert_ne in Hx by lia.
      rewrite list_lookup_insert_ne in Hy by lia.
      eapply (Hedges i j); try eassumption. lia.
  - assert (Hfinal : forall parent_ok : (0 < pos)%nat ->
                       forall p, heap !! Nat.shiftr (pos - 1) 1 = Some p -> not_after p newitem,
               is_heap (<[pos := newitem]> heap)).
    { intros Hpar i j x y Hij Hx Hy.
      destruct (decide (j = pos)) as [->|Hj].
      - rewrite list_lookup_insert_eq in Hy by assumption. injection Hy as <-.
        rewrite list_lookup_insert_ne in Hx by lia.
        apply (Hpar ltac:(lia)). rewrite (child_parent i pos Hij). exact Hx.
      - rewrite list_lookup_insert_ne in Hy by lia.
        destruct (decide (i = pos)) as [->|Hi].
        + rewrite list_lookup_insert_eq in Hx by assumption. injection Hx as <-.
          eapply Hkids; eassumption.
        + rewrite list_lookup_insert_ne in Hx by lia.
          eapply (Hedges i j); eassumption. }
    destruct (Nat.ltb_spec 0 pos) as [Hlt|Hge].
    2:{ rewrite setitem_lt by assumption. eexists. split; [reflexivity|].
        apply Hfinal. intros; lia. }
    pose proof (parent_lt pos Hlt) as Hpar.
    pose proof (parent_child pos Hlt) as Hchild.
    set (pp := Nat.shiftr (pos - 1) 1) in *.
    destruct (getitem_lt heap pp) as (parent & Hlook & ->); [lia|].
    assert (Hparent : nonempty parent) by (eapply Forall_lookup_1; eassumption).
    ok_step. rewrite lt_nonempty by assumption. ok_step.
    destruct (key_lt (spec_key newitem) (spec_key parent)) eqn:Hcmp.
    2:{ rewrite setitem_lt by assumption. eexists. split; [reflexivity|].
        apply Hfinal. intros _ p Hp. rewrite Hlook in Hp. injection Hp as <-.
        exact Hcmp. }
    rewrite setitem_lt by assumption. ok_step.
    apply IH.
    + lia.
    + rewrite length_insert. lia.
    + apply Forall_insert; assumption.
    + assumption.
    + intros i j x y Hij Hj Hx Hy.
      destruct (decide (j = pos)) as [->|Hjp].
      * rewrite list_lookup_insert_eq in Hy by assumption. injection Hy as <-.
        assert (i = pp) by lia. subst i.
        rewrite list_lookup_insert_ne in Hx by lia. rewrite Hlook in Hx.
        injection Hx as <-. apply not_after_refl.
      * rewrite list_lookup_insert_ne in Hy by lia.
        destruct (decide (i = pos)) as [->|Hip].
        -- rewrite list_lookup_insert_eq in Hx by assumption. injection Hx as <-.
           eapply (Hgrand j); eassumption.
        -- rewrite list_lookup_insert_ne in Hx by lia.
           eapply (Hedges i j); eassumption.
    + intros c p y Hc Hpp Hp Hy.
      pose proof (parent_child pp Hpp) as Hgp.
      rewrite list_lookup_insert_ne in Hp by (pose proof (parent_lt pp Hpp); lia).
      assert (Hstep : not_after p parent).
      { eapply (Hedges (Nat.shiftr (pp - 1) 1) pp); try eassumption. lia. }
      destruct (decide (c = pos)) as [->|Hcp].
      * rewrite list_lookup_insert_eq in Hy by assumption. injection Hy as <-.
        exact Hstep.
      * rewrite list_lookup_insert_ne in Hy by lia.
        eapply not_after_trans; [exact Hstep|].
        eapply (Hedges pp c); eassumption.
    + intros c y Hc Hy.
      destruct (decide (c = pos)) as [->|Hcp].
      * rewrite list_lookup_insert_eq in Hy by assumption. injection Hy as <-.
        apply before_not_after, Hcmp.
      * rewrite list_lookup_insert_ne in Hy by lia.
        eapply not_after_trans; [apply before_not_after, Hcmp|].
        eapply (Hedges pp c); eassumption.
Qed.

(** The first loop of [_siftup]: the hole moves down to a leaf, the smaller
    child moving up each time. *)
Lemma siftup_loop_heap (fuel : nat) :
  forall (heap : list RouteSegmentCollection) (endpos pos : nat),
    (endpos <= pos + fuel)%nat -> length heap = endpos -> (pos < endpos)%nat ->
    Forall nonempty heap ->
    (forall i j x y, (j = 2 * i + 1 \/ j = 2 * i + 2)%nat -> i <> pos -> j <> pos ->
                     heap !! i = Some x -> heap !! j = Some y -> not_after x y) ->
    (forall c p y, (c = 2 * pos + 1 \/ c = 2 * pos + 2)%nat -> (0 < pos)%nat ->
                   heap !! Nat.shiftr (pos - 1) 1 = Some p -> heap !! c = Some y ->
                   not_after p y) ->
    exists heap' pos',
      _siftup_loop fuel heap endpos pos (2 * pos + 1)%nat = Ok (heap', pos') /\
      (pos' < endpos)%nat /\ length heap' = endpos /\ (endpos <= 2 * pos' + 1)%nat /\
      Forall nonempty heap' /\
      (forall i j x y, (j = 2 * i + 1 \/ j = 2 * i + 2)%nat -> i <> pos' -> j <> pos' ->
                       heap' !! i = Some x -> heap' !! j = Some y -> not_after x y).
Proof.
  induction fuel as [|fuel IH];
    intros heap endpos pos Hfuel Hlen Hpos Hall Hedges Hgrand; cbn [_siftup_loop].
  - lia.
  - destruct (Nat.ltb_spec (2 * pos + 1) endpos) as [Hlt|Hge].
    2:{ exists heap, pos. repeat split; try assumption. }
    assert (Hsel : exists c child,
      (if (2 * pos + 1 + 1 <? endpos)%nat
       then l ← getitem heap (2 * pos + 1)%nat; r ← getitem heap (2 * pos + 1 + 1)%nat;
            b ← __lt__ l r;
            Ok (if negb b then (2 * pos + 1 + 1)%nat else (2 * pos + 1)%nat)
       else Ok (2 * pos + 1)%nat) = Ok c /\
      (c = 2 * pos + 1 \/ c = 2 * pos + 2)%nat /\ (c < endpos)%nat /\
      heap !! c = Some child /\
      forall o y, (o = 2 * pos + 1 \/ o = 2 * pos + 2)%nat -> heap !! o = Some y ->
                  not_after child y).
    { destruct (getitem_lt heap (2 * pos + 1)%nat) as (l & Hl & Hgl); [lia|].
      destruct (Nat.ltb_spec (2 * pos + 1 + 1) endpos) as [Hr|Hr].
      - destruct (getitem_lt heap (2 * pos + 1 + 1)%nat) as (r & Hr' & Hgr); [lia|].
        rewrite Hgl, Hgr. ok_step.
        rewrite lt_nonempty by (eapply Forall_lookup_1; eassumption). ok_step.
        replace (2 * pos + 1 + 1)%nat with (2 * pos + 2)%nat in * by lia.
        destruct (key_lt (spec_key l) (spec_key r)) eqn:Hcmp; cbn [negb].
        + exists (2 * pos + 1)%nat, l. split; [reflexivity|]. split; [lia|].
          split; [lia|]. split; [exact Hl|].
          intros o y [->| ->] Hy; rewrite Hy in *.
          * injection Hl as <-. apply not_after_refl.
          * injection Hr' as <-. apply before_not_after, Hcmp.
        + exists (2 * pos + 2)%nat, r. split; [reflexivity|]. split; [lia|].
          split; [lia|]. split; [exact Hr'|].
          intros o y [->| ->] Hy; rewrite Hy in *.
          * injection Hl as <-. exact Hcmp.
          * injection Hr' as <-. apply not_after_refl.
      - exists (2 * pos + 1)%nat, l. split; [reflexivity|]. split; [lia|].
        split; [lia|]. split; [exact Hl|].
        intros o y [->| ->] Hy.
        + rewrite Hy in Hl. injection Hl as <-. apply not_after_refl.
        + apply lookup_lt_Some in Hy. lia. }
    destruct Hsel as (c & child & -> & Hc & Hcend & Hchild & Hsmall). ok_step.
    rewrite (getitem_lookup heap c child Hchild). ok_step.
    rewrite setitem_lt by lia. ok_step.
    assert (Hchild_ne : nonempty child) by (eapply Forall_lookup_1; eassumption).
    destruct (IH (<[pos := child]> heap) endpos c)
      as (heap' & pos' & Heq & Hp' & Hlen' & Hleaf & Hall' & Hedges').
    + lia.
    + rewrite length_insert. assumption.
    + assumption.
    + apply Forall_insert; assumption.
    + intros i j x y Hij Hi Hj Hx Hy.
      destruct (decide (j = pos)) as [->|Hjp].
      * rewrite list_lookup_insert_eq in Hy by lia. injection Hy as <-.
        assert (0 < pos)%nat by lia.
        rewrite list_lookup_insert_ne in Hx by lia.
        eapply (Hgrand c); try eassumption.
        rewrite (child_parent i pos Hij). exact Hx.
      * rewrite list_lookup_insert_ne in Hy by lia.
        destruct (decide (i = pos)) as [->|Hip].
        -- rewrite list_lookup_insert_eq in Hx by lia. injection Hx as <-.
           eapply Hsmall; eassumption.
        -- rewrite list_lookup_insert_ne in Hx by lia.
           eapply (Hedges i j); eassumption.
    + intros gc p y Hgc _ Hp Hy.
      rewrite (child_parent pos c Hc) in Hp.
      rewrite list_lookup_insert_eq in Hp by lia. injection Hp as <-.
      rewrite list_lookup_insert_ne in Hy by lia.
      eapply (Hedges c gc); try eassumption; lia.
    + exists heap', pos'. auto 10.
Qed.

(** [_siftup] at the root of a list that is a heap below the root. *)
Lemma siftup_root_heap (heap : list RouteSegmentCollection) :
  (0 < length heap)%nat -> Forall nonempty heap ->
  (forall i j x y, (j = 2 * i + 1 \/ j = 2 * i + 2)%nat -> i <> 0%nat ->
                   heap !! i = Some x -> heap !! j = Some y -> not_after x y) ->
  exists heap', _siftup heap 0 = Ok heap' /\ is_heap heap'.
Proof.
  intros Hlen Hall Hedges. unfold _siftup.
  destruct (getitem_lt heap 0 Hlen) as (newitem & Hlook & ->). ok_step.
  assert (Hnew : nonempty newitem) by (eapply Forall_lookup_1; eassumption).
  destruct (siftup_loop_heap (length heap) heap (length heap) 0)
    as (heap' & pos' & Heq & Hp' & Hlen' & Hleaf & Hall' & Hedges');
    [lia|reflexivity|assumption|assumption| | |].
  - intros i j x y Hij Hi Hj. apply Hedges; assumption.
  - intros c p y _ H0. lia.
  - rewrite Heq. ok_step.
    rewrite setitem_lt by lia. ok_step. unfold _siftdown.
    rewrite (getitem_lookup _ pos' newitem)
      by (apply list_lookup_insert_eq; lia). ok_step.
    apply siftdown_loop_heap.
    + lia.
    + rewrite length_insert. lia.
    + apply Forall_insert; assumption.
    + assumption.
    + intros i j x y Hij Hj Hx Hy.
      destruct (decide (i = pos')) as [->|Hi].
      * apply lookup_lt_Some in Hy. rewrite length_insert in Hy. lia.
      * rewrite list_lookup_insert_ne in Hx by lia.
        rewrite list_lookup_insert_ne in Hy by lia.
        eapply (Hedges' i j); eassumption.
    + intros c p y Hc _ _ Hy. apply lookup_lt_Some in Hy.
      rewrite length_insert in Hy. lia.
    + intros c y Hc Hy. apply lookup_lt_Some in Hy.
      rewrite length_insert in Hy. lia.
Qed.

Lemma heappush_heap (heap : list RouteSegmentCollection) (item : RouteSegmentCollection) :
  is_heap heap -> Forall nonempty heap -> nonempty item ->
  exists heap', heappush heap item = Ok heap' /\ is_heap heap'.
Proof.
  intros Hheap Hall Hitem. unfold heappush, _siftdown.
  rewrite length_app. cbn [length].
  replace (length heap + 1 - 1)%nat with (length heap) by lia.
  rewrite (getitem_lookup _ (length heap) item)
    by (rewrite lookup_app_r, Nat.sub_diag by lia; reflexivity).
  ok_step. apply siftdown_loop_heap.
  - lia.
  - rewrite length_app. simpl. lia.
  - apply Forall_app. split; [assumption|]. constructor; [assumption|constructor].
  - assumption.
  - intros i j x y Hij Hj Hx Hy.
    assert (Hjl : (j < length heap)%nat).
    { apply lookup_lt_Some in Hy. rewrite length_app in Hy. simpl in Hy. lia. }
    rewrite lookup_app_l in Hx by lia. rewrite lookup_app_l in Hy by lia.
    eapply Hheap; eassumption.
  - intros c p y Hc _ _ Hy. apply lookup_lt_Some in Hy.
    rewrite length_app in Hy. simpl in Hy. lia.
  - intros c y Hc Hy. apply lookup_lt_Some in Hy.
    rewrite length_app in Hy. simpl in Hy. lia.
Qed.

Lemma heappop_heap (heap : list RouteSegmentCollection) :
  is_heap heap -> heap <> [] -> Forall nonempty heap ->
  exists item rest,
    heappop heap = Ok (item, rest) /\ heap !! 0%nat = Some item /\ is_heap rest.
Proof.
  intros Hheap Hne Hall. unfold heappop, index_last.
  destruct (exists_last Hne) as (l & lastelt & ->).
  rewrite last_snoc, removelast_last. ok_step.
  destruct l as [|first l]; cbn [length Nat.ltb Nat.leb].
  - exists lastelt, []. split; [reflexivity|]. split; [reflexivity|].
    intros i j x y _ Hx. destruct i; discriminate Hx.
  - apply Forall_app in Hall as [Hall Hlast].
    change (getitem (first :: l) 0) with (Ok first).
    change (setitem (first :: l) 0 lastelt) with (Ok (lastelt :: l)). ok_step.
    destruct (siftup_root_heap (lastelt :: l)) as (heap' & -> & Hheap').
    + simpl. lia.
    + constructor; [apply (Forall_inv Hlast)|apply (Forall_inv_tail Hall)].
    + intros i j x y Hij Hi Hx Hy.
      destruct i as [|i]; [contradiction|]. destruct j as [|j]; [lia|].
      apply (Hheap (S i) (S j)); [assumption| |].
      * rewrite lookup_app_l by (apply lookup_lt_Some in Hx; simpl in *; lia). exact Hx.
      * rewrite lookup_app_l by (apply lookup_lt_Some in Hy; simpl in *; lia). exact Hy.
    + ok_step. exists first, heap'. auto.
Qed.

(** In a heap no item is before the root. *)
Lemma heap_root_first (heap : list RouteSegmentCollection) (root : RouteSegmentCollection) :
  is_heap heap -> heap !! 0%nat = Some root ->
  forall i x, heap !! i = Some x -> not_after root x.
Proof.
  intros Hheap Hroot i. induction i as [i IH] using lt_wf_ind. intros x Hx.
  destruct i as [|i].
  - rewrite Hroot in Hx. injection Hx as <-. apply not_after_refl.
  - pose proof (parent_lt (S i) ltac:(lia)) as Hlt.
    pose proof (parent_child (S i) ltac:(lia)) as Hchild.
    destruct (lookup_lt_is_Some_2 heap (Nat.shiftr (S i - 1) 1)) as [p Hp].
    { apply lookup_lt_Some in Hx. lia. }
    eapply not_after_trans; [apply (IH _ Hlt p Hp)|].
    eapply Hheap; eassumption.
Qed.

Lemma reachable_frontier_heap (cfg : Config) (gtfs : GTFS) (s : State) :
  reachable cfg gtfs s -> is_heap (queue s) /\ Forall nonempty (queue s).
Proof.
  revert s.
  apply (reachable_preserves cfg gtfs
           (fun s => is_heap (queue s) /\ Forall nonempty (queue s))).
  - intros s0 rc s1 [Hheap Hq] Hpush.
    split; [|eapply push_keeps_nonempty; eassumption].
    destruct (push_to_queue_inv s0 s1 rc Hpush)
      as (seg & Hlast & [[-> _]|(q & Hq' & -> & _)]); [assumption|].
    assert (Hrc : nonempty rc).
    { unfold nonempty. intros E. rewrite E in Hlast. discriminate Hlast. }
    destruct (heappush_heap (queue s0) rc Hheap Hq Hrc) as (q' & Hpush' & Hheap').
    rewrite Hq' in Hpush'. injection Hpush' as <-. exact Hheap'.
  - intros s0 trip succ H. exact H.
  - intros s0 succ H. exact H.
  - intros s0 trip rc H _. exact H.
  - intros s0 item rest [Hheap Hq] Hpop. cbn [set_queue queue].
    assert (Hne : queue s0 <> []).
    { intros E. rewrite E in Hpop. discriminate Hpop. }
    destruct (heappop_heap (queue s0) Hheap Hne Hq) as (item' & rest' & Hpop' & _ & Hheap').
    destruct (heappop_permutation (queue s0) Hne Hq) as (item'' & rest'' & Hpop'' & Hperm).
    rewrite Hpop in Hpop', Hpop''. injection Hpop' as <- <-. injection Hpop'' as <- <-.
    split; [exact Hheap'|]. rewrite <- Hperm in Hq. apply (Forall_inv_tail Hq).
  - intros s0 rc seg H _ _ _. exact H.
  - intros s0 H. destruct (initial_state_inv cfg s0 H) as (_ & _ & _ & _ & ->).
    split; [|repeat constructor; discriminate].
    intros i j x y Hij Hx Hy. apply lookup_lt_Some in Hy. simpl in Hy. lia.
Qed.

(** X6: [heappush] and [heappop] on a heap of paths with segments.  Both
    return; [heappush] gives a heap that holds the item pushed and the former
    items; [heappop] gives the root of the heap, which no item of the heap is
    before in the order of paths, and a heap of the other items. *)
Theorem heap_operations_keep_order (heap : list RouteSegmentCollection)
    (item : RouteSegmentCollection) :
  is_heap heap -> Forall nonempty heap -> nonempty item ->
  (exists heap', heappush heap item = Ok heap' /\ is_heap heap' /\
                 heap' ≡ₚ item :: heap) /\
  (heap <> [] ->
   exists first rest,
     heappop heap = Ok (first, rest) /\ is_heap rest /\ first :: rest ≡ₚ heap /\
     forall p, In p heap -> __lt__ p first = Ok false).
Proof.
  intros Hheap Hall Hitem. split.
  - destruct (heappush_heap heap item Hheap Hall Hitem) as (heap' & Hpush & Hheap').
    destruct (heappush_permutation heap item Hall Hitem) as (heap'' & Hpush' & Hperm).
    rewrite Hpush in Hpush'. injection Hpush' as <-. eauto.
  - intros Hne.
    destruct (heappop_heap heap Hheap Hne Hall) as (first & rest & Hpop & Hroot & Hheap').
    destruct (heappop_permutation heap Hne Hall) as (first' & rest' & Hpop' & Hperm).
    rewrite Hpop in Hpop'. injection Hpop' as <- <-.
    exists first, rest. split; [exact Hpop|]. split; [assumption|].
    split; [assumption|]. intros p Hp.
    apply list_elem_of_In, list_elem_of_lookup in Hp as [i Hi].
    rewrite lt_nonempty; [|eapply Forall_lookup_1; eassumption
                          |eapply Forall_lookup_1; eassumption].
    f_equal. apply (heap_root_first heap first Hheap Hroot i p Hi).
Qed.

Lemma heap_operations_keep_order_witness :
  (exists heap', heappush [ride_to_B; ride_to_C] start_at_A = Ok heap' /\
                 is_heap heap' /\ heap' ≡ₚ start_at_A :: [ride_to_B; ride_to_C]) /\
  heappush [ride_to_B; ride_to_C] start_at_A = Ok [start_at_A; ride_to_C; ride_to_B].
Proof.
  split; [|reflexivity].
  apply (heap_operations_keep_order [ride_to_B; ride_to_C] start_at_A).
  - intros i j x y Hij Hx Hy.
    destruct i as [|i]; [|apply lookup_lt_Some in Hy; simpl in Hy; lia].
    destruct Hij as [->| ->]; [|discriminate Hy].
    injection Hx as <-. injection Hy as <-. reflexivity.
  - repeat constructor; discriminate.
  - discriminate.
Defined.

(** X7: in every state of the search the frontier is a heap of paths with
    segments, so an iteration entered with a non-empty frontier pops a path
    that no path of the frontier is before: one with the least (arrival,
    number of segments). *)
Theorem search_pops_a_first_path (cfg : Config) (gtfs : GTFS) (s : State) :
  reachable cfg gtfs s -> queue s <> [] ->
  is_heap (queue s) /\
  exists rc rest,
    heappop (queue s) = Ok (rc, rest) /\ rc :: rest ≡ₚ queue s /\
    forall p, In p (queue s) ->
      __lt__ p rc = Ok false /\ ~ lex_lt (spec_key p) (spec_key rc).
Proof.
  intros Hs Hne. destruct (reachable_frontier_heap cfg gtfs s Hs) as [Hheap Hall].
  split; [exact Hheap|].
  destruct (heappop_heap (queue s) Hheap Hne Hall) as (rc & rest & Hpop & Hroot & _).
  destruct (heappop_permutation (queue s) Hne Hall) as (rc' & rest' & Hpop' & Hperm).
  rewrite Hpop in Hpop'. injection Hpop' as <- <-.
  exists rc, rest. split; [exact Hpop|]. split; [assumption|]. intros p Hp.
  apply list_elem_of_In, list_elem_of_lookup in Hp as [i Hi].
  pose proof (heap_root_first (queue s) rc Hheap Hroot i p Hi) as Hle.
  split.
  - rewrite lt_nonempty; [|eapply Forall_lookup_1; eassumption
                          |eapply Forall_lookup_1; eassumption].
    f_equal. exact Hle.
  - rewrite <- key_lt_spec. unfold not_after in Hle. rewrite Hle. discriminate.
Qed.

Lemma linear_mid_reachable : reachable linear_config linear_feed linear_mid.
Proof. apply (run_reachable linear_config linear_feed 1). vm_compute. reflexivity. Qed.

Lemma search_pops_a_first_path_witness :
  reachable linear_config linear_feed linear_mid /\
  length (queue linear_mid) = 3%nat /\
  is_heap (queue linear_mid) /\
  exists rc rest,
    heappop (queue linear_mid) = Ok (rc, rest) /\ rc :: rest ≡ₚ queue linear_mid /\
    forall p, In p (queue linear_mid) ->
      __lt__ p rc = Ok false /\ ~ lex_lt (spec_key p) (spec_key rc).
Proof.
  split; [exact linear_mid_reachable|]. split; [vm_compute; reflexivity|].
  apply (search_pops_a_first_path linear_config linear_feed linear_mid
           linear_mid_reachable).
  vm_compute. discriminate.
Defined.

(** * Invariants of the paths of the search *)

(** The candidates of an expansion are rows of the merged table of the
    feed, with both times, within the bounds that were applied. *)
Lemma first_available_routes_rows (cfg : Config) (gtfs : GTFS) (stop : StopId)
    (td : timedelta) (routes : list TimetableRow) :
  first_available_routes cfg gtfs stop td = Ok routes ->
  forall row, In row routes ->
    In row (merged_trips_and_stoptimes gtfs) /\ stop_id row = stop /\
    exists d a, departure_time row = Some d /\ arrival_time row = Some a /\
                (td = 0 \/ td <= d) /\ (end_timedelta cfg = 0 \/ a <= end_timedelta cfg).
Proof.
  unfold first_available_routes, trips_between_for_stop. intros H row Hrow.
  destruct (get_stop_timetable gtfs stop) as [tt|e] eqn:Htt; [|discriminate H].
  ok_step_in H. injection H as <-.
  apply drop_duplicates_from_first in Hrow as (_ & l1 & l2 & Hsplit & _).
  assert (Hin : In row (df_time_bound tt td (end_timedelta cfg))).
  { rewrite Hsplit. apply in_or_app. right. left. reflexivity. }
  unfold df_time_bound in Hin. apply filter_In in Hin as [Hin Hf].
  apply (get_stop_timetable_spec gtfs stop tt Htt) in Hin as (Hm & Hs & _).
  split; [exact Hm|]. split; [exact Hs|].
  destruct (departure_time row) as [d|]; [|discriminate Hf].
  destruct (arrival_time row) as [a|]; [|discriminate Hf].
  apply andb_true_iff in Hf as [H1 H2]. exists d, a.
  split; [reflexivity|]. split; [reflexivity|]. unfold truthy in *. split.
  - destruct (Z.eqb_spec td 0); [left; assumption|right; apply Z.leb_le, H1].
  - destruct (Z.eqb_spec (end_timedelta cfg) 0);
      [left; assumption|right; apply Z.leb_le, H2].
Qed.

Lemma get_future_stops_on_trip_rows (gtfs : GTFS) (trip : TripId) (stop_seq : Z)
    (future_stops : list StopTimeRow) :
  get_future_stops_on_trip gtfs trip stop_seq = Ok future_stops ->
  forall future, In future future_stops ->
    In future (feed_stop_times gtfs) /\ st_trip_id future = trip /\
    stop_seq < st_stop_sequence future.
Proof.
  unfold get_future_stops_on_trip, get_group. intros H future Hf.
  remember (List.filter (fun r => String.eqb (st_trip_id r) trip) (feed_stop_times gtfs))
    as g eqn:Hg.
  assert (E : future_stops = List.filter (fun r => stop_seq <? st_stop_sequence r) g).
  { destruct g; [discriminate H|]. ok_step_in H. injection H as <-. reflexivity. }
  subst future_stops. apply filter_In in Hf as [Hf Hseq]. rewrite Hg in Hf.
  apply filter_In in Hf as [Hf Htrip]. apply String.eqb_eq in Htrip.
  apply Z.ltb_lt in Hseq. auto.
Qed.

Section PathInvariant.

Context (cfg : Config) (gtfs : GTFS).
Variable G : RouteSegmentCollection -> Prop.

Hypothesis G_start : G (start_path cfg).
Hypothesis G_ride : forall rc seg row future d arrival,
  G rc -> last (trips rc) = Some seg ->
  In row (merged_trips_and_stoptimes gtfs) -> departure_time row = Some d ->
  (arrival_td seg = 0 \/ arrival_td seg <= d) ->
  In future (feed_stop_times gtfs) -> st_arrival_time future = Some arrival ->
  arrival <= end_timedelta cfg ->
  G (ride_successor rc row future d arrival).
Hypothesis G_walk : forall rc seg target,
  G rc -> last (trips rc) = Some seg ->
  startswith (route_name seg) "Walk " = Ok false -> In target (stops gtfs) ->
  arrival_td seg <= end_timedelta cfg ->
  (0 < walking_speed cfg)%Q ->
  in_buffer cfg gtfs (arrival_td seg) (arrival_stop_id seg) target ->
  G (walk_successor cfg gtfs rc (arrival_td seg) (arrival_stop_id seg) target).

(** The paths of the frontier have segments and satisfy [G]. *)
Let good_queue (s : State) : Prop :=
  Forall nonempty (queue s) /\ Forall G (queue s).

Lemma push_good_queue (s s' : State) (rc : RouteSegmentCollection) :
  good_queue s -> G rc -> push_to_queue s rc = Ok s' -> good_queue s'.
Proof.
  intros [Hq HG] Hrc Hpush. split; [eapply push_keeps_nonempty; eassumption|].
  destruct (push_to_queue_inv s s' rc Hpush)
    as (seg & Hlast & [[-> _]|(q & Hq' & -> & _)]); [assumption|].
  assert (Hne : nonempty rc).
  { unfold nonempty. intros E. rewrite E in Hlast. discriminate Hlast. }
  destruct (heappush_permutation (queue s) rc Hq Hne) as (q' & Hpush' & Hperm).
  rewrite Hq' in Hpush'. injection Hpush' as <-. cbn [queue].
  rewrite Hperm. constructor; assumption.
Qed.

Lemma ride_trip_good_queue (rc : RouteSegmentCollection) (row : TimetableRow)
    (d : timedelta) (future_stops : list StopTimeRow) :
  (forall future arrival,
     In future future_stops -> st_arrival_time future = Some arrival ->
     arrival <= end_timedelta cfg -> G (ride_successor rc row future d arrival)) ->
  forall s s',
    good_queue s ->
    ride_trip cfg s rc (trip_id row) d (trip_headsign row) future_stops = Ok s' ->
    good_queue s'.
Proof.
  induction future_stops as [|future rest IH]; intros Hsucc s s' Hs H;
    cbn [ride_trip] in H.
  - injection H as <-. assumption.
  - destruct (st_arrival_time future) as [arrival|] eqn:Harr; [|discriminate H].
    cbn [timedelta_coerce] in H. ok_step_in H.
    assert (Hrest : forall future' arrival',
      In future' rest -> st_arrival_time future' = Some arrival' ->
      arrival' <= end_timedelta cfg -> G (ride_successor rc row future' d arrival')).
    { intros f a Hf. apply Hsucc. right. exact Hf. }
    destruct (Z.ltb_spec (end_timedelta cfg) arrival) as [Hlate|Hin];
      [apply (IH Hrest s s' Hs H)|].
    unfold append, append_ in H. ok_step_in H.
    destruct (push_to_queue _ _) as [s1|e] eqn:Hpush; [|discriminate H].
    ok_step_in H. apply (IH Hrest s1 s'); [|exact H].
    eapply push_good_queue; [| |exact Hpush].
    + exact Hs.
    + apply (Hsucc future arrival); [left; reflexivity|assumption|assumption].
Qed.

Lemma board_routes_good_queue (rc : RouteSegmentCollection) (seg : RouteSegment)
    (rows : list TimetableRow) :
  G rc -> last (trips rc) = Some seg ->
  (forall row, In row rows ->
     In row (merged_trips_and_stoptimes gtfs) /\
     exists d, departure_time row = Some d /\
               (arrival_td seg = 0 \/ arrival_td seg <= d)) ->
  forall s s',
    good_queue s -> board_routes cfg gtfs s rc rows = Ok s' -> good_queue s'.
Proof.
  intros Hrc Hlast. induction rows as [|row rest IH]; intros Hrows s s' Hs H;
    cbn [board_routes] in H.
  - injection H as <-. assumption.
  - assert (Hrest : forall row', In row' rest ->
      In row' (merged_trips_and_stoptimes gtfs) /\
      exists d, departure_time row' = Some d /\
                (arrival_td seg = 0 \/ arrival_td seg <= d)).
    { intros r Hr. apply Hrows. right. exact Hr. }
    destruct (Hrows row (or_introl eq_refl)) as (Hm & d & Hd & Hbound).
    rewrite Hd in H. cbn [timedelta_coerce] in H. ok_step_in H.
    destruct (trip_route_types gtfs !! trip_id row) as [mode|]; [|discriminate H].
    destruct (negb _); [apply (IH Hrest s s' Hs H)|].
    destruct (bool_decide (trip_id row ∈ visited_trips s));
      [apply (IH Hrest s s' Hs H)|].
    destruct (get_future_stops_on_trip gtfs _ _) as [future_stops|e] eqn:Hfut;
      [|discriminate H].
    ok_step_in H.
    destruct (ride_trip _ _ _ _ _ _ _) as [s2|e] eqn:Hride; [|discriminate H].
    ok_step_in H. apply (IH Hrest s2 s'); [|exact H].
    eapply (ride_trip_good_queue rc row d future_stops); [| |exact Hride].
    + intros future arrival Hf Harr Hle.
      destruct (get_future_stops_on_trip_rows gtfs _ _ _ Hfut future Hf) as (Hfeed & _).
      eapply G_ride; eassumption.
    + exact Hs.
Qed.

Lemma walk_to_good_queue (rc : RouteSegmentCollection) (td : timedelta) (stop : StopId)
    (targets : list StopId) :
  (forall target, In target targets -> G (walk_successor cfg gtfs rc td stop target)) ->
  forall s s',
    good_queue s -> walk_to cfg gtfs s rc td stop targets = Ok s' -> good_queue s'.
Proof.
  induction targets as [|target rest IH]; intros Hsucc s s' Hs H; cbn [walk_to] in H.
  - injection H as <-. assumption.
  - unfold append, append_ in H. ok_step_in H.
    destruct (push_to_queue _ _) as [s1|e] eqn:Hpush; [|discriminate H].
    ok_step_in H.
    apply (IH (fun t Ht => Hsucc t (or_intror Ht)) s1 s'); [|exact H].
    eapply push_good_queue; [| |exact Hpush].
    + exact Hs.
    + apply (Hsucc target). left. reflexivity.
Qed.

Lemma walking_expansion_good_queue (rc : RouteSegmentCollection) (seg : RouteSegment)
    (s s' : State) :
  G rc -> last (trips rc) = Some seg -> arrival_td seg <= end_timedelta cfg ->
  good_queue s ->
  walking_expansion cfg gtfs s rc (arrival_td seg) (arrival_stop_id seg) = Ok s' ->
  good_queue s'.
Proof.
  intros Hrc Hlast Hle Hs H. unfold walking_expansion in H.
  rewrite get_last_trip_last, Hlast in H. unfold attr in H. ok_step_in H.
  destruct (startswith _ _) as [[|]|e] eqn:Hwalk; [injection H as <-; assumption|
                                                    |discriminate H].
  ok_step_in H.
  destruct (Qle_bool (walking_speed cfg) 0) eqn:Hspeed; [injection H as <-; assumption|].
  destruct (get_stop gtfs _); [|discriminate H]. ok_step_in H.
  eapply walk_to_good_queue; [|exact Hs|exact H].
  intros target Ht. unfold get_stops_in_area in Ht. apply filter_In in Ht as [Ht Hd].
  fold (buffer_radius cfg (arrival_td seg)) in Hd.
  apply andb_true_iff in Hd as [Hd Hpoly]. apply andb_true_iff in Hd as [Hpos Hd].
  apply negb_true_iff in Hpos. apply Qle_bool_iff in Hd.
  eapply G_walk; try eassumption.
  - apply Qnot_le_lt. intros Hc. apply Qle_bool_iff in Hc. congruence.
  - split; [|split; assumption].
    apply Qnot_le_lt. intros Hc. apply Qle_bool_iff in Hc. congruence.
Qed.

(** The paths of the frontier and the finalized paths satisfy [G]. *)
Let good_state (s : State) : Prop :=
  good_queue s /\ forall stop p, visited_stops s !! stop = Some p -> G p.

Lemma loop_body_good_state (s s' : State) :
  good_state s -> loop_body cfg gtfs s = Ok s' -> good_state s'.
Proof.
  intros [[Hq HG] Hvis] H. unfold loop_body in H.
  destruct (heappop (queue s)) as [[rc rest]|e] eqn:Hpop; [|discriminate H].
  assert (Hne : queue s <> []) by (intros E; rewrite E in Hpop; discriminate Hpop).
  destruct (heappop_permutation (queue s) Hne Hq) as (rc' & rest' & Hpop' & Hperm).
  rewrite Hpop in Hpop'. injection Hpop' as <- <-.
  assert (Hq0 : Forall nonempty (rc :: rest)) by (rewrite Hperm; exact Hq).
  assert (HG0 : Forall G (rc :: rest)) by (rewrite Hperm; exact HG).
  pose proof (Forall_inv HG0) as Hrc.
  assert (Hrest : good_queue (set_queue s rest)).
  { split; cbn [set_queue queue]; [apply (Forall_inv_tail Hq0)|apply (Forall_inv_tail HG0)]. }
  ok_step_in H. rewrite get_last_trip_last in H. ok_step_in H.
  destruct (last (trips rc)) as [seg|] eqn:Hlast; [|discriminate H].
  unfold attr in H. ok_step_in H.
  destruct (bool_decide _); [injection H as <-; split; assumption|].
  destruct (Z.ltb_spec (end_timedelta cfg) (arrival_td seg)) as [Hlate|Hin];
    [injection H as <-; split; assumption|].
  destruct (first_available_routes cfg gtfs _ _) as [routes|e] eqn:Hroutes;
    [|discriminate H].
  ok_step_in H.
  destruct (board_routes _ _ _ _ _) as [s2|e] eqn:Hboard; [|discriminate H].
  ok_step_in H.
  assert (Hs2 : good_queue s2).
  { eapply (board_routes_good_queue rc seg routes Hrc Hlast); [| |exact Hboard].
    - intros row Hrow.
      destruct (first_available_routes_rows cfg gtfs _ _ _ Hroutes row Hrow)
        as (Hm & _ & d & a & Hd & _ & Hbound & _). eauto.
    - exact Hrest. }
  split.
  - eapply walking_expansion_good_queue; [exact Hrc|exact Hlast|exact Hin|exact Hs2|exact H].
  - assert (Hv2 : visited_stops s2 = <[arrival_stop_id seg := rc]> (visited_stops s)).
    { apply (board_routes_preserves cfg gtfs
               (fun s1 => visited_stops s1 =
                          <[arrival_stop_id seg := rc]> (visited_stops s)))
        with (rc := rc) (rows := routes)
             (s := mkState (<[arrival_stop_id seg := rc]> (visited_stops s))
                     (visited_trips s) (added_stops s) rest (trace s));
        [..|reflexivity|exact Hboard].
      - intros s0 p s1 E Hp. destruct (push_keeps_fields s0 s1 p Hp) as (-> & _). exact E.
      - intros s0 t p E. exact E.
      - intros s0 t p E _. exact E. }
    assert (Hv' : visited_stops s' = visited_stops s2).
    { apply (walking_expansion_preserves cfg gtfs
               (fun s1 => visited_stops s1 = visited_stops s2))
        with (rc := rc) (td := arrival_td seg) (stop := arrival_stop_id seg) (s := s2);
        [..|reflexivity|exact H].
      - intros s0 p s1 E Hp. destruct (push_keeps_fields s0 s1 p Hp) as (-> & _). exact E.
      - intros s0 p E. exact E. }
    intros stop p. rewrite Hv', Hv2.
    destruct (decide (arrival_stop_id seg = stop)) as [<-|Hne'].
    + rewrite lookup_insert_eq. intros [= <-]. exact Hrc.
    + rewrite lookup_insert_ne by assumption. apply Hvis.
Qed.

Lemma reachable_good_state (s : State) :
  reachable cfg gtfs s ->
  Forall nonempty (queue s) /\ Forall G (queue s) /\
  forall stop p, visited_stops s !! stop = Some p -> G p.
Proof.
  intros H. cut (good_state s); [intros [[? ?] ?]; auto|].
  induction H as [s Hinit|s s' _ IH _ Hbody].
  - destruct (initial_state_inv cfg s Hinit) as (Hv & _ & _ & _ & Hq).
    split; [split|]; rewrite ?Hq, ?Hv.
    + repeat constructor. discriminate.
    + repeat constructor. exact G_start.
    + intros stop p. rewrite lookup_empty. discriminate.
  - eapply loop_body_good_state; eassumption.
Qed.

End PathInvariant.

Lemma merged_row_inv (gtfs : GTFS) (row : TimetableRow) :
  In row (merged_trips_and_stoptimes gtfs) ->
  exists t st, In t (feed_trips gtfs) /\ In st (feed_stop_times gtfs) /\
               st_trip_id st = t_trip_id t /\ row = merge_row t st.
Proof.
  unfold merged_trips_and_stoptimes. intros H.
  apply in_flat_map in H as (t & Ht & H). apply in_map_iff in H as (st & <- & Hst).
  apply filter_In in Hst as [Hst E]. apply String.eqb_eq in E. eauto 10.
Qed.

Lemma all_paths_of_invariant (G : RouteSegmentCollection -> Prop) (s : State) :
  Forall G (queue s) /\ (forall stop p, visited_stops s !! stop = Some p -> G p) ->
  all_paths G s.
Proof.
  intros [Hq Hv]. split; [|exact Hv]. intros p Hp.
  rewrite List.Forall_forall in Hq. apply Hq, Hp.
Qed.

(** X8: every path the search holds, in the frontier or recorded for a
    stop, carries the day of the start and begins with the start segment: the
    search only ever extends the starting collection. *)
Theorem search_paths_start_at_origin (cfg : Config) (gtfs : GTFS) (s : State) :
  reachable cfg gtfs s -> all_paths (starts_at_origin cfg) s.
Proof.
  intros H. apply all_paths_of_invariant.
  apply (reachable_good_state cfg gtfs (starts_at_origin cfg)); [| | |exact H].
  - split; [reflexivity|]. exists []. reflexivity.
  - intros rc seg row future d arrival [Hday [rest Hrest]] _ _ _ _ _ _ _.
    split; [exact Hday|]. cbn [ride_successor trips]. rewrite Hrest. eauto.
  - intros rc seg target [Hday [rest Hrest]] _ _ _ _ _ _.
    split; [exact Hday|]. cbn [walk_successor trips]. rewrite Hrest. eauto.
Qed.

Lemma search_paths_start_at_origin_witness :
  reachable linear_config linear_feed linear_final /\
  all_paths (starts_at_origin linear_config) linear_final.
Proof.
  split; [exact linear_final_reachable|].
  apply (search_paths_start_at_origin linear_config linear_feed linear_final
           linear_final_reachable).
Defined.

(** X9: although [append] checks nothing, every path the search holds is
    time-monotonic when no stop time of the feed has a negative departure:
    each segment departs no earlier than the one before it arrives. *)
Theorem search_paths_time_monotonic (cfg : Config) (gtfs : GTFS) (s : State) :
  departures_nonnegative gtfs ->
  reachable cfg gtfs s ->
  all_paths (fun p => time_monotonic (trips p) = true) s.
Proof.
  intros Hfeed H. apply all_paths_of_invariant.
  apply (reachable_good_state cfg gtfs (fun p => time_monotonic (trips p) = true));
    [| | |exact H].
  - reflexivity.
  - intros rc seg row future d arrival Hrc Hlast Hrow Hd Hbound _ _ _.
    cbn [ride_successor trips]. rewrite time_monotonic_app, Hrc, Hlast.
    cbn [andb departure_td]. apply Z.leb_le.
    destruct Hbound as [H0|Hle]; [|exact Hle]. rewrite H0.
    destruct (merged_row_inv gtfs row Hrow) as (t & st & _ & Hst & _ & ->).
    apply (Hfeed st d Hst Hd).
  - intros rc seg target Hrc Hlast _ _ _ _ _.
    cbn [walk_successor trips]. rewrite time_monotonic_app, Hrc, Hlast.
    cbn [andb departure_td]. apply Z.leb_refl.
Qed.

Lemma search_paths_time_monotonic_witness :
  departures_nonnegative linear_feed /\
  reachable linear_config linear_feed linear_final /\
  all_paths (fun p => time_monotonic (trips p) = true) linear_final.
Proof.
  assert (Hfeed : departures_nonnegative linear_feed).
  { intros st d Hst Hd. simpl in Hst.
    destruct Hst as [<-|[<-|[<-|[]]]]; injection Hd as <-; vm_compute; discriminate. }
  split; [exact Hfeed|]. split; [exact linear_final_reachable|].
  apply (search_paths_time_monotonic linear_config linear_feed linear_final Hfeed
           linear_final_reachable).
Defined.

(** * Rounding to the nearest double *)

Lemma divide_and_round_upper (a b : Z) :
  0 < b -> 2 * divide_and_round a b * b <= 2 * a + b.
Proof.
  intros Hb. unfold divide_and_round.
  pose proof (Z.div_mod a b ltac:(lia)) as Hdiv.
  pose proof (Z.mod_pos_bound a b Hb) as Hmod.
  destruct ((b <? 2 * (a mod b)) || ((2 * (a mod b) =? b) && Z.odd (a / b))) eqn:E.
  - apply orb_true_iff in E as [E|E].
    + apply Z.ltb_lt in E. nia.
    + apply andb_true_iff in E as [E _]. apply Z.eqb_eq in E. nia.
  - nia.
Qed.

Lemma divide_and_round_below (a b K : Z) :
  0 < b -> 2 * a < (2 * K + 1) * b -> divide_and_round a b <= K.
Proof.
  intros Hb Hlt. pose proof (divide_and_round_upper a b Hb). nia.
Qed.

Lemma divide_and_round_exact (m b : Z) : 0 < b -> divide_and_round (m * b) b = m.
Proof.
  intros Hb. unfold divide_and_round.
  rewrite Z.div_mul, Z.mod_mul by lia.
  replace (b <? 2 * 0) with false by (symmetry; apply Z.ltb_ge; lia).
  replace (2 * 0 =? b) with false by (symmetry; apply Z.eqb_neq; lia).
  reflexivity.
Qed.

Lemma py_round_upper (x : Q) : (inject_Z (py_round x) <= x + (1 # 2))%Q.
Proof.
  unfold py_round. pose proof (divide_and_round_upper (Qnum x) (Z.pos (Qden x)) eq_refl) as H.
  destruct x as [n d]. cbn [Qnum Qden] in *.
  set (r := divide_and_round n (Z.pos d)) in *.
  unfold Qle, Qplus, inject_Z. cbn [Qnum Qden]. rewrite Pos2Z.inj_mul. nia.
Qed.

Lemma py_round_integer (x : Q) (m : Z) : (x == inject_Z m)%Q -> py_round x = m.
Proof.
  intros H. unfold py_round. destruct x as [n d]. unfold Qeq, inject_Z in H. simpl in *.
  replace n with (m * Z.pos d) by lia. apply divide_and_round_exact. reflexivity.
Qed.

Lemma pow2_pos (e : Z) : (0 < 2 ^ e)%Q.
Proof. apply Qpower_0_lt. reflexivity. Qed.

Lemma pow2_plus (a b : Z) : (2 ^ (a + b) == 2 ^ a * 2 ^ b)%Q.
Proof. apply Qpower_plus. discriminate. Qed.

Lemma pow2_Z (k : Z) : 0 <= k -> (2 ^ k == inject_Z (2 ^ k))%Q.
Proof. intros Hk. rewrite Zpower_Qpower by exact Hk. reflexivity. Qed.

Lemma floor_log2_spec (x : Q) : (0 < x)%Q -> (2 ^ floor_log2 x <= x)%Q.
Proof.
  intros Hx. unfold floor_log2.
  destruct (Qle_bool _ x) eqn:E; [apply Qle_bool_iff, E|].
  destruct x as [n d]. cbn [Qnum Qden].
  assert (Hn : 0 < n) by (unfold Qlt in Hx; simpl in Hx; lia).
  pose proof (Z.log2_spec n Hn) as [Hn1 _].
  pose proof (Z.log2_spec (Z.pos d) eq_refl) as [_ Hd2].
  pose proof (Z.log2_nonneg n). pose proof (Z.log2_nonneg (Z.pos d)).
  set (a := Z.log2 n) in *. set (b := Z.log2 (Z.pos d)) in *.
  replace (a - b - 1) with (a + - (b + 1)) by lia.
  rewrite pow2_plus, Qpower_opp, !pow2_Z by lia.
  assert (Hp : 0 < 2 ^ (b + 1)) by (apply Z.pow_pos_nonneg; lia).
  assert (Ha : 0 < 2 ^ a) by (apply Z.pow_pos_nonneg; lia).
  apply Qle_shift_div_r.
  - unfold Qlt, inject_Z. simpl. lia.
  - unfold Qle, Qmult, inject_Z. cbn [Qnum Qden]. nia.
Qed.

Lemma round_double_value (x : Q) :
  ~ (x == 0)%Q ->
  (round_double x ==
   inject_Z (py_round (x / 2 ^ ulp_exponent x)) * 2 ^ ulp_exponent x)%Q.
Proof.
  intros Hx. unfold round_double. destruct (Qeq_bool x 0) eqn:E.
  - apply Qeq_bool_iff in E. contradiction.
  - apply Qred_correct.
Qed.

(** The rounding goes up by half a unit in the last place at most. *)
Lemma round_double_half_ulp (x : Q) :
  ~ (x == 0)%Q -> (round_double x <= x + 2 ^ ulp_exponent x * (1 # 2))%Q.
Proof.
  intros Hx. rewrite (round_double_value x Hx).
  set (p := (2 ^ ulp_exponent x)%Q).
  assert (Hp : (0 < p)%Q) by apply pow2_pos.
  assert (Hp' : ~ (p == 0)%Q) by (intros E; rewrite E in Hp; discriminate Hp).
  setoid_replace (x + p * (1 # 2))%Q with ((x / p + (1 # 2)) * p)%Q using relation Qeq
    by (field; exact Hp').
  apply Qmult_le_compat_r; [apply py_round_upper|apply Qlt_le_weak, Hp].
Qed.

Lemma ulp_exponent_cases (x : Q) :
  (0 < x)%Q ->
  ulp_exponent x = -1074 \/ (2 ^ ulp_exponent x * 2 ^ 52 <= x)%Q.
Proof.
  intros Hx. unfold ulp_exponent.
  destruct (Z.max_spec (floor_log2 (Qabs x) - 52) (-1074)) as [[_ ->]|[_ ->]];
    [left; reflexivity|right].
  rewrite <- pow2_plus. replace (floor_log2 (Qabs x) - 52 + 52) with (floor_log2 (Qabs x))
    by lia.
  assert (Habs : (Qabs x == x)%Q) by (apply Qabs_pos, Qlt_le_weak, Hx).
  rewrite <- Habs at 2. apply floor_log2_spec. rewrite Habs. exact Hx.
Qed.

Lemma round_double_upper (x : Q) :
  (0 < x)%Q -> (round_double x <= x * (1 + 2 ^ (-53)) + 2 ^ (-1075))%Q.
Proof.
  intros Hx.
  assert (Hx0 : ~ (x == 0)%Q) by (intros E; rewrite E in Hx; discriminate Hx).
  pose proof (round_double_half_ulp x Hx0) as Hr.
  destruct (ulp_exponent_cases x Hx) as [E|Hn].
  - rewrite E in Hr.
    assert (Hc : (2 ^ (-1074) * (1 # 2) == 2 ^ (-1075))%Q) by reflexivity.
    rewrite Hc in Hr.
    assert (He : (0 <= x * 2 ^ (-53))%Q).
    { apply Qmult_le_0_compat; [apply Qlt_le_weak, Hx|apply Qlt_le_weak, pow2_pos]. }
    pose proof (pow2_pos (-1075)). lra.
  - set (p := (2 ^ ulp_exponent x)%Q) in *.
    assert (Hc : (x * 2 ^ (-53) == x * (/ 2 ^ 52) * (1 # 2))%Q).
    { assert (Hk : (2 ^ (-53) == / 2 ^ 52 * (1 # 2))%Q) by reflexivity.
      rewrite Hk. ring. }
    assert (Hp : (p <= x * / 2 ^ 52)%Q).
    { apply Qle_shift_div_l; [apply pow2_pos|exact Hn]. }
    pose proof (pow2_pos (-1075)). lra.
Qed.

Lemma round_double_lattice (x : Q) :
  (0 < x)%Q -> (exists m, (x == inject_Z m * 2 ^ (-1074))%Q) ->
  (round_double x <= x * (1 + 2 ^ (-53)))%Q.
Proof.
  intros Hx [m Hm].
  assert (Hx0 : ~ (x == 0)%Q) by (intros E; rewrite E in Hx; discriminate Hx).
  destruct (ulp_exponent_cases x Hx) as [E|Hn].
  - rewrite (round_double_value x Hx0), E.
    assert (Hy : (x / 2 ^ (-1074) == inject_Z m)%Q).
    { rewrite Hm. field. intros H0. pose proof (pow2_pos (-1074)) as Hp.
      rewrite H0 in Hp. discriminate Hp. }
    rewrite (py_round_integer _ m Hy), <- Hm.
    assert (He : (0 <= x * 2 ^ (-53))%Q).
    { apply Qmult_le_0_compat; [apply Qlt_le_weak, Hx|apply Qlt_le_weak, pow2_pos]. }
    lra.
  - pose proof (round_double_half_ulp x Hx0) as Hr.
    set (p := (2 ^ ulp_exponent x)%Q) in *.
    assert (Hk : (2 ^ (-53) == / 2 ^ 52 * (1 # 2))%Q) by reflexivity.
    assert (Hp : (p <= x * / 2 ^ 52)%Q).
    { apply Qle_shift_div_l; [apply pow2_pos|exact Hn]. }
    rewrite Hk. lra.
Qed.

Lemma round_double_nonpositive (x : Q) : (x <= 0)%Q -> (round_double x <= 0)%Q.
Proof.
  intros Hx. unfold round_double. destruct (Qeq_bool x 0) eqn:E; [apply Qle_refl|].
  rewrite Qred_correct.
  set (p := (2 ^ ulp_exponent x)%Q).
  assert (Hp : (0 < p)%Q) by apply pow2_pos.
  assert (Hy : (x / p <= 0)%Q).
  { apply Qle_shift_div_r; [exact Hp|]. rewrite Qmult_0_l. exact Hx. }
  pose proof (py_round_upper (x / p)) as Hr.
  assert (Hn : py_round (x / p) <= 0).
  { assert (H : (inject_Z (py_round (x / p)) < 1)%Q) by lra.
    unfold Qlt, inject_Z in H. simpl in H. lia. }
  assert (Hq : (inject_Z (py_round (x / p)) <= 0)%Q).
  { unfold Qle, inject_Z. simpl. lia. }
  apply Qle_trans with (0 * p)%Q; [|rewrite Qmult_0_l; apply Qle_refl].
  apply Qmult_le_compat_r; [exact Hq|apply Qlt_le_weak, Hp].
Qed.

(** A double is a multiple of the least subnormal. *)
Lemma round_double_multiple (x : Q) :
  exists m, (round_double x == inject_Z m * 2 ^ (-1074))%Q.
Proof.
  unfold round_double. destruct (Qeq_bool x 0); [exists 0; reflexivity|].
  set (e := ulp_exponent x).
  assert (He : -1074 <= e) by (unfold e, ulp_exponent; lia).
  exists (py_round (x / 2 ^ e) * 2 ^ (e + 1074)).
  rewrite Qred_correct, inject_Z_mult, <- pow2_Z by lia.
  replace e with (e + 1074 + -1074) at 2 by lia.
  rewrite pow2_plus. ring.
Qed.

Lemma float_mul_second_below (x : Q) (k : Z) :
  (x * inject_Z 2000000 < inject_Z (2 * (k * MICROSECONDS) + 1))%Q ->
  float_mul_second x <= k * MICROSECONDS.
Proof.
  intros H. unfold float_mul_second. apply divide_and_round_below; [reflexivity|].
  unfold Qlt, Qmult, inject_Z in H. cbn [Qnum Qden] in H.
  unfold MICROSECONDS in *. lia.
Qed.

(** Walking to a stop within the radius takes no longer than the seconds
    the radius was computed from, the roundings of the product, of the
    quotient and of the microseconds included. *)
Lemma walk_within_seconds (s d : Q) (k : Z) :
  (0 < s)%Q -> (exists m, (s == inject_Z m * 2 ^ (-1074))%Q) -> 0 <= k < 86400 ->
  (d <= float_mul s (inject_Z k))%Q ->
  float_mul_second (float_div d s) <= k * MICROSECONDS.
Proof.
  intros Hs [m Hm] Hk Hd. unfold float_mul, float_div in *.
  apply float_mul_second_below.
  assert (HK : (0 <= inject_Z k <= 86399)%Q).
  { unfold Qle, inject_Z. simpl. lia. }
  assert (Hinj : (inject_Z (2 * (k * MICROSECONDS) + 1) == 2000000 * inject_Z k + 1)%Q).
  { unfold MICROSECONDS. rewrite inject_Z_plus, !inject_Z_mult.
    change (inject_Z 2) with 2%Q. change (inject_Z 1000000) with 1000000%Q.
    change (inject_Z 1) with 1%Q. ring. }
  rewrite Hinj. change (inject_Z 2000000) with 2000000%Q.
  destruct (Qlt_le_dec 0 d) as [Hpos|Hneg].
  - assert (Hsk : (0 < s * inject_Z k)%Q).
    { apply Qnot_le_lt. intros Hle. pose proof (round_double_nonpositive _ Hle). lra. }
    assert (HR : (round_double (s * inject_Z k) <= s * inject_Z k * (1 + 2 ^ (-53)))%Q).
    { apply round_double_lattice; [exact Hsk|].
      exists (m * k). rewrite Hm, inject_Z_mult. ring. }
    assert (Hx : (0 < d / s)%Q).
    { apply Qlt_shift_div_l; [exact Hs|]. rewrite Qmult_0_l. exact Hpos. }
    assert (Hxk : (d / s <= inject_Z k * (1 + 2 ^ (-53)))%Q).
    { apply Qle_shift_div_r; [exact Hs|].
      apply Qle_trans with (round_double (s * inject_Z k)); [exact Hd|].
      eapply Qle_trans; [exact HR|]. apply Qle_lteq. right. ring. }
    pose proof (round_double_upper (d / s) Hx) as HA.
    assert (He : (2 ^ (-53) == 1 # 9007199254740992)%Q) by reflexivity.
    assert (Hdelta : (2 ^ (-1075) <= 1 # 1152921504606846976)%Q).
    { unfold Qle. vm_compute. discriminate. }
    rewrite He in HA, Hxk. lra.
  - assert (Hx : (d / s <= 0)%Q).
    { apply Qle_shift_div_r; [exact Hs|]. rewrite Qmult_0_l. exact Hneg. }
    pose proof (round_double_nonpositive _ Hx). lra.
Qed.

Lemma seconds_le (x : Z) : 0 <= x -> seconds x * MICROSECONDS <= x.
Proof.
  intros H. unfold seconds, MICROSECONDS.
  assert (0 <= x / 1000000) by (apply Z.div_pos; lia).
  pose proof (Z.mod_le (x / 1000000) 86400 ltac:(lia) ltac:(lia)).
  pose proof (Z.mul_div_le x 1000000 ltac:(lia)). lia.
Qed.

(** A walk within the radius ends within the horizon. *)
Lemma walk_arrival_within_horizon (cfg : Config) (td : timedelta) (d : Q) :
  td <= end_timedelta cfg -> (0 < walking_speed cfg)%Q ->
  (d <= buffer_radius cfg td)%Q ->
  td + float_mul_second (float_div d (walking_speed cfg)) <= end_timedelta cfg.
Proof.
  intros Htd Hspeed Hd.
  pose proof (walk_within_seconds (walking_speed cfg) d
                (seconds (end_timedelta cfg - td)) Hspeed
                (round_double_multiple (WALKING_SPEED cfg))
                (seconds_range (end_timedelta cfg - td)) Hd).
  pose proof (seconds_le (end_timedelta cfg - td) ltac:(lia)). lia.
Qed.

(** X10: nothing beyond the horizon is ever queued.  Every path the search
    holds is the start path or arrives within the horizon: a ride beyond it is
    skipped, and a walk within the radius ends within it. *)
Theorem search_paths_within_horizon (cfg : Config) (gtfs : GTFS) (s : State) :
  reachable cfg gtfs s -> all_paths (arrives_by_horizon cfg) s.
Proof.
  intros H. apply all_paths_of_invariant.
  apply (reachable_good_state cfg gtfs (arrives_by_horizon cfg)); [| | |exact H].
  - left. reflexivity.
  - intros rc seg row future d arrival _ _ _ _ _ _ _ Hle. right.
    eexists. split; [apply last_snoc|exact Hle].
  - intros rc seg target _ _ _ _ Htd Hspeed (_ & Hd & _). right.
    eexists. split; [apply last_snoc|]. cbn [arrival_td].
    apply walk_arrival_within_horizon; assumption.
Qed.

Lemma search_paths_within_horizon_witness :
  reachable short_config linear_feed short_final /\
  all_paths (arrives_by_horizon short_config) short_final.
Proof.
  split; [exact short_final_reachable|].
  apply (search_paths_within_horizon short_config linear_feed short_final
           short_final_reachable).
Defined.

(** X11: the time recorded in [added_stops] for a stop is a lower bound of
    the frontier: in every state of the search, each queued path other than
    the start path ends at a stop that has a record, and the record is no
    later than the arrival of the path. *)
Theorem added_stops_bounds_frontier (cfg : Config) (gtfs : GTFS) (s : State) :
  reachable cfg gtfs s -> added_stops_bound_queue cfg s.
Proof.
  intros H.
  cut (Forall nonempty (queue s) /\ added_stops_bound_queue cfg s); [tauto|].
  revert s H.
  apply (reachable_preserves cfg gtfs
           (fun s => Forall nonempty (queue s) /\ added_stops_bound_queue cfg s)).
  - intros s0 rc s1 [Hq Hb] Hpush.
    split; [eapply push_keeps_nonempty; eassumption|].
    destruct (push_to_queue_inv s0 s1 rc Hpush)
      as (seg & Hlast & [[-> _]|(q & Hq' & -> & Hle)]); [assumption|].
    assert (Hrc : nonempty rc).
    { unfold nonempty. intros E. rewrite E in Hlast. discriminate Hlast. }
    destruct (heappush_permutation (queue s0) rc Hq Hrc) as (q' & Hpush' & Hperm).
    rewrite Hq' in Hpush'. injection Hpush' as <-.
    intros p segp Hp Hsegp. cbn [queue added_stops] in *.
    apply list_elem_of_In in Hp. rewrite Hperm in Hp.
    apply list_elem_of_In in Hp. destruct Hp as [<-|Hp].
    + right. rewrite Hlast in Hsegp. injection Hsegp as <-.
      exists (arrival_td seg). rewrite lookup_insert_eq. split; [reflexivity|lia].
    + destruct (Hb p segp Hp Hsegp) as [->|(known & Hk & Hkle)]; [left; reflexivity|].
      right. destruct (decide (arrival_stop_id seg = arrival_stop_id segp)) as [E|Hne].
      * exists (arrival_td seg). rewrite E, lookup_insert_eq. split; [reflexivity|].
        rewrite <- E in Hk. specialize (Hle known Hk). lia.
      * exists known. rewrite lookup_insert_ne by assumption. auto.
  - intros s0 trip succ H. exact H.
  - intros s0 succ H. exact H.
  - intros s0 trip rc H _. exact H.
  - intros s0 item rest [Hq Hb] Hpop. cbn [set_queue queue].
    assert (Hne : queue s0 <> []).
    { intros E. rewrite E in Hpop. discriminate Hpop. }
    destruct (heappop_permutation (queue s0) Hne Hq) as (item' & rest' & Hpop' & Hperm).
    rewrite Hpop in Hpop'. injection Hpop' as <- <-.
    split; [rewrite <- Hperm in Hq; apply (Forall_inv_tail Hq)|].
    intros p seg Hp Hseg. cbn [set_queue queue added_stops] in *.
    apply (Hb p seg); [|exact Hseg].
    apply list_elem_of_In. rewrite <- Hperm. apply list_elem_of_In. right. exact Hp.
  - intros s0 rc seg H _ _ _. exact H.
  - intros s0 H. destruct (initial_state_inv cfg s0 H) as (_ & _ & _ & _ & Hq).
    split; [rewrite Hq; repeat constructor; discriminate|].
    intros p seg Hp _. rewrite Hq in Hp. destruct Hp as [<-|[]]. left. reflexivity.
Qed.

Lemma added_stops_bounds_frontier_witness :
  reachable linear_config linear_feed linear_mid /\
  length (queue linear_mid) = 3%nat /\
  added_stops_bound_queue linear_config linear_mid.
Proof.
  split; [exact linear_mid_reachable|]. split; [vm_compute; reflexivity|].
  apply (added_stops_bounds_frontier linear_config linear_feed linear_mid
           linear_mid_reachable).
Defined.

(** * Termination of the search *)

Lemma setitem_length {A} (l l' : list A) (i : nat) (x : A) :
  setitem l i x = Ok l' -> length l' = length l.
Proof.
  unfold setitem. destruct (i <? length l)%nat; [|discriminate].
  intros [= <-]. apply length_insert.
Qed.

Lemma siftdown_loop_length (fuel : nat) :
  forall heap startpos pos newitem heap',
    _siftdown_loop fuel heap startpos pos newitem = Ok heap' ->
    length heap' = length heap.
Proof.
  induction fuel as [|fuel IH]; intros heap startpos pos newitem heap' H;
    cbn [_siftdown_loop] in H.
  - eapply setitem_length, H.
  - destruct (startpos <? pos)%nat; [|eapply setitem_length, H].
    destruct (getitem heap _) as [parent|e]; [|discriminate H]. ok_step_in H.
    destruct (__lt__ newitem parent) as [b|e]; [|discriminate H]. ok_step_in H.
    destruct b; [|eapply setitem_length, H].
    destruct (setitem heap pos parent) as [heap1|e] eqn:Hset; [|discriminate H].
    ok_step_in H. rewrite (IH _ _ _ _ _ H). eapply setitem_length, Hset.
Qed.

Lemma heappush_length (heap heap' : list RouteSegmentCollection)
    (item : RouteSegmentCollection) :
  heappush heap item = Ok heap' -> length heap' = S (length heap).
Proof.
  unfold heappush, _siftdown. intros H.
  destruct (getitem _ _) as [newitem|e]; [|discriminate H]. ok_step_in H.
  rewrite (siftdown_loop_length _ _ _ _ _ _ H), length_app. simpl. lia.
Qed.

Lemma push_length (s s' : State) (rc : RouteSegmentCollection) :
  push_to_queue s rc = Ok s' -> (length (queue s') <= S (length (queue s)))%nat.
Proof.
  intros H.
  destruct (push_to_queue_inv s s' rc H) as (seg & _ & [[-> _]|(q & Hq & -> & _)]);
    [lia|].
  cbn [queue]. rewrite (heappush_length _ _ _ Hq). lia.
Qed.

Lemma ride_trip_length (cfg : Config) (rc : RouteSegmentCollection) (trip : TripId)
    (d : timedelta) (name : label) (future_stops : list StopTimeRow) :
  forall s s',
    ride_trip cfg s rc trip d name future_stops = Ok s' ->
    (length (queue s') <= length (queue s) + length future_stops)%nat /\
    visited_stops s' = visited_stops s /\ visited_trips s' = visited_trips s.
Proof.
  induction future_stops as [|future rest IH]; intros s s' H; cbn [ride_trip] in H.
  - injection H as <-. split; [lia|auto].
  - destruct (timedelta_coerce _) as [arrival|e]; [|discriminate H]. ok_step_in H.
    destruct (end_timedelta cfg <? arrival).
    + destruct (IH s s' H) as (Hlen & Hv & Ht). cbn [length]. split; [lia|auto].
    + unfold append, append_ in H. ok_step_in H.
      destruct (push_to_queue _ _) as [s1|e] eqn:Hpush; [|discriminate H].
      ok_step_in H. destruct (IH s1 s' H) as (Hlen & Hv & Ht).
      pose proof (push_length _ _ _ Hpush) as Hp.
      destruct (push_keeps_fields _ _ _ Hpush) as (Hv1 & Ht1 & _).
      cbn [log queue visited_stops visited_trips length] in *.
      split; [lia|]. split; congruence.
Qed.

Lemma walk_to_length (cfg : Config) (gtfs : GTFS) (rc : RouteSegmentCollection)
    (td : timedelta) (stop : StopId) (targets : list StopId) :
  forall s s',
    walk_to cfg gtfs s rc td stop targets = Ok s' ->
    (length (queue s') <= length (queue s) + length targets)%nat /\
    visited_stops s' = visited_stops s /\ visited_trips s' = visited_trips s.
Proof.
  induction targets as [|target rest IH]; intros s s' H; cbn [walk_to] in H.
  - injection H as <-. split; [lia|auto].
  - unfold append, append_ in H. ok_step_in H.
    destruct (push_to_queue _ _) as [s1|e] eqn:Hpush; [|discriminate H].
    ok_step_in H. destruct (IH s1 s' H) as (Hlen & Hv & Ht).
    pose proof (push_length _ _ _ Hpush) as Hp.
    destruct (push_keeps_fields _ _ _ Hpush) as (Hv1 & Ht1 & _).
    cbn [log queue visited_stops visited_trips length] in *.
    split; [lia|]. split; congruence.
Qed.

Lemma filter_length_le {A} (f : A -> bool) (l : list A) :
  (length (List.filter f l) <= length l)%nat.
Proof. induction l as [|x l IH]; simpl; [lia|]. destruct (f x); simpl; lia. Qed.

(** Boarding a trip takes its stop times out of the count. *)
Lemma unboarded_rows_board (gtfs : GTFS) (boarded : gset TripId) (trip : TripId) :
  trip ∉ boarded ->
  (unboarded_rows gtfs ({[trip]} ∪ boarded) +
   length (List.filter (fun st => String.eqb (st_trip_id st) trip) (feed_stop_times gtfs))
   = unboarded_rows gtfs boarded)%nat.
Proof.
  intros Hfresh. unfold unboarded_rows.
  induction (feed_stop_times gtfs) as [|st l IH]; [reflexivity|]. cbn [List.filter].
  destruct (String.eqb_spec (st_trip_id st) trip) as [E|Hne].
  - rewrite E. rewrite (bool_decide_eq_true_2 (trip ∈ {[trip]} ∪ boarded))
      by (apply elem_of_union_l, elem_of_singleton; reflexivity).
    rewrite (bool_decide_eq_false_2 (trip ∈ boarded)) by assumption.
    cbn [negb length]. lia.
  - destruct (decide (st_trip_id st ∈ boarded)) as [Hin|Hout].
    + rewrite (bool_decide_eq_true_2 (st_trip_id st ∈ {[trip]} ∪ boarded))
        by (apply elem_of_union_r; assumption).
      rewrite (bool_decide_eq_true_2 (st_trip_id st ∈ boarded)) by assumption.
      cbn [negb]. exact IH.
    + rewrite (bool_decide_eq_false_2 (st_trip_id st ∈ {[trip]} ∪ boarded)).
      * rewrite (bool_decide_eq_false_2 (st_trip_id st ∈ boarded)) by assumption.
        cbn [negb length]. lia.
      * intros [Hs|Hb]%elem_of_union; [|contradiction].
        apply elem_of_singleton in Hs. contradiction.
Qed.

Lemma get_future_stops_on_trip_length (gtfs : GTFS) (trip : TripId) (stop_seq : Z)
    (future_stops : list StopTimeRow) :
  get_future_stops_on_trip gtfs trip stop_seq = Ok future_stops ->
  (length future_stops <=
   length (List.filter (fun st => String.eqb (st_trip_id st) trip)
             (feed_stop_times gtfs)))%nat.
Proof.
  unfold get_future_stops_on_trip, get_group. intros H.
  remember (List.filter (fun r => String.eqb (st_trip_id r) trip) (feed_stop_times gtfs))
    as g eqn:Hg.
  assert (E : future_stops = List.filter (fun r => stop_seq <? st_stop_sequence r) g).
  { destruct g; [discriminate H|]. ok_step_in H. injection H as <-. reflexivity. }
  subst future_stops. apply filter_length_le.
Qed.

Lemma board_routes_measure (cfg : Config) (gtfs : GTFS) (rc : RouteSegmentCollection)
    (rows : list TimetableRow) :
  forall s s',
    board_routes cfg gtfs s rc rows = Ok s' ->
    (length (queue s') + unboarded_rows gtfs (visited_trips s') <=
     length (queue s) + unboarded_rows gtfs (visited_trips s))%nat /\
    visited_stops s' = visited_stops s.
Proof.
  induction rows as [|row rest IH]; intros s s' H; cbn [board_routes] in H.
  - injection H as <-. split; [lia|reflexivity].
  - destruct (timedelta_coerce _) as [d|e]; [|discriminate H]. ok_step_in H.
    destruct (trip_route_types gtfs !! trip_id row) as [mode|]; [|discriminate H].
    destruct (negb _); [apply (IH s s' H)|].
    destruct (bool_decide (trip_id row ∈ visited_trips s)) eqn:Hin; [apply (IH s s' H)|].
    apply bool_decide_eq_false in Hin.
    destruct (get_future_stops_on_trip gtfs _ _) as [future_stops|e] eqn:Hfut;
      [|discriminate H].
    ok_step_in H.
    destruct (ride_trip _ _ _ _ _ _ _) as [s2|e] eqn:Hride; [|discriminate H].
    ok_step_in H. destruct (IH s2 s' H) as (Hlen & Hv).
    destruct (ride_trip_length _ _ _ _ _ _ _ _ Hride) as (Hlen2 & Hv2 & Ht2).
    cbn [log queue visited_stops visited_trips] in *.
    pose proof (unboarded_rows_board gtfs (visited_trips s) (trip_id row) Hin) as Hrows.
    assert (Hfl : (length future_stops <=
                   length (List.filter (fun st => String.eqb (st_trip_id st) (trip_id row))
                             (feed_stop_times gtfs)))%nat).
    { apply (get_future_stops_on_trip_length gtfs _ _ _ Hfut). }
    rewrite Ht2 in Hlen. split; [lia|congruence].
Qed.

(** Finalizing a stop of the universe takes it out of the count. *)
Lemma unreached_finalize (cfg : Config) (gtfs : GTFS)
    (finalized : gmap StopId RouteSegmentCollection) (stop : StopId)
    (rc : RouteSegmentCollection) :
  In stop (universe cfg gtfs) -> finalized !! stop = None ->
  (unreached cfg gtfs (<[stop := rc]> finalized) < unreached cfg gtfs finalized)%nat.
Proof.
  intros Hin Hnone. unfold unreached.
  induction (universe cfg gtfs) as [|u l IH]; [destruct Hin|]. cbn [List.filter].
  assert (Hle : (length (List.filter
                           (fun stop0 => negb (bool_decide
                              (is_Some (<[stop := rc]> finalized !! stop0)))) l) <=
                 length (List.filter
                           (fun stop0 => negb (bool_decide
                              (is_Some (finalized !! stop0)))) l))%nat).
  { clear. induction l as [|v l IH]; [reflexivity|]. cbn [List.filter].
    destruct (decide (stop = v)) as [<-|Hne].
    - rewrite lookup_insert_eq.
      rewrite (bool_decide_eq_true_2 (is_Some (Some rc))) by eauto. cbn [negb].
      destruct (negb _); cbn [length]; lia.
    - rewrite lookup_insert_ne by assumption.
      destruct (negb _); cbn [length]; lia. }
  destruct (decide (stop = u)) as [<-|Hne].
  - rewrite lookup_insert_eq, Hnone.
    rewrite (bool_decide_eq_true_2 (is_Some (Some rc))) by eauto.
    rewrite (bool_decide_eq_false_2 (is_Some None)) by (intros [? [=]]).
    cbn [negb length]. lia.
  - rewrite lookup_insert_ne by assumption.
    destruct Hin as [E|Hin]; [congruence|]. specialize (IH Hin).
    destruct (negb _); cbn [length]; lia.
Qed.

Lemma walking_expansion_length (cfg : Config) (gtfs : GTFS) (s s' : State)
    (rc : RouteSegmentCollection) (td : timedelta) (stop : StopId) :
  walking_expansion cfg gtfs s rc td stop = Ok s' ->
  (length (queue s') <= length (queue s) + length (stops gtfs))%nat /\
  visited_stops s' = visited_stops s /\ visited_trips s' = visited_trips s.
Proof.
  unfold walking_expansion. intros H.
  destruct (get_last_trip rc) as [last|e]; [|discriminate H]. ok_step_in H.
  destruct (attr route_name last) as [name|e]; [|discriminate H]. ok_step_in H.
  destruct (startswith _ _) as [walked|e]; [|discriminate H]. ok_step_in H.
  destruct walked; [injection H as <-; split; [lia|auto]|].
  destruct (Qle_bool _ _); [injection H as <-; split; [lia|auto]|].
  destruct (get_stop gtfs stop); [|discriminate H]. ok_step_in H.
  destruct (walk_to_length _ _ _ _ _ _ _ _ H) as (Hlen & Hv & Ht).
  unfold get_stops_in_area in Hlen.
  match type of Hlen with
  | context [List.filter ?f ?l] => pose proof (filter_length_le f l) as Hf
  end.
  split; [lia|auto].
Qed.

Lemma reachable_universe (cfg : Config) (gtfs : GTFS) (s : State) :
  reachable cfg gtfs s ->
  Forall nonempty (queue s) /\ Forall (ends_in_universe cfg gtfs) (queue s).
Proof.
  intros H.
  destruct (reachable_good_state cfg gtfs (ends_in_universe cfg gtfs)) with (s := s)
    as (Hq & HG & _); [| | |exact H|auto].
  - eexists. split; [reflexivity|]. left. reflexivity.
  - intros rc seg row future d arrival _ _ _ _ _ Hf _ _.
    eexists. split; [apply last_snoc|]. right. apply in_or_app. left.
    exact (in_map st_stop_id _ _ Hf).
  - intros rc seg target _ _ _ Ht _ _ _.
    eexists. split; [apply last_snoc|]. right. apply in_or_app. right. exact Ht.
Qed.

(** Every iteration lowers the potential. *)
Lemma loop_body_decreases (cfg : Config) (gtfs : GTFS) (s s' : State) :
  reachable cfg gtfs s -> loop_body cfg gtfs s = Ok s' ->
  (potential cfg gtfs s' < potential cfg gtfs s)%nat.
Proof.
  intros Hs H. destruct (reachable_universe cfg gtfs s Hs) as [Hq HU].
  unfold loop_body in H.
  destruct (heappop (queue s)) as [[rc rest]|e] eqn:Hpop; [|discriminate H].
  assert (Hne : queue s <> []) by (intros E; rewrite E in Hpop; discriminate Hpop).
  destruct (heappop_permutation (queue s) Hne Hq) as (rc' & rest' & Hpop' & Hperm).
  rewrite Hpop in Hpop'. injection Hpop' as <- <-.
  assert (Hlen : length (queue s) = S (length rest)).
  { rewrite <- Hperm. reflexivity. }
  assert (Hrc : ends_in_universe cfg gtfs rc).
  { rewrite <- Hperm in HU. apply (Forall_inv HU). }
  destruct Hrc as (seg & Hlast & Huniv).
  ok_step_in H. rewrite get_last_trip_last, Hlast in H. unfold attr in H. ok_step_in H.
  unfold set_queue in H.
  cbn [visited_stops visited_trips added_stops queue trace] in H.
  destruct (bool_decide _) eqn:Hvis.
  { injection H as <-. unfold potential. cbn [queue visited_trips visited_stops]. lia. }
  apply bool_decide_eq_false in Hvis. apply eq_None_not_Some in Hvis.
  destruct (end_timedelta cfg <? arrival_td seg).
  { injection H as <-. unfold potential. cbn [queue visited_trips visited_stops]. lia. }
  destruct (first_available_routes cfg gtfs _ _) as [routes|e]; [|discriminate H].
  ok_step_in H.
  destruct (board_routes _ _ _ _ _) as [s2|e] eqn:Hboard; [|discriminate H].
  ok_step_in H.
  destruct (board_routes_measure _ _ _ _ _ _ Hboard) as (Hm & Hv2).
  destruct (walking_expansion_length _ _ _ _ _ _ _ H) as (Hw & Hv' & Ht').
  pose proof (unreached_finalize cfg gtfs (visited_stops s) (arrival_stop_id seg) rc
                Huniv Hvis) as Hun.
  cbn [queue visited_trips visited_stops] in *.
  unfold potential. rewrite Hv', Ht', Hv2. nia.
Qed.

Lemma search_loop_ends (cfg : Config) (gtfs : GTFS) (fuel : nat) :
  forall s s',
    reachable cfg gtfs s -> (potential cfg gtfs s <= fuel)%nat ->
    search_loop cfg gtfs fuel s = Ok s' -> terminated s'.
Proof.
  induction fuel as [|fuel IH]; intros s s' Hs Hpot H; cbn [search_loop] in H.
  - injection H as <-. unfold potential in Hpot. unfold terminated.
    destruct (queue s); [reflexivity|simpl in Hpot; lia].
  - destruct (Nat.ltb_spec 0 (length (queue s))) as [Hlen|Hlen].
    + destruct (loop_body cfg gtfs s) as [s1|e] eqn:Hbody; [|discriminate H].
      ok_step_in H. apply (IH s1 s'); [| |exact H].
      * apply (reachable_step cfg gtfs s s1); [assumption| |assumption].
        intros E. rewrite E in Hlen. simpl in Hlen. lia.
      * pose proof (loop_body_decreases cfg gtfs s s1 Hs Hbody). lia.
    + injection H as <-. unfold terminated. destruct (queue s); [reflexivity|].
      simpl in Hlen. lia.
Qed.

(** More iterations than a run needs change nothing. *)
Lemma search_loop_stable (cfg : Config) (gtfs : GTFS) (fuel : nat) :
  forall s,
    match search_loop cfg gtfs fuel s with
    | Ok s' => terminated s'
    | Raise _ => True
    end ->
    forall fuel', (fuel <= fuel')%nat ->
                  search_loop cfg gtfs fuel' s = search_loop cfg gtfs fuel s.
Proof.
  induction fuel as [|fuel IH]; intros s H fuel' Hle.
  - cbn [search_loop] in *. unfold terminated in H.
    destruct fuel' as [|fuel']; [reflexivity|]. cbn [search_loop]. rewrite H. reflexivity.
  - destruct fuel' as [|fuel']; [lia|]. cbn [search_loop] in *.
    destruct (0 <? length (queue s))%nat; [|reflexivity].
    destruct (loop_body cfg gtfs s) as [s1|e]; [|reflexivity]. ok_step. ok_step_in H.
    apply IH; [exact H|lia].
Qed.

Lemma initial_potential (cfg : Config) (gtfs : GTFS) (s : State) :
  initial_state cfg = Ok s -> (potential cfg gtfs s <= search_bound cfg gtfs)%nat.
Proof.
  intros H. destruct (initial_state_inv cfg s H) as (Hv & Ht & _ & _ & Hq).
  unfold potential, search_bound, unboarded_rows, unreached. rewrite Hq, Hv, Ht.
  cbn [length].
  repeat apply Nat.add_le_mono; [reflexivity|apply filter_length_le|].
  apply Nat.mul_le_mono_l, filter_length_le.
Qed.

(** X12: the search terminates.  Within [search_bound] iterations, a
    number read off the feed (one, plus the stop times, plus the stops of the
    table times the stop ids a path can end at), the loop has either raised or
    emptied the frontier: a run that returns returns with an empty frontier,
    and allowing more iterations changes neither the state returned nor the
    exception raised. *)
Theorem search_terminates (cfg : Config) (gtfs : GTFS) :
  (forall s, run cfg gtfs (search_bound cfg gtfs) = Ok s -> terminated s) /\
  (forall fuel, (search_bound cfg gtfs <= fuel)%nat ->
                run cfg gtfs fuel = run cfg gtfs (search_bound cfg gtfs)).
Proof.
  assert (Hend : forall s0, initial_state cfg = Ok s0 ->
            match search_loop cfg gtfs (search_bound cfg gtfs) s0 with
            | Ok s' => terminated s'
            | Raise _ => True
            end).
  { intros s0 Hinit.
    destruct (search_loop cfg gtfs (search_bound cfg gtfs) s0) as [s'|e] eqn:E; [|exact I].
    eapply search_loop_ends; [apply reachable_initial, Hinit| |exact E].
    apply initial_potential, Hinit. }
  unfold run. split.
  - intros s H. destruct (initial_state cfg) as [s0|e] eqn:Hinit; [|discriminate H].
    ok_step_in H. specialize (Hend s0 eq_refl). rewrite H in Hend. exact Hend.
  - intros fuel Hle. destruct (initial_state cfg) as [s0|e]; [|reflexivity].
    ok_step. apply search_loop_stable; [apply Hend; reflexivity|exact Hle].
Qed.

Lemma well_formed_spec (cfg : Config) (gtfs : GTFS) :
  well_formed cfg gtfs = true ->
  dates_in_feed gtfs = true /\
  (forall stop, In stop (universe cfg gtfs) ->
     (exists row, In row (merged_trips_and_stoptimes gtfs) /\ stop_id row = stop) /\
     existsb (String.eqb stop) (stops gtfs) = true) /\
  (forall t, In t (feed_trips gtfs) -> is_Some (trip_route_types gtfs !! t_trip_id t)) /\
  (forall t, In t (feed_trips gtfs) -> exists name, t_trip_headsign t = Str name) /\
  (forall st, In st (feed_stop_times gtfs) -> is_Some (st_arrival_time st)).
Proof.
  unfold well_formed. rewrite !andb_true_iff, !forallb_forall.
  intros [[[[[_ Hdates] Hstops] Htypes] Hnames] Harr]. split; [exact Hdates|].
  split; [|split; [|split]].
  - intros stop Hstop. specialize (Hstops stop Hstop).
    apply andb_true_iff in Hstops as [Hserved Htable]. split; [|exact Htable].
    unfold served in Hserved. apply existsb_exists in Hserved as (row & Hrow & E).
    apply String.eqb_eq in E. eauto.
  - intros t Ht. apply (bool_decide_eq_true_1 _ (Htypes t Ht)).
  - intros t Ht. specialize (Hnames t Ht).
    destruct (t_trip_headsign t) as [name|]; [eauto|discriminate Hnames].
  - intros st Hst. apply (bool_decide_eq_true_1 _ (Harr st Hst)).
Qed.

(** When every trip has a headsign, so has every segment the search builds. *)
Lemma reachable_named (cfg : Config) (gtfs : GTFS) (s : State) :
  (forall t, In t (feed_trips gtfs) -> exists name, t_trip_headsign t = Str name) ->
  reachable cfg gtfs s -> Forall ends_named (queue s).
Proof.
  intros Hnames H.
  destruct (reachable_good_state cfg gtfs ends_named) with (s := s)
    as (_ & HG & _); [| | |exact H|exact HG].
  - eexists _, _. split; reflexivity.
  - intros rc seg row future d arrival _ _ Hrow _ _ _ _ _.
    destruct (merged_row_inv gtfs row Hrow) as (t & st & Ht & _ & _ & ->).
    destruct (Hnames t Ht) as [name Hname].
    eexists _, name. split; [apply last_snoc|exact Hname].
  - intros rc seg target _ _ _ _ _ _ _.
    eexists _, _. split; [apply last_snoc|reflexivity].
Qed.

Lemma get_group_returns {A} (key_of : A -> string) (key : string) (table : list A)
    (x : A) :
  In x table -> key_of x = key ->
  get_group key_of key table =
    Ok (List.filter (fun r => String.eqb (key_of r) key) table).
Proof.
  intros Hx Hkey. unfold get_group.
  assert (Hin : In x (List.filter (fun r => String.eqb (key_of r) key) table)).
  { apply filter_In. split; [exact Hx|]. apply String.eqb_eq, Hkey. }
  destruct (List.filter _ table); [destruct Hin|reflexivity].
Qed.

Lemma first_available_routes_returns (cfg : Config) (gtfs : GTFS) (stop : StopId)
    (td : timedelta) (row : TimetableRow) :
  dates_in_feed gtfs = true ->
  In row (merged_trips_and_stoptimes gtfs) -> stop_id row = stop ->
  exists routes, first_available_routes cfg gtfs stop td = Ok routes.
Proof.
  intros Hdates Hrow Hstop.
  unfold first_available_routes, trips_between_for_stop, get_stop_timetable,
    build_stop_timetable.
  rewrite Hdates. cbn [negb]. rewrite (get_group_returns stop_id stop _ row Hrow Hstop).
  ok_step. eauto.
Qed.

Lemma ride_trip_returns (cfg : Config) (rc : RouteSegmentCollection) (trip : TripId)
    (d : timedelta) (name : label) (future_stops : list StopTimeRow) :
  (forall future, In future future_stops -> is_Some (st_arrival_time future)) ->
  forall s, Forall nonempty (queue s) ->
  exists s', ride_trip cfg s rc trip d name future_stops = Ok s' /\
             Forall nonempty (queue s').
Proof.
  induction future_stops as [|future rest IH]; intros Harr s Hq; cbn [ride_trip].
  - eauto.
  - destruct (Harr future (or_introl eq_refl)) as [arrival Ha]. rewrite Ha.
    cbn [timedelta_coerce]. ok_step.
    assert (Hrest : forall f, In f rest -> is_Some (st_arrival_time f)).
    { intros f Hf. apply Harr. right. exact Hf. }
    destruct (end_timedelta cfg <? arrival); [apply (IH Hrest s Hq)|].
    unfold append, append_. ok_step.
    match goal with
    | |- context [push_to_queue ?s0 ?p] =>
        destruct (push_to_queue_total s0 p
                    (mkRouteSegment d arrival name (st_stop_id future)))
          as (s1 & Hpush & _ & Hq1); [apply last_snoc|exact Hq|]
    end.
    rewrite Hpush. ok_step. apply (IH Hrest s1 Hq1).
Qed.

Lemma board_routes_returns (cfg : Config) (gtfs : GTFS) (rc : RouteSegmentCollection)
    (rows : list TimetableRow) :
  (forall t, In t (feed_trips gtfs) -> is_Some (trip_route_types gtfs !! t_trip_id t)) ->
  (forall st, In st (feed_stop_times gtfs) -> is_Some (st_arrival_time st)) ->
  (forall row, In row rows ->
     In row (merged_trips_and_stoptimes gtfs) /\ is_Some (departure_time row)) ->
  forall s, Forall nonempty (queue s) ->
  exists s', board_routes cfg gtfs s rc rows = Ok s' /\ Forall nonempty (queue s').
Proof.
  intros Htypes Harr. induction rows as [|row rest IH]; intros Hrows s Hq;
    cbn [board_routes].
  - eauto.
  - assert (Hrest : forall r, In r rest ->
      In r (merged_trips_and_stoptimes gtfs) /\ is_Some (departure_time r)).
    { intros r Hr. apply Hrows. right. exact Hr. }
    destruct (Hrows row (or_introl eq_refl)) as (Hm & d & Hd).
    rewrite Hd. cbn [timedelta_coerce]. ok_step.
    destruct (merged_row_inv gtfs row Hm) as (t & st & Ht & Hst & Hkey & Hrow).
    assert (Htrip : trip_id row = t_trip_id t) by (rewrite Hrow; reflexivity).
    assert (Hsome : is_Some (trip_route_types gtfs !! trip_id row)).
    { rewrite Hrow. exact (Htypes t Ht). }
    destruct (trip_route_types gtfs !! trip_id row) as [mode|] eqn:Hmode;
      [|destruct Hsome as [mode Hsome]; discriminate Hsome].
    destruct (negb _); [apply (IH Hrest s Hq)|].
    destruct (bool_decide (trip_id row ∈ visited_trips s)); [apply (IH Hrest s Hq)|].
    unfold get_future_stops_on_trip.
    rewrite (get_group_returns st_trip_id (trip_id row) _ st Hst) by congruence.
    ok_step.
    match goal with
    | |- context [ride_trip cfg ?s0 rc ?trip ?dep ?name ?fs] =>
        destruct (ride_trip_returns cfg rc trip dep name fs) with (s := s0)
          as (s2 & Hride & Hq2)
    end.
    + intros f Hf. apply filter_In in Hf as [Hf _]. apply filter_In in Hf as [Hf _].
      apply Harr, Hf.
    + exact Hq.
    + rewrite Hride. ok_step. apply (IH Hrest s2 Hq2).
Qed.

(** On a well-formed feed an iteration returns. *)
Lemma loop_body_returns (cfg : Config) (gtfs : GTFS) (s : State) :
  well_formed cfg gtfs = true -> reachable cfg gtfs s -> queue s <> [] ->
  exists s', loop_body cfg gtfs s = Ok s'.
Proof.
  intros Hwf Hs Hne.
  destruct (well_formed_spec cfg gtfs Hwf) as (Hdates & Hstops & Htypes & Hnames & Harr).
  destruct (reachable_universe cfg gtfs s Hs) as [Hq HU].
  pose proof (reachable_named cfg gtfs s Hnames Hs) as HN.
  destruct (heappop_permutation (queue s) Hne Hq) as (rc & rest & Hpop & Hperm).
  assert (Hq0 : Forall nonempty (rc :: rest)) by (rewrite Hperm; exact Hq).
  assert (HU0 : Forall (ends_in_universe cfg gtfs) (rc :: rest))
    by (rewrite Hperm; exact HU).
  assert (HN0 : Forall ends_named (rc :: rest)) by (rewrite Hperm; exact HN).
  destruct (Forall_inv HU0) as (seg & Hlast & Huniv).
  destruct (Forall_inv HN0) as (seg' & name & Hlast' & Hname).
  rewrite Hlast in Hlast'. injection Hlast' as <-.
  destruct (Hstops _ Huniv) as ((row & Hrow & Hstop) & Htable).
  unfold loop_body. rewrite Hpop. ok_step. rewrite get_last_trip_last, Hlast.
  unfold attr. ok_step. unfold set_queue. cbn [visited_stops visited_trips added_stops queue trace].
  destruct (bool_decide _); [eauto|].
  destruct (end_timedelta cfg <? arrival_td seg); [eauto|].
  destruct (first_available_routes_returns cfg gtfs _ (arrival_td seg) row Hdates Hrow Hstop)
    as [routes Hroutes].
  rewrite Hroutes. ok_step.
  match goal with
  | |- context [board_routes cfg gtfs ?s0 rc routes] =>
      destruct (board_routes_returns cfg gtfs rc routes Htypes Harr) with (s := s0)
        as (s2 & Hboard & Hq2)
  end.
  - intros r Hr.
    destruct (first_available_routes_rows cfg gtfs _ _ _ Hroutes r Hr)
      as (Hm & _ & d & _ & Hd & _). split; [exact Hm|]. rewrite Hd. eauto.
  - cbn [queue]. apply (Forall_inv_tail Hq0).
  - rewrite Hboard. ok_step. unfold walking_expansion.
    rewrite get_last_trip_last, Hlast. unfold attr. ok_step.
    rewrite Hname. cbn [startswith]. ok_step.
    destruct (String.prefix _ _); [eauto|].
    destruct (Qle_bool _ _); [eauto|].
    unfold get_stop. rewrite Htable. ok_step.
    destruct (walk_to_trace cfg gtfs rc (arrival_td seg) (arrival_stop_id seg)
                (get_stops_in_area gtfs (arrival_stop_id seg)
                   (buffer_radius cfg (arrival_td seg))) s2 Hq2)
      as (s' & Hwalk & _).
    exists s'. exact Hwalk.
Qed.

Lemma search_loop_returns (cfg : Config) (gtfs : GTFS) (fuel : nat) :
  well_formed cfg gtfs = true ->
  forall s, reachable cfg gtfs s -> exists s', search_loop cfg gtfs fuel s = Ok s'.
Proof.
  intros Hwf. induction fuel as [|fuel IH]; intros s Hs; cbn [search_loop]; [eauto|].
  destruct (Nat.ltb_spec 0 (length (queue s))) as [Hlen|Hlen]; [|eauto].
  assert (Hne : queue s <> []).
  { intros E. rewrite E in Hlen. simpl in Hlen. lia. }
  destruct (loop_body_returns cfg gtfs s Hwf Hs Hne) as [s1 Hbody].
  rewrite Hbody. ok_step. apply IH.
  apply (reachable_step cfg gtfs s s1); assumption.
Qed.

Lemma initial_state_returns (cfg : Config) :
  initial_state cfg = Ok (mkState ∅ ∅ ∅ [start_path cfg] []).
Proof. reflexivity. Qed.

(** X13: on a well-formed feed the search completes.  When the date is in
    the feed, every stop a path can end at (the start stop, the stops of the
    stop times, the stops of the table) is served by a trip and listed in the
    table, every trip has a route type and a headsign, every stop time has an
    arrival time and the walking speed is below 2^1000, the search raises
    nothing and returns, within [search_bound] iterations, with an empty
    frontier. *)
Theorem search_completes_on_well_formed_feed (cfg : Config) (gtfs : GTFS) :
  well_formed cfg gtfs = true ->
  exists s, run cfg gtfs (search_bound cfg gtfs) = Ok s /\ terminated s.
Proof.
  intros Hwf. unfold run. rewrite initial_state_returns. ok_step.
  assert (Hinit : reachable cfg gtfs (mkState ∅ ∅ ∅ [start_path cfg] []))
    by apply reachable_initial, initial_state_returns.
  destruct (search_loop_returns cfg gtfs (search_bound cfg gtfs) Hwf _ Hinit) as [s Hrun].
  exists s. split; [exact Hrun|].
  eapply search_loop_ends; [exact Hinit| |exact Hrun].
  apply initial_potential, initial_state_returns.
Qed.

Lemma search_completes_on_well_formed_feed_witness :
  well_formed walking_config walking_feed = true /\
  exists s, run walking_config walking_feed (search_bound walking_config walking_feed) = Ok s /\
            terminated s.
Proof.
  split; [reflexivity|].
  apply (search_completes_on_well_formed_feed walking_config walking_feed). reflexivity.
Defined.

(** * The first iteration *)

Lemma filter_none {A} (f : A -> bool) (l : list A) :
  (forall x, In x l -> f x = false) -> List.filter f l = [].
Proof.
  induction l as [|a l IH]; intros H; [reflexivity|]. simpl.
  rewrite (H a (or_introl eq_refl)). apply IH. intros x Hx. apply H. right. exact Hx.
Qed.

(** The first iteration pops the start path and, when the horizon is not
    before the start, finalizes the start stop. *)
Lemma first_iteration (cfg : Config) (gtfs : GTFS) :
  0 <= HIDE_DURATION cfg ->
  loop_body cfg gtfs (mkState ∅ ∅ ∅ [start_path cfg] []) =
    (routes ← first_available_routes cfg gtfs (START_STOP cfg) (START_TIME_OF_DAY cfg);
     s2 ← board_routes cfg gtfs
            (mkState (<[START_STOP cfg := start_path cfg]> ∅) ∅ ∅ [] [])
            (start_path cfg) routes;
     walking_expansion cfg gtfs s2 (start_path cfg) (START_TIME_OF_DAY cfg)
       (START_STOP cfg)).
Proof.
  intros Hhide. unfold loop_body. cbn [queue].
  change (heappop [start_path cfg]) with (Ok (start_path cfg, @nil RouteSegmentCollection)).
  ok_step. rewrite get_last_trip_last. cbn [start_path trips last]. unfold attr. ok_step.
  unfold set_queue.
  cbn [visited_stops visited_trips added_stops queue trace arrival_td arrival_stop_id].
  rewrite bool_decide_eq_false_2
    by (rewrite lookup_empty; intros [x Hx]; discriminate Hx).
  assert (Hle : (end_timedelta cfg <? START_TIME_OF_DAY cfg) = false).
  { apply Z.ltb_ge. unfold end_timedelta. lia. }
  rewrite Hle. reflexivity.
Qed.

(** X14: a start stop that no trip of the feed calls at makes the search
    fail.  When the horizon is not before the start, the first iteration looks
    up the timetable of the start stop and the run raises [KeyError], whatever
    the stop table and the walking speed are: the start stop is not returned
    as reachable on its own. *)
Theorem unserved_start_raises (cfg : Config) (gtfs : GTFS) (fuel : nat) :
  0 <= HIDE_DURATION cfg ->
  (forall row, In row (merged_trips_and_stoptimes gtfs) -> stop_id row <> START_STOP cfg) ->
  run cfg gtfs (S fuel) = Raise KeyError.
Proof.
  intros Hhide Hnone. unfold run. rewrite initial_state_returns. ok_step.
  cbn [search_loop queue length Nat.ltb Nat.leb]. rewrite (first_iteration cfg gtfs Hhide).
  unfold first_available_routes, trips_between_for_stop, get_stop_timetable,
    build_stop_timetable, get_group.
  destruct (dates_in_feed gtfs); [|reflexivity]. cbn [negb].
  rewrite filter_none; [reflexivity|].
  intros row Hrow. apply String.eqb_neq, Hnone, Hrow.
Qed.

Lemma unserved_start_raises_witness :
  0 <= HIDE_DURATION stranded_config /\
  run stranded_config linear_feed 1 = Raise KeyError.
Proof.
  assert (Hhide : 0 <= HIDE_DURATION stranded_config) by (vm_compute; discriminate).
  split; [exact Hhide|].
  apply (unserved_start_raises stranded_config linear_feed 0 Hhide).
  intros row Hrow. simpl in Hrow.
  destruct Hrow as [<-|[<-|[<-|[]]]]; vm_compute; discriminate.
Defined.

(** X18: the start stop is always part of the result.  When the horizon
    is not before the start, every run that returns after at least one
    iteration has recorded, for the start stop, the path made of the start
    segment alone. *)
Theorem start_stop_finalized (cfg : Config) (gtfs : GTFS) (fuel : nat) (s : State) :
  0 <= HIDE_DURATION cfg ->
  run cfg gtfs (S fuel) = Ok s ->
  visited_stops s !! START_STOP cfg = Some (start_path cfg).
Proof.
  intros Hhide H. unfold run in H. rewrite initial_state_returns in H. ok_step_in H.
  cbn [search_loop queue length Nat.ltb Nat.leb] in H.
  destruct (loop_body cfg gtfs _) as [s1|e] eqn:Hbody; [|discriminate H].
  ok_step_in H. rewrite (first_iteration cfg gtfs Hhide) in Hbody.
  destruct (first_available_routes cfg gtfs _ _) as [routes|e]; [|discriminate Hbody].
  ok_step_in Hbody.
  destruct (board_routes _ _ _ _ _) as [s2|e] eqn:Hboard; [|discriminate Hbody].
  ok_step_in Hbody.
  destruct (board_routes_measure _ _ _ _ _ _ Hboard) as (_ & Hv2).
  destruct (walking_expansion_length _ _ _ _ _ _ _ Hbody) as (_ & Hv1 & _).
  cbn [visited_stops] in Hv2.
  apply (steps_keep_finalized cfg gtfs s1 s).
  - apply (search_loop_steps cfg gtfs fuel s1 s1 s); [apply steps_refl|exact H].
  - rewrite Hv1, Hv2. apply lookup_insert_eq.
Qed.

Lemma start_stop_finalized_witness :
  0 <= HIDE_DURATION linear_config /\
  visited_stops linear_final !! START_STOP linear_config = Some (start_path linear_config).
Proof.
  assert (Hhide : 0 <= HIDE_DURATION linear_config) by (vm_compute; discriminate).
  split; [exact Hhide|].
  apply (start_stop_finalized linear_config linear_feed 9 linear_final Hhide).
  vm_compute. reflexivity.
Defined.

(** * Walks *)

Lemma no_double_walk_app (l : list RouteSegment) (x : RouteSegment) :
  no_double_walk (l ++ [x]) =
  no_double_walk l &&
  match last l with
  | Some seg => negb (is_walk seg && is_walk x)
  | None => true
  end.
Proof.
  induction l as [|a l IH]; [reflexivity|].
  destruct l as [|b l].
  - simpl. rewrite andb_true_r. reflexivity.
  - change (no_double_walk ((a :: b :: l) ++ [x]))
      with (negb (is_walk a && is_walk b) && no_double_walk ((b :: l) ++ [x])).
    rewrite IH.
    change (no_double_walk (a :: b :: l))
      with (negb (is_walk a && is_walk b) && no_double_walk (b :: l)).
    change (last (a :: b :: l)) with (last (b :: l)).
    rewrite andb_assoc. reflexivity.
Qed.

(** X15: the search never walks twice in a row.  When no headsign of the
    feed begins with the marker of a walk, no path the search holds, in the
    frontier or recorded for a stop, has two consecutive segments named as
    walks. *)
Theorem search_never_walks_twice (cfg : Config) (gtfs : GTFS) (s : State) :
  headsigns_not_walks gtfs = true ->
  reachable cfg gtfs s ->
  all_paths (fun p => no_double_walk (trips p) = true) s.
Proof.
  intros Hfeed H. apply all_paths_of_invariant.
  apply (reachable_good_state cfg gtfs (fun p => no_double_walk (trips p) = true));
    [| | |exact H].
  - reflexivity.
  - intros rc seg row future d arrival Hrc Hlast Hrow _ _ _ _ _.
    cbn [ride_successor trips]. rewrite no_double_walk_app, Hrc, Hlast.
    cbn [andb]. unfold is_walk at 2. cbn [route_name].
    destruct (merged_row_inv gtfs row Hrow) as (t & st & Ht & _ & _ & ->).
    cbn [merge_row trip_headsign].
    unfold headsigns_not_walks in Hfeed. rewrite forallb_forall in Hfeed.
    specialize (Hfeed t Ht). apply negb_true_iff in Hfeed. rewrite Hfeed.
    rewrite andb_false_r. reflexivity.
  - intros rc seg target Hrc Hlast Hwalk _ _ _ _.
    cbn [walk_successor trips]. rewrite no_double_walk_app, Hrc, Hlast.
    cbn [andb]. unfold is_walk at 1.
    destruct (route_name seg) as [name|]; [|discriminate Hwalk].
    cbn [startswith reads_as_walk] in *. injection Hwalk as ->. reflexivity.
Qed.

Lemma walking_final_reachable : reachable walking_config walking_feed walking_final.
Proof. apply (run_reachable walking_config walking_feed 13). vm_compute. reflexivity. Qed.

Lemma search_never_walks_twice_witness :
  headsigns_not_walks walking_feed = true /\
  reachable walking_config walking_feed walking_final /\
  all_paths (fun p => no_double_walk (trips p) = true) walking_final.
Proof.
  split; [reflexivity|]. split; [exact walking_final_reachable|].
  apply (search_never_walks_twice walking_config walking_feed walking_final);
    [reflexivity|exact walking_final_reachable].
Defined.

(** * The timetable of a stop *)

Lemma insert_by_departure_permutation (x : TimetableRow) (l : list TimetableRow) :
  insert_by_departure x l ≡ₚ x :: l.
Proof.
  induction l as [|y l IH]; simpl; [reflexivity|].
  destruct (departure_le x y); [reflexivity|].
  rewrite IH. apply Permutation_swap.
Qed.

Lemma sort_values_permutation (l : list TimetableRow) : sort_values l ≡ₚ l.
Proof.
  induction l as [|x l IH]; simpl; [reflexivity|].
  rewrite insert_by_departure_permutation, IH. reflexivity.
Qed.

(** X16: [build_stop_timetable] for the date searched.  When the date is
    not in the feed the result is the frame without columns.  Otherwise the
    call raises [KeyError] exactly when no stop time of a trip of the trip table
    is at the stop; and when it returns, the rows are sorted by departure time
    (missing times last) and are, up to their order, the rows at that stop of the
    trips active on the date: a stop whose trips are all inactive gets the
    empty timetable, not an error. *)
Theorem build_stop_timetable_cases (gtfs : GTFS) (stop : StopId) :
  (dates_in_feed gtfs = false -> build_stop_timetable gtfs stop = Ok NoColumns) /\
  (dates_in_feed gtfs = true ->
   (build_stop_timetable gtfs stop = Raise KeyError <->
    forall row, In row (merged_trips_and_stoptimes gtfs) -> stop_id row <> stop) /\
   (forall e, build_stop_timetable gtfs stop = Raise e -> e = KeyError) /\
   (forall df, build_stop_timetable gtfs stop = Ok df ->
      exists rows,
        df = Rows rows /\ sorted rows /\
        rows ≡ₚ List.filter
                  (fun r => String.eqb (stop_id r) stop && trip_active gtfs (trip_id r))
                  (merged_trips_and_stoptimes gtfs))).
Proof.
  unfold build_stop_timetable, get_group. split; [intros ->; reflexivity|].
  intros ->. cbn [negb].
  remember (List.filter (fun r => String.eqb (stop_id r) stop)
              (merged_trips_and_stoptimes gtfs)) as g eqn:Hg.
  assert (Hfilter :
    List.filter (fun r => trip_active gtfs (trip_id r)) g =
    List.filter (fun r => String.eqb (stop_id r) stop && trip_active gtfs (trip_id r))
      (merged_trips_and_stoptimes gtfs)).
  { rewrite Hg. clear Hg. induction (merged_trips_and_stoptimes gtfs) as [|r l IH];
      [reflexivity|].
    simpl. destruct (String.eqb (stop_id r) stop); simpl; rewrite IH; reflexivity. }
  assert (Hin : forall row, In row g <->
                  In row (merged_trips_and_stoptimes gtfs) /\ stop_id row = stop).
  { intros row. rewrite Hg, filter_In, String.eqb_eq. reflexivity. }
  rewrite <- Hfilter. clear Hfilter Hg. destruct g as [|r g].
  - split; [|split].
    + split; [|reflexivity]. intros _ row Hrow E. apply (Hin row). auto.
    + intros e [= <-]. reflexivity.
    + intros df Hdf. discriminate Hdf.
  - ok_step. split; [|split].
    + split; [intros Hdf; discriminate Hdf|].
      intros Hnone. destruct (Hin r) as [Hr _].
      destruct (Hr (or_introl eq_refl)) as [Hm Hs]. destruct (Hnone r Hm Hs).
    + intros e He. discriminate He.
    + intros df [= <-]. eexists. split; [reflexivity|].
      split; [apply sort_values_sorted|apply sort_values_permutation].
Qed.

(** * The trips boarded *)

Lemma first_available_routes_active (cfg : Config) (gtfs : GTFS) (stop : StopId)
    (td : timedelta) (routes : list TimetableRow) :
  first_available_routes cfg gtfs stop td = Ok routes ->
  forall row, In row routes ->
    In row (merged_trips_and_stoptimes gtfs) /\ trip_active gtfs (trip_id row) = true.
Proof.
  unfold first_available_routes, trips_between_for_stop. intros H row Hrow.
  destruct (get_stop_timetable gtfs stop) as [tt|e] eqn:Htt; [|discriminate H].
  ok_step_in H. injection H as <-.
  apply drop_duplicates_from_first in Hrow as (_ & l1 & l2 & Hsplit & _).
  assert (Hin : In row (df_time_bound tt td (end_timedelta cfg))).
  { rewrite Hsplit. apply in_or_app. right. left. reflexivity. }
  unfold df_time_bound in Hin. apply filter_In in Hin as [Hin _].
  apply (get_stop_timetable_spec gtfs stop tt Htt) in Hin as (Hm & _ & Ha). auto.
Qed.

Lemma board_routes_trips (cfg : Config) (gtfs : GTFS) (rc : RouteSegmentCollection)
    (rows : list TimetableRow) :
  (forall row, In row rows ->
     In row (merged_trips_and_stoptimes gtfs) /\ trip_active gtfs (trip_id row) = true) ->
  forall s s',
    board_routes cfg gtfs s rc rows = Ok s' ->
    (forall trip, trip ∈ visited_trips s -> may_board cfg gtfs trip) ->
    forall trip, trip ∈ visited_trips s' -> may_board cfg gtfs trip.
Proof.
  induction rows as [|row rest IH]; intros Hrows s s' H Hs; cbn [board_routes] in H.
  - injection H as <-. exact Hs.
  - assert (Hrest : forall r, In r rest ->
      In r (merged_trips_and_stoptimes gtfs) /\ trip_active gtfs (trip_id r) = true).
    { intros r Hr. apply Hrows. right. exact Hr. }
    destruct (Hrows row (or_introl eq_refl)) as (Hm & Hactive).
    destruct (timedelta_coerce _) as [d|e]; [|discriminate H]. ok_step_in H.
    destruct (trip_route_types gtfs !! trip_id row) as [mode|] eqn:Hmode;
      [|discriminate H].
    destruct (existsb (Z.eqb mode) (ALLOWED_TRAVEL_MODES cfg)) eqn:Hallowed;
      cbn [negb] in H; [|apply (IH Hrest s s' H Hs)].
    destruct (bool_decide (trip_id row ∈ visited_trips s)); [apply (IH Hrest s s' H Hs)|].
    destruct (get_future_stops_on_trip gtfs _ _) as [future_stops|e]; [|discriminate H].
    ok_step_in H.
    destruct (ride_trip _ _ _ _ _ _ _) as [s2|e] eqn:Hride; [|discriminate H].
    ok_step_in H. apply (IH Hrest s2 s' H).
    destruct (ride_trip_length _ _ _ _ _ _ _ _ Hride) as (_ & _ & Ht2).
    cbn [log visited_trips] in Ht2. rewrite Ht2. intros trip Htrip.
    apply elem_of_union in Htrip as [Htrip|Htrip]; [|apply Hs, Htrip].
    apply elem_of_singleton in Htrip. subst trip.
    split; [eauto|]. split; [exact Hactive|]. exists mode. split; [exact Hmode|].
    apply existsb_exists in Hallowed as (m & Hin & E). apply Z.eqb_eq in E.
    subst m. exact Hin.
Qed.

(** X19: only allowed travel modes are used.  Every trip the search has
    boarded is a trip of the trip table with a stop time, active on the date
    searched, and its route type is one of [ALLOWED_TRAVEL_MODES]. *)
Theorem boarded_trips_allowed (cfg : Config) (gtfs : GTFS) (s : State) :
  reachable cfg gtfs s ->
  forall trip, trip ∈ visited_trips s -> may_board cfg gtfs trip.
Proof.
  induction 1 as [s Hinit|s s' _ IH _ Hbody].
  - destruct (initial_state_inv cfg s Hinit) as (_ & Ht & _). rewrite Ht.
    intros trip Htrip. apply elem_of_empty in Htrip. destruct Htrip.
  - unfold loop_body in Hbody.
    destruct (heappop (queue s)) as [[rc rest]|e]; [|discriminate Hbody].
    ok_step_in Hbody.
    destruct (get_last_trip rc) as [last|e]; [|discriminate Hbody]. ok_step_in Hbody.
    destruct (attr arrival_td last) as [td|e]; [|discriminate Hbody]. ok_step_in Hbody.
    destruct (attr arrival_stop_id last) as [stop|e]; [|discriminate Hbody].
    ok_step_in Hbody. unfold set_queue in Hbody.
    cbn [visited_stops visited_trips added_stops queue trace] in Hbody.
    destruct (bool_decide _); [injection Hbody as <-; exact IH|].
    destruct (end_timedelta cfg <? td); [injection Hbody as <-; exact IH|].
    destruct (first_available_routes cfg gtfs stop td) as [routes|e] eqn:Hroutes;
      [|discriminate Hbody].
    ok_step_in Hbody.
    destruct (board_routes _ _ _ _ _) as [s2|e] eqn:Hboard; [|discriminate Hbody].
    ok_step_in Hbody.
    destruct (walking_expansion_length _ _ _ _ _ _ _ Hbody) as (_ & _ & Ht').
    rewrite Ht'.
    apply (board_routes_trips cfg gtfs rc routes
             (first_available_routes_active cfg gtfs stop td routes Hroutes)
             _ s2 Hboard).
    exact IH.
Qed.

Lemma boarded_trips_allowed_witness :
  reachable linear_config linear_feed linear_final /\
  "T1" ∈ visited_trips linear_final /\
  may_board linear_config linear_feed "T1".
Proof.
  assert (Hin : "T1" ∈ visited_trips linear_final) by (vm_compute; reflexivity).
  split; [exact linear_final_reachable|]. split; [exact Hin|].
  apply (boarded_trips_allowed linear_config linear_feed linear_final
           linear_final_reachable "T1" Hin).
Defined.
